(** * PCI configuration-space enumeration of runtime.js (core/pci/scan.js)

    A shallow embedding of [src/node_modules/runtimejs/core/pci/scan.js]:
    the field accessor with its per-offset cache, the ACPI bridge resolver,
    the device objects with their assign-once fields and BAR probing, the
    device registry and the boot passes that run over it, followed by the
    properties of the specification that concern them.

    JavaScript numbers that the program uses as 32-bit integers are [Z]
    with the conversions of the bitwise operators written out; objects that
    are shared and mutated (the port pair, the accessors of the factory) live
    in an explicit machine state that every operation threads. *)

From Stdlib Require Import ZArith Lia List Bool String.
From stdpp Require Import base option list gmap.

Local Open Scope Z_scope.

(** ** JavaScript bitwise arithmetic on numbers holding integers *)

Module JS.

(** ToUint32 and ToInt32 of an integral number. *)
Definition toUint32 (x : Z) : Z := x mod 2 ^ 32.

Definition toInt32 (x : Z) : Z :=
  let u := x mod 2 ^ 32 in if u <? 2 ^ 31 then u else u - 2 ^ 32.

(** [a & b], [a | b], [~a]: the operands go through ToInt32. *)
Definition and (a b : Z) : Z := Z.land (toInt32 a) (toInt32 b).
Definition or (a b : Z) : Z := Z.lor (toInt32 a) (toInt32 b).
Definition not (a : Z) : Z := Z.lnot (toInt32 a).

(** [a << n] and [a >>> n]: the shift count is taken modulo 32. *)
Definition shl (a n : Z) : Z :=
  toInt32 (Z.shiftl (toInt32 a) (toUint32 n mod 32)).
Definition ushr (a n : Z) : Z :=
  Z.shiftr (toUint32 a) (toUint32 n mod 32).

(** [a % b] on integral numbers (the sign follows the dividend). *)
Definition rem (a b : Z) : Z := Z.rem a b.

End JS.

(** ** Errors and the state-and-exception monad

    Every [throw new Error(...)] of the source aborts the running call and
    leaves the mutations done so far in place. *)

Inductive Err : Type :=
| AlignmentError      (* 'unaligned pci space ... read/write' *)
| InvalidAddress      (* 'invalid bus/slot/func value' *)
| InvalidFieldMask    (* 'invalid pci space field mask' *)
| InvalidBarIndex     (* 'invalid BAR register index (expected 0-5)' *)
| WrongDeviceKind     (* 'device is a bridge' / 'device is not a bridge' *)
| DuplicateDevice     (* 'device on the same address already exists' *)
| AlreadyAssigned     (* 'IRQ vector already set' *)
| TypeError.          (* property access on undefined *)

Inductive Res (A : Type) : Type :=
| Ok (a : A)
| Throw (e : Err).
Arguments Ok {A} a.
Arguments Throw {A} e.

Definition M (S A : Type) : Type := S -> Res A * S.

Definition ret {S A} (a : A) : M S A := fun s => (Ok a, s).

Definition throw {S A} (e : Err) : M S A := fun s => (Throw e, s).

Definition bind {S A B} (m : M S A) (k : A -> M S B) : M S B :=
  fun s => match m s with
           | (Ok a, s') => k a s'
           | (Throw e, s') => (Throw e, s')
           end.

Notation "'do' x <- m ; k" := (bind m (fun x => k))
  (at level 10, x name, m at level 100, k at level 200).
Notation "m >> k" := (bind m (fun _ => k))
  (at level 100, k at level 200, right associativity).

Definition get {S} : M S S := fun s => (Ok s, s).
Definition gets {S A} (f : S -> A) : M S A := fun s => (Ok (f s), s).
Definition modify {S} (f : S -> S) : M S unit := fun s => (Ok tt, f s).

(** Run a computation on a component of the state. *)
Definition zoom {S T A} (proj : S -> T) (upd : T -> S -> S) (m : M T A) : M S A :=
  fun s => let '(r, t') := m (proj s) in (r, upd t' s).

(** ** The address/data port pair *)

(** What the program sends to and receives from the two ports, in order. *)
Inductive PortEvent : Type :=
| OutAddr32 (a : Z)     (* addressPort.write32(a) *)
| InData32 (v : Z)      (* dataPort.read32() returned v *)
| OutData32 (v : Z)     (* dataPort.write32(v) *)
| OutData16 (v : Z)     (* dataPort.write16(v) *)
| OutData8 (v : Z).     (* dataPort.write8(v) *)

(** A configuration-space dword: its content and the bits a write can
    change (size bits of a BAR and read-only registers have mask bits 0). *)
Record Reg : Type := mkReg { value : Z; wmask : Z }.

(** Modelled from the spec: the port handles [io.port(0xCF8)] and
    [io.port(0xCFC)] come from the native [resources.ioRange], which is not
    part of the sources.  The pair is the simulated configuration space of
    the specification: the address port latches the selected dword, the data
    port reads the selected dword (all ones where no function answers) and
    writes its writable bits; an access to the data port at 0xCFC narrower
    than 32 bits covers the low bytes of the selected dword. *)
Record PortPair : Type := mkPorts {
  latch : Z;
  cfg : gmap Z Reg;
  trace : list PortEvent
}.

Definition emit (e : PortEvent) (p : PortPair) : PortPair :=
  mkPorts (latch p) (cfg p) (trace p ++ [e]).

Definition store (lanes v : Z) (r : Reg) : Reg :=
  let m := Z.land (wmask r) lanes in
  mkReg (Z.lor (Z.land (value r) (Z.lnot m)) (Z.land v m)) (wmask r).

(** The dword of the space at a port address, and the selected dword. *)
Definition dwordAt (space : gmap Z Reg) (addr : Z) : Z :=
  match space !! addr with
  | Some r => Z.land (value r) 0xffffffff
  | None => 0xffffffff
  end.

Definition selected (p : PortPair) : Z := dwordAt (cfg p) (latch p).

Module addressPort.
Definition write32 (a : Z) : M PortPair unit :=
  modify (fun p => emit (OutAddr32 a) (mkPorts a (cfg p) (trace p))).
End addressPort.

Module dataPort.
Definition read32 : M PortPair Z :=
  fun p => (Ok (selected p), emit (InData32 (selected p)) p).

Definition write (lanes : Z) (e : Z -> PortEvent) (v : Z) : M PortPair unit :=
  modify (fun p =>
    emit (e v) (mkPorts (latch p) (alter (store lanes v) (latch p) (cfg p))
                        (trace p))).

Definition write32 : Z -> M PortPair unit := write 0xffffffff OutData32.
Definition write16 : Z -> M PortPair unit := write 0xffff OutData16.
Definition write8 : Z -> M PortPair unit := write 0xff OutData8.
End dataPort.

(** ** Configuration-space fields *)

Record Field : Type := mkField { offset : Z; shift : Z; mask : Z }.

Module fields.
Definition VENDOR_ID := mkField 0x00 0 0xffff.
Definition DEVICE_ID := mkField 0x00 2 0xffff.
Definition COMMAND := mkField 0x04 0 0xffff.
Definition STATUS := mkField 0x04 2 0xffff.
Definition REVISION_ID := mkField 0x08 0 0xff.
Definition PROG_IF := mkField 0x08 1 0xff.
Definition SUBCLASS := mkField 0x08 2 0xff.
Definition CLASS_CODE := mkField 0x08 3 0xff.
Definition CACHE_LINESIZE := mkField 0x0c 0 0xff.
Definition LATENCY_TIMER := mkField 0x0c 1 0xff.
Definition HEADER_TYPE := mkField 0x0c 2 0xff.
Definition BIST := mkField 0x0c 3 0xff.
End fields.

Module generalFields.
Definition BAR : list Field :=
  [ mkField 0x10 0 0xffffffff; mkField 0x14 0 0xffffffff;
    mkField 0x18 0 0xffffffff; mkField 0x1c 0 0xffffffff;
    mkField 0x20 0 0xffffffff; mkField 0x24 0 0xffffffff ].
Definition SUBSYS_VENDOR := mkField 0x2c 0 0xffff.
Definition SUBSYS_ID := mkField 0x2c 2 0xffff.
Definition INTERRUPT_LINE := mkField 0x3c 0 0xff.
Definition INTERRUPT_PIN := mkField 0x3c 1 0xff.
End generalFields.

Module bridgeFields.
Definition PRIMARY_BUS := mkField 0x18 0 0xff.
Definition SECONDARY_BUS := mkField 0x18 1 0xff.
Definition SUBORDINATE := mkField 0x18 2 0xff.
End bridgeFields.

(** ** The accessor factory *)

Module sizeof.
Definition BYTE := 1.
Definition UINT16 := 2.
Definition UINT32 := 4.
End sizeof.

(** Port address of a dword, as [setPort] composes it. *)
Definition portAddr (bus slot func offset : Z) : Z :=
  JS.ushr (JS.or (JS.or (JS.or (JS.or (JS.shl bus 16) (JS.shl slot 11))
                               (JS.shl func 8))
                        (JS.and offset 0xfc))
                 0x80000000) 0.

Definition setPort (bus slot func offset : Z) : M PortPair unit :=
  addressPort.write32 (portAddr bus slot func offset).

Definition readRaw32 (bus slot func offset : Z) : M PortPair Z :=
  if JS.rem offset sizeof.UINT32 =? 0
  then setPort bus slot func offset >> dataPort.read32
  else throw AlignmentError.

Definition dwToFieldValue (value : Z) (field : Field) : Z :=
  JS.ushr (JS.and (JS.ushr value (8 * sizeof.BYTE * shift field)) (mask field)) 0.

(** A PCI address object [{bus, slot, func}]. *)
Record PciAddress : Type := mkAddr { bus : Z; slot : Z; func : Z }.

(** [JSON.stringify([address.bus, address.slot, address.func])], the key of
    both the accessor cache and the device map. *)
Definition Key : Type := Z * Z * Z.
Definition addressHash (address : PciAddress) : Key :=
  (bus address, slot address, func address).

(** The machine: the port pair and the factory's [accessorCache].  An
    accessor object is identified by the key it is cached under; its closure
    variables are the key's components after [>>> 0] and its only mutable
    part is its [offsetCache], which is what the map holds.  An accessor is
    created with an empty [offsetCache]. *)
Record Machine : Type := mkMachine {
  ports : PortPair;
  accessorCache : gmap Key (gmap Z Z)
}.

Definition onPorts {A} (m : M PortPair A) : M Machine A :=
  zoom ports (fun p s => mkMachine p (accessorCache s)) m.

Module PciAccessor.

Definition abus (a : Key) : Z := JS.ushr a.1.1 0.
Definition aslot (a : Key) : Z := JS.ushr a.1.2 0.
Definition afunc (a : Key) : Z := JS.ushr a.2 0.

Definition offsetCache (a : Key) (s : Machine) : gmap Z Z :=
  default ∅ (accessorCache s !! a).

Definition updCache (a : Key) (f : gmap Z Z -> gmap Z Z) (s : Machine) : Machine :=
  mkMachine (ports s) (<[a := f (offsetCache a s)]> (accessorCache s)).

Definition writeRaw32 (a : Key) (offset value : Z) : M PortPair unit :=
  if JS.rem offset sizeof.UINT32 =? 0
  then setPort (abus a) (aslot a) (afunc a) offset >>
       dataPort.write32 (JS.ushr value 0)
  else throw AlignmentError.

Definition writeRaw16 (a : Key) (offset value : Z) : M PortPair unit :=
  if JS.rem offset sizeof.UINT16 =? 0
  then setPort (abus a) (aslot a) (afunc a) offset >>
       dataPort.write16 (JS.ushr (JS.and value 0xffff) 0)
  else throw AlignmentError.

Definition writeRaw8 (a : Key) (offset value : Z) : M PortPair unit :=
  setPort (abus a) (aslot a) (afunc a) offset >>
  dataPort.write8 (JS.ushr (JS.and value 0xff) 0).

(** [this.read] *)
Definition read (a : Key) (field : Field) : M Machine Z :=
  do cache <- gets (offsetCache a);
  do value <- match cache !! offset field with
              | Some value => ret value
              | None =>
                  do value <- onPorts (readRaw32 (abus a) (aslot a) (afunc a)
                                                 (offset field));
                  modify (updCache a (insert (offset field) value)) >>
                  ret value
              end;
  ret (dwToFieldValue value field).

(** [this.write] *)
Definition write (a : Key) (field : Field) (value : Z) : M Machine unit :=
  modify (updCache a (delete (offset field))) >>
  if mask field =? 0xffffffff
  then onPorts (writeRaw32 a (offset field) value)
  else if mask field =? 0xffff
  then onPorts (writeRaw16 a (offset field + shift field) value)
  else if mask field =? 0xff
  then onPorts (writeRaw8 a (offset field + shift field) value)
  else throw InvalidFieldMask.

(** The constructor's validation of the address. *)
Definition validate (a : Key) : M Machine unit :=
  if 255 <? abus a then throw InvalidAddress
  else if 31 <? aslot a then throw InvalidAddress
  else if 7 <? afunc a then throw InvalidAddress
  else ret tt.

End PciAccessor.

Module pciAccessorFactory.

Definition get (address : PciAddress) : M Machine Key :=
  let key := addressHash address in
  do cached <- gets accessorCache;
  match cached !! key with
  | Some _ => ret key
  | None =>
      PciAccessor.validate key >>
      modify (fun s => mkMachine (ports s) (<[key := ∅]> (accessorCache s))) >>
      ret key
  end.

Definition exists_ (bus slot func : Z) : M Machine bool :=
  let field := fields.VENDOR_ID in
  do value <- onPorts (readRaw32 bus slot func (offset field));
  let vendorId := dwToFieldValue value field in
  ret (negb (0xffff =? vendorId)).

End pciAccessorFactory.

(** ** ACPI device nodes *)

(** An entry of an ACPI interrupt routing table, with the properties the
    router reads. *)
Record Route : Type := mkRoute { r_deviceId : Z; r_pin : Z; r_irq : Z }.

(** The ACPI device handles of [acpi.getPciDevices()] are native objects;
    a node is the answers of its methods, [parent] being the enclosing
    node or null and [getIrqRoutingTable] an array or something else. *)
#[warnings="-register-all"]
Inductive AcpiNode : Type := mkAcpi {
  isDevice : bool;
  isRootBridge : bool;
  address : Z;
  parent : option AcpiNode;
  getRootBridgeBusNumber : Z;
  getIrqRoutingTable : option (list Route)
}.

Fixpoint locateAcpiDevice (dev : AcpiNode) : M Machine (option PciAddress) :=
  if negb (isDevice dev) then ret None else
  let addr := address dev in
  let slotId := JS.ushr (JS.and (JS.ushr addr 16) 0xffff) 0 in
  let funcId := JS.ushr (JS.and addr 0xffff) 0 in
  if isRootBridge dev
  then ret (Some (mkAddr (getRootBridgeBusNumber dev) slotId funcId))
  else
    match parent dev with
    | None => ret None
    | Some parentDev =>
        if negb (isDevice parentDev) then ret None else
        if isRootBridge parentDev
        then ret (Some (mkAddr (getRootBridgeBusNumber parentDev) slotId funcId))
        else
          do parentLocation <- locateAcpiDevice parentDev;
          match parentLocation with
          | None => ret None
          | Some parentLocation =>
              do pciParent <- pciAccessorFactory.get
                                (mkAddr (bus parentLocation) (slot parentLocation)
                                        (func parentLocation));
              do header <- PciAccessor.read pciParent fields.HEADER_TYPE;
              let headerType := JS.ushr (JS.and header 0x7f) 0 in
              if negb (0x01 =? headerType) && negb (0x02 =? headerType)
              then ret None
              else
                do bridgeBus <- PciAccessor.read pciParent bridgeFields.SECONDARY_BUS;
                ret (Some (mkAddr bridgeBus slotId funcId))
          end
    end.

(** ** Class-code names *)

Module codeNameResolver.

Definition classCodes : list string :=
  [ "Unclassified"; "Mass Storage Controller"; "Network Controller";
    "Display Controller"; "Multimedia Controller"; "Memory Controller";
    "Bridge Device"; "Simple Communication Controller";
    "Base System Peripheral"; "Input Device"; "Docking Station";
    "Processor"; "Serial Bus Controller"; "Wireless Controller";
    "Intelligent I/O Controller"; "Satellite Communication Controller";
    "Encryption/Decryption Controller";
    "Data Acquisition and Signal Processing Controller" ]%string.

(** [classCodes[code]] is undefined outside the table. *)
Definition classCodeToName (code : Z) : string :=
  match (if code <? 0 then None else classCodes !! Z.to_nat code) with
  | None => "Unclassified"%string
  | Some name => name
  end.

End codeNameResolver.

(** ** Resource handles

    Modelled from the spec: [ioRange.subrange], [memoryRange.block] and
    [irqRange.irq] belong to the native [resources] module, which is not part
    of the sources; each returns a handle for what it was asked. *)
Inductive Resource : Type :=
| IoSubrange (first last : Z)
| MemoryBlock (base size : Z).

Inductive IrqHandle : Type := Irq (vector : Z).

Module io.
Definition subrange (first last : Z) : Resource := IoSubrange first last.
End io.
Module memrange.
Definition block (base size : Z) : Resource := MemoryBlock base size.
End memrange.
Module irqRange.
Definition irq (vector : Z) : IrqHandle := Irq vector.
End irqRange.

(** ** PCI devices *)

Inductive BarType : Type := mem64 | io_bar | mem32.

Record BarDescriptor : Type := mkBar {
  bar_type : BarType;
  bar_base : Z;
  bar_size : Z;
  bar_resource : Resource
}.

Record ClassData : Type := mkClassData {
  classCode : Z;
  className : string;
  subclass : Z
}.

Record SubsystemData : Type := mkSubsystem {
  subsystemId : Z;
  subsystemVendor : Z
}.

(** A device object: what the constructor computed once and the two
    variables its methods assign ([that.acpiDevice], [irqVector]). *)
Record PciDevice : Type := mkDevice {
  dev_address : PciAddress;
  pciAccessor : Key;
  vendorId : Z;
  deviceId : Z;
  isBridge : bool;
  acpiDevice : option AcpiNode;
  irqVector : option Z
}.

Module barFlag.
Definition BAR_IO := 0x01.
Definition BAR_64 := 0x04.
End barFlag.

Module commandFlags.
Definition IOSpace := 0.
Definition MemorySpace := 1.
Definition BusMaster := 2.
End commandFlags.

Module Device.

(** [new PciDevice(address, pciAccessor)] *)
Definition new (address : PciAddress) (pciAccessor : Key) : M Machine PciDevice :=
  do vendorId <- PciAccessor.read pciAccessor fields.VENDOR_ID;
  do deviceId <- PciAccessor.read pciAccessor fields.DEVICE_ID;
  do header <- PciAccessor.read pciAccessor fields.HEADER_TYPE;
  let headerType := JS.ushr (JS.and header 0x7f) 0 in
  let isBridge := (0x01 =? headerType) || (0x02 =? headerType) in
  ret (mkDevice address pciAccessor vendorId deviceId isBridge None None).

Definition attachAcpiDevice (handle : option AcpiNode) : M PciDevice unit :=
  do d <- get;
  match acpiDevice d with
  | Some _ => ret tt
  | None =>
      modify (fun d => mkDevice (dev_address d) (pciAccessor d) (vendorId d)
                                (deviceId d) (isBridge d) handle (irqVector d))
  end.

Definition getSecondaryBus (d : PciDevice) : M Machine Z :=
  if negb (isBridge d) then throw WrongDeviceKind
  else PciAccessor.read (pciAccessor d) bridgeFields.SECONDARY_BUS.

Definition setCommandFlag (d : PciDevice) (flag : Z) : M Machine unit :=
  do value <- PciAccessor.read (pciAccessor d) fields.COMMAND;
  let value := JS.or value (JS.ushr (JS.shl 1 flag) 0) in
  PciAccessor.write (pciAccessor d) fields.COMMAND value.

Definition getIRQVector (d : PciDevice) : option Z := irqVector d.

Definition setIRQVector (vector : Z) : M PciDevice unit :=
  do d <- get;
  match irqVector d with
  | Some _ => throw AlreadyAssigned
  | None =>
      modify (fun d => mkDevice (dev_address d) (pciAccessor d) (vendorId d)
                                (deviceId d) (isBridge d) (acpiDevice d)
                                (Some (JS.ushr vector 0)))
  end.

Definition interruptPin (d : PciDevice) : M Machine Z :=
  if isBridge d then throw WrongDeviceKind
  else PciAccessor.read (pciAccessor d) generalFields.INTERRUPT_PIN.

Definition classData (d : PciDevice) : M Machine ClassData :=
  do classCode <- PciAccessor.read (pciAccessor d) fields.CLASS_CODE;
  do subclass <- PciAccessor.read (pciAccessor d) fields.SUBCLASS;
  let className := codeNameResolver.classCodeToName classCode in
  ret (mkClassData classCode className subclass).

Definition subsystemData (d : PciDevice) : M Machine SubsystemData :=
  if isBridge d then throw WrongDeviceKind
  else
    do subsystemId <- PciAccessor.read (pciAccessor d) generalFields.SUBSYS_ID;
    do subsystemVendor <- PciAccessor.read (pciAccessor d) generalFields.SUBSYS_VENDOR;
    ret (mkSubsystem subsystemId subsystemVendor).

(** The closing test of [getBAR]: a descriptor only when both the type
    and the resource object were set. *)
Definition barResult (base size : Z) (barType : option BarType)
    (obj : option Resource) : option BarDescriptor :=
  match barType, obj with
  | Some t, Some o => Some (mkBar t base size o)
  | _, _ => None
  end.

(** The part of [getBAR] after the probe: from the value of the BAR and
    the response to all ones to the result. *)
Definition decodeBAR (barAddr barSize : Z) : option BarDescriptor :=
  if barSize =? 0 then None else
  if negb (JS.and barAddr barFlag.BAR_64 =? 0) then
    (* TODO: 64bit bar support *)
    barResult 0 0 (Some mem64) None
  else if negb (JS.and barAddr barFlag.BAR_IO =? 0) then
    let base := JS.ushr (JS.and (JS.and barAddr (JS.not 0x3)) 0xffff) 0 in
    let size := JS.ushr (JS.and (JS.not (JS.and barSize (JS.not 0x3)) + 1)
                                0xffff) 0 in
    if 0 =? size then None else
    (* Base IO address 0 is probably an error, ignore it *)
    if 0 =? base then None else
    barResult base size (Some io_bar) (Some (io.subrange base (base + size - 1)))
  else
    let base := JS.ushr (JS.and barAddr 0xfffffff0) 0 in
    let size := JS.ushr (JS.and (JS.ushr (JS.not (JS.and barSize 0xfffffff0)) 0
                                 + 1) 0xffffffff) 0 in
    if 0 =? size then None else
    barResult base size (Some mem32) (Some (memrange.block base size)).

Definition getBAR (d : PciDevice) (index : Z) : M Machine (option BarDescriptor) :=
  if isBridge d then throw WrongDeviceKind else
  let indexValue := JS.ushr index 0 in
  if 5 <? indexValue then throw InvalidBarIndex else
  match generalFields.BAR !! Z.to_nat indexValue with
  | None => throw TypeError
  | Some barField =>
      do barAddr <- PciAccessor.read (pciAccessor d) barField;
      if barAddr =? 0 then ret None else
      PciAccessor.write (pciAccessor d) barField 0xffffffff >>
      do barSize <- PciAccessor.read (pciAccessor d) barField;
      (* Restore original value *)
      PciAccessor.write (pciAccessor d) barField (JS.ushr barAddr 0) >>
      ret (decodeBAR barAddr barSize)
  end.

End Device.

(** ** The device registry *)

(** [devicesMap]: a JavaScript [Map], which keeps insertion order. *)
Definition Registry : Type := list (Key * PciDevice).

Module pciManager.

Fixpoint lookup (key : Key) (devicesMap : Registry) : option PciDevice :=
  match devicesMap with
  | [] => None
  | (k, d) :: rest => if decide (k = key) then Some d else lookup key rest
  end.

Definition findDevice (address : PciAddress) (devicesMap : Registry)
  : option PciDevice :=
  lookup (addressHash address) devicesMap.

Definition addDevice (address : PciAddress) (pciAccessor : Key)
  : M (Registry * Machine) unit :=
  let key := addressHash address in
  do devicesMap <- gets fst;
  match lookup key devicesMap with
  | Some _ => throw DuplicateDevice
  | None =>
      do d <- zoom snd (fun m s => (s.1, m)) (Device.new address pciAccessor);
      modify (fun s => (s.1 ++ [(key, d)], s.2))
  end.

(** [each(fn)]: the callback runs on every device in insertion order; it
    sees the device object and the rest of the state [T], and what it
    changed stays changed when it throws. *)
Fixpoint eachFrom {T} (fn : M (PciDevice * T) unit) (devicesMap : Registry)
    (t : T) : Res unit * (Registry * T) :=
  match devicesMap with
  | [] => (Ok tt, ([], t))
  | (k, d) :: rest =>
      match fn (d, t) with
      | (Ok _, (d', t')) =>
          let '(r, (rest', t'')) := eachFrom fn rest t' in
          (r, ((k, d') :: rest', t''))
      | (Throw e, (d', t')) => (Throw e, ((k, d') :: rest, t'))
      end
  end.

Definition each {T} (fn : M (PciDevice * T) unit) : M (Registry * T) unit :=
  fun s => eachFrom fn s.1 s.2.

End pciManager.

(** Lifting of a device method and of a machine operation into the state of
    an [each] callback. *)
Definition self {T A} (m : M PciDevice A) : M (PciDevice * T) A :=
  zoom fst (fun d s => (d, s.2)) m.
Definition this {T} : M (PciDevice * T) PciDevice := gets fst.
Definition outer {T A} (m : M T A) : M (PciDevice * T) A :=
  zoom snd (fun t s => (s.1, t)) m.

(** ** The boot passes *)

(** *** Attaching ACPI handles and collecting the bus handles *)

(** [dev.method()] on the device that [findDevice] returned: the object in
    the map is the one that changes. *)
Fixpoint onDevice {A} (key : Key) (m : M PciDevice A) (devicesMap : Registry)
    : Res A * Registry :=
  match devicesMap with
  | [] => (Throw TypeError, [])
  | (k, d) :: rest =>
      if decide (k = key)
      then let '(r, d') := m d in (r, (k, d') :: rest)
      else let '(r, rest') := onDevice key m rest in (r, (k, d) :: rest')
  end.

(** The state of the pass: the registry, the machine and the sparse array
    [acpiDevicesBuses]. *)
Definition AttachState : Type := Registry * (Machine * gmap Z AcpiNode).

Definition onMachine {A} (m : M Machine A) : M AttachState A :=
  zoom (fun s => s.2.1) (fun x s => (s.1, (x, s.2.2))) m.

Definition setBus (busId : Z) (acpiDevice : AcpiNode) : M AttachState unit :=
  modify (fun s => (s.1, (s.2.1, <[busId := acpiDevice]> s.2.2))).

(** The callback of [acpiDevices.forEach]. *)
Definition attachAcpi (acpiDevice : AcpiNode) : M AttachState unit :=
  do address <- onMachine (locateAcpiDevice acpiDevice);
  (if isRootBridge acpiDevice
   then setBus (getRootBridgeBusNumber acpiDevice) acpiDevice
   else ret tt) >>
  match address with
  | None => ret tt
  | Some address =>
      do devicesMap <- gets fst;
      match pciManager.findDevice address devicesMap with
      | None => ret tt
      | Some dev =>
          zoom fst (fun r s => (r, s.2))
               (onDevice (addressHash address)
                         (Device.attachAcpiDevice (Some acpiDevice))) >>
          if isBridge dev
          then do busId <- onMachine (Device.getSecondaryBus dev);
               setBus busId acpiDevice
          else ret tt
      end
  end.

Fixpoint forEach {S A} (fn : A -> M S unit) (l : list A) : M S unit :=
  match l with
  | [] => ret tt
  | x :: l' => fn x >> forEach fn l'
  end.

Definition attachPass (acpiDevices : list AcpiNode) : M AttachState unit :=
  forEach attachAcpi acpiDevices.

(** *** Extracting the routing tables

    [acpiDevicesBuses.forEach] visits the array indices that were assigned;
    a bus gets a table when the handle's routing table is an array. *)
Definition extractRouting (acpiDevicesBuses : gmap Z AcpiNode) : gmap Z (list Route) :=
  omap getIrqRoutingTable
       (filter (fun kv => 0 <= kv.1 < 2 ^ 32 - 1) acpiDevicesBuses).

(** *** Setting the IRQs *)

(** The callback of [routing.forEach]: what [deviceIRQ] is after a route. *)
Definition matchRoute (address : PciAddress) (devicePin : Z)
    (deviceIRQ : option Z) (route : Route) : option Z :=
  if negb (slot address =? r_deviceId route) then deviceIRQ
  else if negb (devicePin =? r_pin route + 1) then deviceIRQ
  else Some (r_irq route).

Definition setIrq (busRouting : gmap Z (list Route)) : M (PciDevice * Machine) unit :=
  do pciDevice <- this;
  let address := dev_address pciDevice in
  (* Skip bridges for now *)
  if isBridge pciDevice then ret tt else
  match busRouting !! bus address with
  | None => ret tt
  | Some routing =>
      do devicePin <- outer (Device.interruptPin pciDevice);
      (* Check if this device does not use an IRQ pin *)
      if 0 =? devicePin then ret tt else
      let deviceIRQ := fold_left (matchRoute address devicePin) routing None in
      match deviceIRQ with
      | Some irq => self (Device.setIRQVector irq)
      | None => ret tt
      end
  end.

Definition irqPass (busRouting : gmap Z (list Route)) : M (Registry * Machine) unit :=
  pciManager.each (setIrq busRouting).

(** *** Starting the drivers *)

Record DriverData : Type := mkDriverData {
  driver : option string;
  enabled : bool;
  busMaster : bool
}.

(** What a driver or a caller of [listPciDevices] gets for a BAR. *)
Record BarData : Type := mkBarData { bd_type : BarType; bd_resource : Resource }.

Definition barDataOf (bar : option BarDescriptor) : option BarData :=
  match bar with
  | Some bar => Some (mkBarData (bar_type bar) (bar_resource bar))
  | None => None
  end.

(** [for (var i = 0; i < 6; ++i) { ... bars.push(barData); }] *)
Fixpoint pushBars (d : PciDevice) (indices : list Z) (bars : list (option BarData))
    : M Machine (list (option BarData)) :=
  match indices with
  | [] => ret bars
  | i :: indices' =>
      do bar <- Device.getBAR d i;
      pushBars d indices' (bars ++ [barDataOf bar])
  end.

Definition decodeBars (d : PciDevice) : M Machine (list (option BarData)) :=
  pushBars d [0; 1; 2; 3; 4; 5] [].

Record DriverArgs : Type := mkDriverArgs {
  da_bars : list (option BarData);
  da_irq : option IrqHandle;
  da_classData : ClassData;
  da_subsystemData : SubsystemData
}.

(** The drivers that were started, [require('driver/' + name)(driverArgs)],
    oldest first. *)
Definition Started : Type := list (string * DriverArgs).

(** The callback of the pass with the value of [driverData] as a
    parameter. *)
Definition startDriverWith (driverData : option DriverData)
    : M (PciDevice * (Machine * Started)) unit :=
  do pciDevice <- this;
  match driverData with
  | None => ret tt
  | Some driverData =>
      match driver driverData with
      | None => ret tt
      | Some name =>
          if negb (enabled driverData) then ret tt else
          let irqVector := Device.getIRQVector pciDevice in
          let irqObject := option_map irqRange.irq irqVector in
          let onM {A} (m : M Machine A) : M (PciDevice * (Machine * Started)) A :=
            outer (zoom fst (fun x s => (x, s.2)) m) in
          do argsBars <- onM (decodeBars pciDevice);
          (if busMaster driverData
           then onM (Device.setCommandFlag pciDevice commandFlags.BusMaster) >>
                onM (Device.setCommandFlag pciDevice commandFlags.MemorySpace)
           else ret tt) >>
          do classData <- onM (Device.classData pciDevice);
          do subsystemData <- onM (Device.subsystemData pciDevice);
          let driverArgs := mkDriverArgs argsBars irqObject classData subsystemData in
          modify (fun s => (s.1, (s.2.1, s.2.2 ++ [(name, driverArgs)])))
      end
  end.

(** In the source [driverData] is the constant [null]. *)
Definition startDriver : M (PciDevice * (Machine * Started)) unit :=
  startDriverWith None.

Definition driverPass : M (Registry * (Machine * Started)) unit :=
  pciManager.each startDriver.

(** *** The device inventory *)

Record Summary : Type := mkSummary {
  s_bus : Z;
  s_slot : Z;
  s_func : Z;
  s_vendorId : Z;
  s_deviceId : Z;
  s_className : string;
  s_subsystemData : SubsystemData;
  s_irqVector : option Z;
  s_pin : option string;
  s_pciAccessor : Key;
  s_irq : option IrqHandle;
  s_bars : list (option BarData)
}.

(** [pins[devicePin]] for [pins = [null, 'A', 'B', 'C', 'D']]; null also
    stands for the undefined of an index outside the array. *)
Definition pinName (devicePin : Z) : option string :=
  if devicePin =? 1 then Some "A"%string
  else if devicePin =? 2 then Some "B"%string
  else if devicePin =? 3 then Some "C"%string
  else if devicePin =? 4 then Some "D"%string
  else None.

(** The callback of [listPciDevices]; [results] is the second component of
    the state. *)
Definition summarize : M (PciDevice * (Machine * list Summary)) unit :=
  do pciDevice <- this;
  if isBridge pciDevice then ret tt else
  let onM {A} (m : M Machine A) : M (PciDevice * (Machine * list Summary)) A :=
    outer (zoom fst (fun x s => (x, s.2)) m) in
  let address := dev_address pciDevice in
  let irqVector := Device.getIRQVector pciDevice in
  do classData <- onM (Device.classData pciDevice);
  do subsystemData <- onM (Device.subsystemData pciDevice);
  do devicePin <- (if negb (isBridge pciDevice)
                   then onM (Device.interruptPin pciDevice)
                   else ret 0);
  let irqObject := option_map irqRange.irq irqVector in
  do bars <- onM (decodeBars pciDevice);
  modify (fun s =>
    (s.1, (s.2.1, s.2.2 ++
      [mkSummary (bus address) (slot address) (func address)
                 (vendorId pciDevice) (deviceId pciDevice)
                 (className classData) subsystemData irqVector
                 (pinName devicePin) (pciAccessor pciDevice) irqObject bars]))).

Definition listPciDevices : M (Registry * Machine) (list Summary) :=
  fun s =>
    let '(r, (devicesMap, (machine, results))) :=
      pciManager.each summarize (s.1, (s.2, [])) in
    (match r with Ok _ => Ok results | Throw e => Throw e end,
     (devicesMap, machine)).


(** ** Enumeration of the configuration space *)

(** A machine operation inside a state that carries the machine second. *)
Definition inMachine {T A} (m : M Machine A) : M (T * Machine) A :=
  zoom snd (fun x s => (s.1, x)) m.

Module pciSpace.

Definition checkDevice {T} (bus slot func : Z)
    (fn : PciAddress -> Key -> M (T * Machine) unit) : M (T * Machine) unit :=
  let addr := mkAddr bus slot func in
  do pciAccessor <- inMachine (pciAccessorFactory.get addr);
  do vendorId <- inMachine (PciAccessor.read pciAccessor fields.VENDOR_ID);
  if 0xffff =? vendorId then ret tt else fn addr pciAccessor.

Definition checkDeviceFunctions {T} (bus slot : Z)
    (fn : PciAddress -> Key -> M (T * Machine) unit) : M (T * Machine) unit :=
  let func := 0 in
  do pciAccessor <- inMachine (pciAccessorFactory.get (mkAddr bus slot func));
  do headerType <- inMachine (PciAccessor.read pciAccessor fields.HEADER_TYPE);
  let isMultifunc := JS.ushr (JS.and headerType 0x80) 0 in
  let funcCount := if isMultifunc =? 0 then 1 else 8 in
  forEach (fun func => checkDevice bus slot func fn) (seqZ 0 funcCount).

(** [for (var bus = 0; bus < 255; ++bus) for (var slot = 0; slot < 32; ++slot)] *)
Definition eachDevice {T} (fn : PciAddress -> Key -> M (T * Machine) unit)
    : M (T * Machine) unit :=
  let func := 0 in
  forEach (fun bus =>
    forEach (fun slot =>
      do present <- inMachine (pciAccessorFactory.exists_ bus slot func);
      if negb present then ret tt
      else checkDeviceFunctions bus slot fn)
      (seqZ 0 32))
    (seqZ 0 255).

End pciSpace.

(** Enumerate configuration space and create PCI devices. *)
Definition enumerate : M (Registry * Machine) unit :=
  pciSpace.eachDevice (fun address pciAccessor =>
    pciManager.addDevice address pciAccessor).

(** ** The module's top-level code

    What the module runs when it is loaded, from the enumeration to the
    start of the drivers, on the nodes of [acpi.getPciDevices()];
    [acpiDevicesBuses], [busRouting] and the started drivers are its
    variables. *)
Definition collectBuses (acpiDevices : list AcpiNode)
    : M (Registry * Machine) (gmap Z AcpiNode) :=
  fun s =>
    let '(r, (devicesMap, (machine, acpiDevicesBuses))) :=
      attachPass acpiDevices (s.1, (s.2, ∅)) in
    (match r with Ok _ => Ok acpiDevicesBuses | Throw e => Throw e end,
     (devicesMap, machine)).

Definition startDrivers : M (Registry * Machine) Started :=
  fun s =>
    let '(r, (devicesMap, (machine, started))) := driverPass (s.1, (s.2, [])) in
    (match r with Ok _ => Ok started | Throw e => Throw e end,
     (devicesMap, machine)).

Definition scan (acpiDevices : list AcpiNode) : M (Registry * Machine) Started :=
  enumerate >>
  do acpiDevicesBuses <- collectBuses acpiDevices;
  let busRouting := extractRouting acpiDevicesBuses in
  irqPass busRouting >>
  startDrivers.

(** ** The helpers for drivers ([driver-utils.js])

    [resources.ioRange.port] belongs to the native [resources] module like
    the other handle constructors; it returns a handle for the port it was
    asked. *)
Inductive PortHandle : Type := IoPort (number : Z).

Module driverUtils.

Definition physicalMemory (address byteLength : Z) : Resource :=
  memrange.block (JS.ushr address 0) (JS.ushr byteLength 0).

Definition irq (number : Z) : IrqHandle :=
  irqRange.irq (JS.ushr number 0).

Definition ioPort (number : Z) : PortHandle :=
  IoPort (JS.ushr number 0).

End driverUtils.
(** ** Notions of the specification *)

(** The routing entries that the specification's rule selects for a device:
    [entry.slotId == device.slot AND entry.pin + 1 == device.pin]. *)
Definition routeMatches (address : PciAddress) (devicePin : Z) (route : Route) : bool :=
  (r_deviceId route =? slot address) && (r_pin route + 1 =? devicePin).

(** The first and the last matching entry, in table order. *)
Definition firstMatch (address : PciAddress) (devicePin : Z) (routing : list Route)
    : option Route :=
  List.find (routeMatches address devicePin) routing.

Definition lastMatch (address : PciAddress) (devicePin : Z) (routing : list Route)
    : option Route :=
  List.find (routeMatches address devicePin) (rev routing).

(** The dword that the configuration space holds at a port address: what
    the data port returns once the address is selected. *)
Definition rawAt (addr : Z) (p : PortPair) : Z := dwordAt (cfg p) addr.

(** The port address of a field's dword for an accessor. *)
Definition fieldAddr (a : Key) (field : Field) : Z :=
  portAddr (PciAccessor.abus a) (PciAccessor.aslot a) (PciAccessor.afunc a)
           (offset field).

(** The port pair after the program has selected a dword and read it, and
    after it has selected a dword and written through the data port. *)
Definition afterRead32 (addr : Z) (p : PortPair) : PortPair :=
  mkPorts addr (cfg p) (trace p ++ [OutAddr32 addr; InData32 (rawAt addr p)]).

Definition afterWrite (lanes : Z) (e : Z -> PortEvent) (addr v : Z) (p : PortPair)
    : PortPair :=
  mkPorts addr (alter (store lanes v) addr (cfg p)) (trace p ++ [OutAddr32 addr; e v]).

(** The machine after an accessor's cache entry for an offset was set or
    dropped. *)
Definition withCache (a : Key) (c : gmap Z Z) (p : PortPair) (m : Machine) : Machine :=
  mkMachine p (<[a := c]> (accessorCache m)).

(** The cache of an accessor agrees with the configuration space on the
    dword of a field: the entry, when there is one, is the dword. *)
Definition coherentAt (a : Key) (field : Field) (m : Machine) : Prop :=
  forall v, PciAccessor.offsetCache a m !! offset field = Some v ->
            v = rawAt (fieldAddr a field) (ports m).

(** The probe of a BAR as [getBAR] performs it once the BAR was found
    nonzero: all ones written, the response read, the value written back;
    the result is the response. *)
Definition probeResponse (a : Key) (barField : Field) (barAddr : Z) : M Machine Z :=
  PciAccessor.write a barField 0xffffffff >>
  do barSize <- PciAccessor.read a barField;
  PciAccessor.write a barField (JS.ushr barAddr 0) >>
  ret barSize.

(** The dword that answers the probe of a BAR, and the machine once the
    probe is over. *)
Definition responseOf (a : Key) (barField : Field) (m : Machine) : Z :=
  rawAt (fieldAddr a barField)
        (afterWrite 0xffffffff OutData32 (fieldAddr a barField) 0xffffffff (ports m)).

Definition afterProbe (a : Key) (barField : Field) (barAddr : Z) (m : Machine)
    : Machine :=
  withCache a
    (delete (offset barField)
       (<[offset barField := responseOf a barField m]>
          (delete (offset barField) (PciAccessor.offsetCache a m))))
    (afterWrite 0xffffffff OutData32 (fieldAddr a barField) barAddr
       (afterRead32 (fieldAddr a barField)
          (afterWrite 0xffffffff OutData32 (fieldAddr a barField) 0xffffffff
                      (ports m))))
    m.

(** The I/O decoding of the specification: base and size truncated to 16
    bits, absent when either is zero. *)
Definition ioBase (barAddr : Z) : Z := Z.land (Z.land barAddr (Z.lnot 0x3)) 0xffff.
Definition ioSize (response : Z) : Z :=
  Z.land (Z.lnot (Z.land response (Z.lnot 0x3)) + 1) 0xffff.
Definition ioDescriptor (base size : Z) : option BarDescriptor :=
  if (size =? 0) || (base =? 0) then None
  else Some (mkBar io_bar base size (IoSubrange base (base + size - 1))).

(** The header types of a bridge, after the multifunction bit is masked. *)
Definition bridgeTyped (header : Z) : bool :=
  let headerType := JS.ushr (JS.and header 0x7f) 0 in
  (0x01 =? headerType) || (0x02 =? headerType).

(** The ACPI nodes whose ancestor chain never reaches a root bridge: the
    node is no device, or it is no root bridge and has no parent, a parent
    that is no device, or a parent that is no root bridge either and is
    itself such a node. *)
Fixpoint neverReachesRoot (dev : AcpiNode) : bool :=
  negb (isDevice dev) ||
  (negb (isRootBridge dev) &&
   match parent dev with
   | None => true
   | Some parentDev =>
       negb (isDevice parentDev) ||
       (negb (isRootBridge parentDev) && neverReachesRoot parentDev)
   end).

(** What the resolver does with the address its parent resolved to: it
    takes the accessor of the address and reads the header type. *)
Definition parentHeader (parentLocation : PciAddress) : M Machine Z :=
  do pciParent <- pciAccessorFactory.get parentLocation;
  PciAccessor.read pciParent fields.HEADER_TYPE.

(** An address that the accessor constructor accepts. *)
Definition validAddress (address : PciAddress) : Prop :=
  0 <= bus address <= 255 /\ 0 <= slot address <= 31 /\ 0 <= func address <= 7.

(** [Unresolved dev m m']: from machine [m] the node [dev] is one that the
    resolver cannot map, and [m'] is the machine it leaves.  Either the
    chain of the node never reaches a root bridge, or the parent (below a
    root bridge somewhere) is not resolved in turn, or the parent is
    resolved to an address that the accessor constructor accepts and the
    header type read there is not that of a bridge. *)
Inductive Unresolved : AcpiNode -> Machine -> Machine -> Prop :=
| Unresolved_chain dev m :
    neverReachesRoot dev = true -> Unresolved dev m m
| Unresolved_parent dev parentDev m m' :
    isDevice dev = true -> isRootBridge dev = false ->
    parent dev = Some parentDev ->
    isDevice parentDev = true -> isRootBridge parentDev = false ->
    Unresolved parentDev m m' ->
    Unresolved dev m m'
| Unresolved_not_bridge dev parentDev m m1 parentLocation :
    isDevice dev = true -> isRootBridge dev = false ->
    parent dev = Some parentDev ->
    isDevice parentDev = true -> isRootBridge parentDev = false ->
    locateAcpiDevice parentDev m = (Ok (Some parentLocation), m1) ->
    validAddress parentLocation ->
    (forall header, (parentHeader parentLocation m1).1 = Ok header ->
                    bridgeTyped header = false) ->
    Unresolved dev m (parentHeader parentLocation m1).2.

(** [acpiDevicesBuses] after the callback of the attach pass ran on a node
    that was not resolved. *)
Definition busesAfter (dev : AcpiNode) (buses : gmap Z AcpiNode) : gmap Z AcpiNode :=
  if isRootBridge dev then <[getRootBridgeBusNumber dev := dev]> buses else buses.

(** The probes of the BARs of a device, one [getBAR] per index in order,
    with their results. *)
Fixpoint probeBars (d : PciDevice) (indices : list Z)
    : M Machine (list (option BarDescriptor)) :=
  match indices with
  | [] => ret []
  | i :: indices' =>
      do bar <- Device.getBAR d i;
      do bars <- probeBars d indices';
      ret (bar :: bars)
  end.

(** [Listed devicesMap m results m']: the inventory of the specification
    for a registry, from machine [m] to machine [m'].  Bridges contribute
    nothing; every other device contributes, in registry order, one summary
    made of what its methods answer, its [bars] being the results of the six
    probes, null where the probe answered null. *)
Inductive Listed : Registry -> Machine -> list Summary -> Machine -> Prop :=
| Listed_nil m : Listed [] m [] m
| Listed_bridge key d devicesMap m results m' :
    isBridge d = true ->
    Listed devicesMap m results m' ->
    Listed ((key, d) :: devicesMap) m results m'
| Listed_device key d devicesMap m classData m1 subsystemData m2 devicePin m3
                probes m4 results m' :
    isBridge d = false ->
    Device.classData d m = (Ok classData, m1) ->
    Device.subsystemData d m1 = (Ok subsystemData, m2) ->
    Device.interruptPin d m2 = (Ok devicePin, m3) ->
    probeBars d [0; 1; 2; 3; 4; 5] m3 = (Ok probes, m4) ->
    Listed devicesMap m4 results m' ->
    Listed ((key, d) :: devicesMap) m
           (mkSummary (bus (dev_address d)) (slot (dev_address d))
                      (func (dev_address d)) (vendorId d) (deviceId d)
                      (className classData) subsystemData (irqVector d)
                      (pinName devicePin) (pciAccessor d)
                      (option_map irqRange.irq (irqVector d))
                      (map barDataOf probes)
            :: results) m'.

(** The address a summary reports. *)
Definition summaryAddress (r : Summary) : PciAddress :=
  mkAddr (s_bus r) (s_slot r) (s_func r).


(** ** A simulated configuration space

    One general device at bus 0, slot 5, function 0 (an Intel 82540EM
    network controller, interrupt pin C) with a 32-bit memory BAR, two I/O
    BARs, one of them at an address with bit 2 set, and a 64-bit memory
    BAR; and a PCI-to-PCI bridge at slot 1 whose secondary bus is 1. *)
Module Sim.

Definition at_ (slot off : Z) : Z := 0x80000000 + slot * 0x800 + off.

Definition space : gmap Z Reg :=
  list_to_map
    [ (at_ 5 0x00, mkReg 0x100e8086 0);
      (at_ 5 0x04, mkReg 0x02100000 0xffff);
      (at_ 5 0x08, mkReg 0x02000003 0);
      (at_ 5 0x0c, mkReg 0x00000000 0xffff);
      (at_ 5 0x10, mkReg 0xfe000000 0xfff00000);
      (at_ 5 0x14, mkReg 0x0000c005 0xfffffffc);
      (at_ 5 0x18, mkReg 0xfd000004 0xfff00000);
      (at_ 5 0x1c, mkReg 0x0000c021 0xffffffe0);
      (at_ 5 0x20, mkReg 0 0);
      (at_ 5 0x24, mkReg 0 0);
      (at_ 5 0x2c, mkReg 0x11001af4 0);
      (at_ 5 0x3c, mkReg 0x0000030b 0xff);
      (at_ 1 0x00, mkReg 0x24488086 0);
      (at_ 1 0x0c, mkReg 0x00010000 0xffff);
      (at_ 1 0x18, mkReg 0x00010100 0xffffff) ].

Definition machine : Machine := mkMachine (mkPorts 0 space []) ∅.

Definition nic : PciDevice :=
  mkDevice (mkAddr 0 5 0) (0, 5, 0) 0x8086 0x100e false None None.

Definition bridge : PciDevice :=
  mkDevice (mkAddr 0 1 0) (0, 1, 0) 0x8086 0x2448 true None None.

Definition registry : Registry := [((0, 1, 0), bridge); ((0, 5, 0), nic)].

(** Two routing entries for slot 5, pin C, and the tables by bus. *)
Definition routes : list Route :=
  [ mkRoute 5 2 11; mkRoute 4 2 9; mkRoute 5 2 10; mkRoute 5 0 5 ].

Definition busRouting : gmap Z (list Route) := {[ 0 := routes ]}.

(** ACPI nodes: the root bridge of bus 0, the bridge at slot 1 below it,
    a device behind that bridge, a device below the network controller
    (which is no bridge), and two nodes that hang from nothing. *)
Definition root : AcpiNode := mkAcpi true true 0 None 0 (Some routes).
Definition p2p : AcpiNode := mkAcpi true false 0x10000 (Some root) 0 None.
Definition behind : AcpiNode := mkAcpi true false 0x30000 (Some p2p) 0 None.
Definition nicNode : AcpiNode := mkAcpi true false 0x50000 (Some root) 0 None.
Definition belowNic : AcpiNode := mkAcpi true false 0x20000 (Some nicNode) 0 None.
Definition scope : AcpiNode := mkAcpi false false 0 None 0 None.
Definition orphan : AcpiNode := mkAcpi true false 0x70000 None 0 None.
Definition belowScope : AcpiNode := mkAcpi true false 0x70000 (Some scope) 0 None.
Definition belowOrphan : AcpiNode := mkAcpi true false 0x10000 (Some orphan) 0 None.

End Sim.


(** ** Notions for the enumeration and for configuration-space traffic *)

(** The ranges of the components of an address and of an offset into the
    256 bytes of a function. *)
Definition validTriple (bus slot func : Z) : Prop :=
  0 <= bus <= 255 /\ 0 <= slot <= 31 /\ 0 <= func <= 7.

(** Every cached dword of every accessor is the dword of the space. *)
Definition coherent (m : Machine) : Prop := forall a field, coherentAt a field m.

(** The machine sits on the configuration space [space] with coherent
    caches. *)
Definition onSpace (space : gmap Z Reg) (m : Machine) : Prop :=
  cfg (ports m) = space /\ coherent m.

(** What a field of the function at [key] holds in a space. *)
Definition fieldAt (space : gmap Z Reg) (key : Key) (field : Field) : Z :=
  dwToFieldValue (dwordAt space (fieldAddr key field)) field.

(** A function answers: its vendor id is not 0xffff. *)
Definition presentAt (space : gmap Z Reg) (address : PciAddress) : bool :=
  negb (0xffff =? fieldAt space (addressHash address) fields.VENDOR_ID).

(** The functions probed in a slot: all eight when function 0 has the
    multifunction bit in its header type, else function 0 alone. *)
Definition functionsOf (space : gmap Z Reg) (bus slot : Z) : list Z :=
  if JS.ushr (JS.and (fieldAt space (bus, slot, 0) fields.HEADER_TYPE) 0x80) 0 =? 0
  then seqZ 0 1 else seqZ 0 8.

(** The functions found in a slot, and in the buses 0 to 254, in ascending
    order of bus, slot and function. *)
Definition foundIn (space : gmap Z Reg) (bus slot : Z) : list PciAddress :=
  if presentAt space (mkAddr bus slot 0)
  then func ← functionsOf space bus slot;
       if presentAt space (mkAddr bus slot func) then [mkAddr bus slot func] else []
  else [].

Definition found (space : gmap Z Reg) : list PciAddress :=
  bus ← seqZ 0 255; slot ← seqZ 0 32; foundIn space bus slot.

(** The device object the constructor builds for a function of a space. *)
Definition deviceAt (space : gmap Z Reg) (address : PciAddress) : PciDevice :=
  let key := addressHash address in
  mkDevice address key (fieldAt space key fields.VENDOR_ID)
           (fieldAt space key fields.DEVICE_ID)
           (bridgeTyped (fieldAt space key fields.HEADER_TYPE)) None None.

(** The registry of the functions found in a space, in the order of the
    enumeration. *)
Definition inventory (space : gmap Z Reg) : Registry :=
  map (fun address => (addressHash address, deviceAt space address)) (found space).

(** The port events that do not write to the configuration space, and the
    machines reached from [m] with such events only. *)
Definition isQuery (e : PortEvent) : bool :=
  match e with
  | OutAddr32 _ | InData32 _ => true
  | _ => false
  end.

Definition quiet (m m' : Machine) : Prop :=
  cfg (ports m') = cfg (ports m) /\
  exists events, trace (ports m') = trace (ports m) ++ events /\
                 forallb isQuery events = true.

(** The size of a 32-bit memory BAR from the response to the probe. *)
Definition mem32Base (barAddr : Z) : Z := Z.land barAddr 0xfffffff0.
Definition mem32Size (response : Z) : Z := (- Z.land response 0xfffffff0) mod 2 ^ 32.
Definition mem32Descriptor (base size : Z) : option BarDescriptor :=
  if size =? 0 then None else Some (mkBar mem32 base size (MemoryBlock base size)).


(** What the passes may change in a device object: the IRQ pass nothing
    but the vector, from null to an unsigned 32-bit number and on a device
    that is no bridge; the attach pass nothing but the ACPI handle, from
    null to a node. *)
Definition withVector (d : PciDevice) (irq : Z) : PciDevice :=
  mkDevice (dev_address d) (pciAccessor d) (vendorId d) (deviceId d)
           (isBridge d) (acpiDevice d) (Some irq).

Definition withHandle (d : PciDevice) (node : AcpiNode) : PciDevice :=
  mkDevice (dev_address d) (pciAccessor d) (vendorId d) (deviceId d)
           (isBridge d) (Some node) (irqVector d).

Definition vectorSet (d d' : PciDevice) : Prop :=
  d' = d \/
  (isBridge d = false /\ irqVector d = None /\
   exists irq, 0 <= irq < 2 ^ 32 /\ d' = withVector d irq).

Definition handleSet (d d' : PciDevice) : Prop :=
  d' = d \/ (acpiDevice d = None /\ exists node, d' = withHandle d node).

(** What the module's passes together may have changed in a device: a
    handle attached, then a vector set. *)
Definition configured (d d' : PciDevice) : Prop :=
  exists mid, handleSet d mid /\ vectorSet mid d'.

(** Two registries with the same keys in the same order, the devices
    related by [P]. *)
Definition sameKeys (P : PciDevice -> PciDevice -> Prop) (reg reg' : Registry)
  : Prop :=
  Forall2 (fun x y => x.1 = y.1 /\ P x.2 y.2) reg reg'.

(** Every dword an accessor has cached in [m] is still cached in [m']. *)
Definition cacheGrows (m m' : Machine) : Prop :=
  forall a offset raw,
    PciAccessor.offsetCache a m !! offset = Some raw ->
    PciAccessor.offsetCache a m' !! offset = Some raw.

(** What holds after a run: [J] of the state when it returned, [E] of the
    error and the state when it threw. *)
Definition outcome {S} (J : S -> Prop) (E : Err -> S -> Prop) (r : Res unit) (s : S)
  : Prop :=
  match r with
  | Ok _ => J s
  | Throw e => E e s
  end.

(** Every dword of the configuration space reads in [m'] as it does in
    [m]. *)
Definition sameReads (m m' : Machine) : Prop :=
  forall x, rawAt x (ports m') = rawAt x (ports m).

(** The device after the IRQ pass has visited it, on a space: a device
    that is no bridge, on a bus with a routing table, and whose pin
    register is not 0 gets the irq of the last matching entry. *)
Definition routedOn (space : gmap Z Reg) (busRouting : gmap Z (list Route))
    (d : PciDevice) : PciDevice :=
  if isBridge d then d else
  match busRouting !! bus (dev_address d) with
  | None => d
  | Some routing =>
      let devicePin := fieldAt space (pciAccessor d) generalFields.INTERRUPT_PIN in
      if devicePin =? 0 then d else
      match lastMatch (dev_address d) devicePin routing with
      | None => d
      | Some route => withVector d (JS.ushr (r_irq route) 0)
      end
  end.
(** * Properties *)

(** ** JavaScript arithmetic on 32-bit values *)

Section Arithmetic.

Lemma toUint32_range x : 0 <= JS.toUint32 x < 2 ^ 32.
Proof. unfold JS.toUint32. apply Z.mod_pos_bound. lia. Qed.

Lemma toUint32_small x : 0 <= x < 2 ^ 32 -> JS.toUint32 x = x.
Proof. intros H. unfold JS.toUint32. apply Z.mod_small. exact H. Qed.

Lemma ushr0 x : JS.ushr x 0 = JS.toUint32 x.
Proof. unfold JS.ushr. change (JS.toUint32 0 mod 32) with 0. apply Z.shiftr_0_r. Qed.

Lemma ushr0_small x : 0 <= x < 2 ^ 32 -> JS.ushr x 0 = x.
Proof. intros H. rewrite ushr0. apply toUint32_small, H. Qed.

Lemma ushr0_range x : 0 <= JS.ushr x 0 < 2 ^ 32.
Proof. rewrite ushr0. apply toUint32_range. Qed.

(** ToInt32 differs from its argument by a multiple of 2^32. *)
Lemma toInt32_congr x : exists k, JS.toInt32 x = x + k * 2 ^ 32.
Proof.
  unfold JS.toInt32.
  pose proof (Z.div_mod x (2 ^ 32) ltac:(lia)) as Hdm.
  destruct (x mod 2 ^ 32 <? 2 ^ 31).
  - exists (- (x / 2 ^ 32)). lia.
  - exists (- (x / 2 ^ 32) - 1). lia.
Qed.

Lemma toInt32_range x : - 2 ^ 31 <= JS.toInt32 x < 2 ^ 31.
Proof.
  unfold JS.toInt32. pose proof (Z.mod_pos_bound x (2 ^ 32) ltac:(lia)).
  destruct (x mod 2 ^ 32 <? 2 ^ 31) eqn:E.
  - apply Z.ltb_lt in E. lia.
  - apply Z.ltb_ge in E. lia.
Qed.

Lemma toInt32_testbit x i : 0 <= i < 32 -> Z.testbit (JS.toInt32 x) i = Z.testbit x i.
Proof.
  intros Hi. destruct (toInt32_congr x) as [k Hk]. rewrite Hk.
  rewrite <- (Z.mod_pow2_bits_low (x + k * 2 ^ 32) 32 i) by lia.
  rewrite Z_mod_plus_full. apply Z.mod_pow2_bits_low. lia.
Qed.

Lemma toInt32_small x : - 2 ^ 31 <= x < 2 ^ 31 -> JS.toInt32 x = x.
Proof.
  intros H. unfold JS.toInt32.
  destruct (Z.ltb_spec (x mod 2 ^ 32) (2 ^ 31)) as [E|E];
    revert E; Z.div_mod_to_equations; lia.
Qed.

Lemma testbit_ones32 i : 0 <= i -> Z.testbit 0xffffffff i = (i <? 32).
Proof. intros H. change 0xffffffff with (Z.ones 32). apply Z.testbit_ones_nonneg; lia. Qed.

(** A test of one flag bit of a BAR. *)
Lemma and_flag_testbit x n :
  0 <= n < 31 -> (JS.and x (2 ^ n) =? 0) = negb (Z.testbit x n).
Proof.
  intros Hn. unfold JS.and.
  rewrite (toInt32_small (2 ^ n)).
  2:{ split; [pose proof (Z.pow_pos_nonneg 2 n); lia|].
      apply Z.pow_lt_mono_r; lia. }
  rewrite <- (toInt32_testbit x n) by lia.
  set (y := JS.toInt32 x).
  assert (Hbit : Z.land y (2 ^ n) = if Z.testbit y n then 2 ^ n else 0).
  { apply Z.bits_inj'. intros i Hi. rewrite Z.land_spec.
    destruct (Z.testbit y n) eqn:Ey.
    - rewrite Z.pow2_bits_eqb by lia.
      destruct (Z.eqb_spec n i) as [<-|Hne];
        [rewrite Ey; reflexivity | apply andb_false_r].
    - rewrite Z.bits_0, Z.pow2_bits_eqb by lia.
      destruct (Z.eqb_spec n i) as [<-|Hne];
        [rewrite Ey; reflexivity | apply andb_false_r]. }
  rewrite Hbit. pose proof (Z.pow_pos_nonneg 2 n ltac:(lia) ltac:(lia)).
  destruct (Z.testbit y n); simpl; [apply Z.eqb_neq; lia | reflexivity].
Qed.

(** Clearing the two low bits. *)
Lemma land_lnot3 x : Z.land x (Z.lnot 3) = x - x mod 4.
Proof.
  rewrite <- Z.ldiff_land. change 3 with (Z.ones 2).
  rewrite Z.ldiff_ones_r by lia.
  rewrite Z.shiftr_div_pow2, Z.shiftl_mul_pow2 by lia.
  change (2 ^ 2) with 4. pose proof (Z.div_mod x 4 ltac:(lia)). lia.
Qed.

Lemma land_ffff x : Z.land x 0xffff = x mod 2 ^ 16.
Proof. change 0xffff with (Z.ones 16). apply Z.land_ones. lia. Qed.

(** The base and the size of an I/O BAR as the program computes them are
    the truncations to 16 bits that the specification writes. *)
Lemma io_base_eq barAddr :
  JS.ushr (JS.and (JS.and barAddr (JS.not 0x3)) 0xffff) 0 =
  Z.land (Z.land barAddr (Z.lnot 0x3)) 0xffff.
Proof.
  unfold JS.and, JS.not.
  rewrite (toInt32_small 3), (toInt32_small 0xffff) by lia.
  rewrite !land_ffff, !land_lnot3.
  destruct (toInt32_congr barAddr) as [k Hk].
  destruct (toInt32_congr (JS.toInt32 barAddr - JS.toInt32 barAddr mod 4)) as [k' Hk'].
  rewrite ushr0_small.
  2:{ pose proof (Z.mod_pos_bound (JS.toInt32 (JS.toInt32 barAddr - JS.toInt32 barAddr mod 4))
                   (2 ^ 16) ltac:(lia)). lia. }
  rewrite Hk', Hk.
  replace ((barAddr + k * 2 ^ 32) mod 4) with (barAddr mod 4).
  2:{ replace (k * 2 ^ 32) with (k * 2 ^ 30 * 4) by lia.
      symmetry. apply Z_mod_plus_full. }
  replace (barAddr + k * 2 ^ 32 - barAddr mod 4 + k' * 2 ^ 32)
    with (barAddr - barAddr mod 4 + (k + k') * 2 ^ 16 * 2 ^ 16) by lia.
  apply Z_mod_plus_full.
Qed.

Lemma io_size_eq barSize :
  JS.ushr (JS.and (JS.not (JS.and barSize (JS.not 0x3)) + 1) 0xffff) 0 =
  Z.land (Z.lnot (Z.land barSize (Z.lnot 0x3)) + 1) 0xffff.
Proof.
  unfold JS.and, JS.not.
  rewrite (toInt32_small 3), (toInt32_small 0xffff) by lia.
  rewrite !land_ffff, !land_lnot3.
  destruct (toInt32_congr barSize) as [k Hk].
  set (s := JS.toInt32 barSize - JS.toInt32 barSize mod 4).
  destruct (toInt32_congr s) as [k' Hk'].
  destruct (toInt32_congr (Z.lnot (JS.toInt32 s) + 1)) as [k'' Hk''].
  rewrite ushr0_small.
  2:{ pose proof (Z.mod_pos_bound (JS.toInt32 (Z.lnot (JS.toInt32 s) + 1))
                   (2 ^ 16) ltac:(lia)). lia. }
  rewrite Hk'', Hk'. unfold Z.lnot, s. rewrite Hk.
  replace ((barSize + k * 2 ^ 32) mod 4) with (barSize mod 4).
  2:{ replace (k * 2 ^ 32) with (k * 2 ^ 30 * 4) by lia.
      symmetry. apply Z_mod_plus_full. }
  replace (Z.pred (- (barSize + k * 2 ^ 32 - barSize mod 4 + k' * 2 ^ 32)) + 1
           + k'' * 2 ^ 32)
    with (Z.pred (- (barSize - barSize mod 4)) + 1
          + (k'' - k - k') * 2 ^ 16 * 2 ^ 16) by lia.
  apply Z_mod_plus_full.
Qed.

End Arithmetic.

(** ** Assign-once fields of a device *)

Section AssignOnce.

Implicit Types (d : PciDevice) (h : AcpiNode).

Lemma setIRQVector_fresh d vector :
  irqVector d = None ->
  exists d', Device.setIRQVector vector d = (Ok tt, d') /\
             irqVector d' = Some (JS.ushr vector 0) /\
             acpiDevice d' = acpiDevice d /\ isBridge d' = isBridge d /\
             dev_address d' = dev_address d /\ pciAccessor d' = pciAccessor d.
Proof.
  intros Hnone. unfold Device.setIRQVector, bind, get, modify.
  rewrite Hnone. eexists. split; [reflexivity|]. simpl. auto.
Qed.

Lemma setIRQVector_ok_inv d vector d' :
  Device.setIRQVector vector d = (Ok tt, d') ->
  irqVector d = None /\ irqVector d' = Some (JS.ushr vector 0).
Proof.
  unfold Device.setIRQVector, bind, get, modify, throw.
  destruct (irqVector d) eqn:E; intros H; inversion H; subst; auto.
Qed.

(** C5. Once [setIRQVector] has succeeded on a device, a second call
    throws 'IRQ vector already set' (AlreadyAssigned), the device is left
    as it was, and [getIRQVector] still returns the first vector. *)
Theorem setIRQVector_twice d first second d1 :
  Device.setIRQVector first d = (Ok tt, d1) ->
  Device.setIRQVector second d1 = (Throw AlreadyAssigned, d1) /\
  Device.getIRQVector d1 = Some (JS.ushr first 0).
Proof.
  intros H. apply setIRQVector_ok_inv in H as [_ H1].
  unfold Device.setIRQVector, Device.getIRQVector, bind, get, throw.
  rewrite H1. auto.
Qed.

(** C10. On a device that already has an ACPI handle, [attachAcpiDevice]
    returns normally, whatever handle it is given, and the device keeps
    the handle it had; no error is raised. *)
Theorem attachAcpiDevice_again d h (other : option AcpiNode) :
  acpiDevice d = Some h ->
  Device.attachAcpiDevice other d = (Ok tt, d) /\
  acpiDevice (Device.attachAcpiDevice other d).2 = Some h.
Proof.
  intros H. unfold Device.attachAcpiDevice, bind, get, ret.
  rewrite H. simpl. auto.
Qed.

Lemma setIRQVector_twice_witness :
  Device.setIRQVector 10 (Device.setIRQVector 11 Sim.nic).2 =
    (Throw AlreadyAssigned, (Device.setIRQVector 11 Sim.nic).2) /\
  Device.getIRQVector (Device.setIRQVector 11 Sim.nic).2 = Some (JS.ushr 11 0).
Proof.
  apply (setIRQVector_twice Sim.nic 11 10). reflexivity.
Defined.

Lemma attachAcpiDevice_again_witness :
  Device.attachAcpiDevice (Some Sim.root)
      (Device.attachAcpiDevice (Some Sim.nicNode) Sim.nic).2 =
    (Ok tt, (Device.attachAcpiDevice (Some Sim.nicNode) Sim.nic).2) /\
  acpiDevice
    (Device.attachAcpiDevice (Some Sim.root)
       (Device.attachAcpiDevice (Some Sim.nicNode) Sim.nic).2).2
  = Some Sim.nicNode.
Proof.
  apply (attachAcpiDevice_again
           (Device.attachAcpiDevice (Some Sim.nicNode) Sim.nic).2
           Sim.nicNode (Some Sim.root)).
  reflexivity.
Defined.

Lemma attachAcpiDevice_first d (handle : option AcpiNode) :
  acpiDevice d = None ->
  exists d', Device.attachAcpiDevice handle d = (Ok tt, d') /\
             acpiDevice d' = handle /\ irqVector d' = irqVector d.
Proof.
  intros H. unfold Device.attachAcpiDevice, bind, get, modify.
  rewrite H. eexists. split; [reflexivity|]. simpl. auto.
Qed.

End AssignOnce.

(** ** The driver pass *)

Section DriverPass.

Lemma startDriver_skip (d : PciDevice) (t : Machine * Started) :
  startDriver (d, t) = (Ok tt, (d, t)).
Proof. reflexivity. Qed.

Lemma each_skip {T} (fn : M (PciDevice * T) unit) :
  (forall d t, fn (d, t) = (Ok tt, (d, t))) ->
  forall devicesMap t,
    pciManager.eachFrom fn devicesMap t = (Ok tt, (devicesMap, t)).
Proof.
  intros Hfn devicesMap.
  induction devicesMap as [|[k d] tl IH]; intros t; simpl.
  - reflexivity.
  - rewrite Hfn, IH. reflexivity.
Qed.

(** C9. The pass that starts the drivers does nothing: [driverData] is the
    constant null, so for every registry, machine and list of started
    drivers the pass returns normally with the registry, the machine
    (port traffic, configuration space and accessor caches) and the list
    of started drivers exactly as they were. *)
Theorem driverPass_noop (devicesMap : Registry) (m : Machine) (started : Started) :
  driverPass (devicesMap, (m, started)) = (Ok tt, (devicesMap, (m, started))).
Proof.
  unfold driverPass, pciManager.each. simpl.
  apply each_skip. apply startDriver_skip.
Qed.

End DriverPass.

(** ** The field accessor *)

#[local] Arguments JS.ushr : simpl never.
#[local] Arguments JS.and : simpl never.
#[local] Arguments JS.or : simpl never.
#[local] Arguments JS.shl : simpl never.
#[local] Arguments JS.not : simpl never.
#[local] Arguments JS.rem : simpl never.
#[local] Arguments portAddr : simpl never.
#[local] Arguments dwToFieldValue : simpl never.
#[local] Arguments Z.land : simpl never.
#[local] Arguments Z.lor : simpl never.
#[local] Arguments Z.lnot : simpl never.

Section Accessor.

Implicit Types (a : Key) (f : Field) (m : Machine) (p : PortPair).

(** The state in which a dword fetched for [f] has been cached. *)
Lemma read_hit a f m v :
  PciAccessor.offsetCache a m !! offset f = Some v ->
  PciAccessor.read a f m = (Ok (dwToFieldValue v f), m).
Proof.
  intros H. unfold PciAccessor.read, bind, gets, ret. rewrite H. reflexivity.
Qed.

Lemma selected_mk addr (c : gmap Z Reg) t :
  selected (mkPorts addr c t) = dwordAt c addr.
Proof. reflexivity. Qed.

Lemma readRaw32_aligned bus slot func off p :
  JS.rem off sizeof.UINT32 = 0 ->
  readRaw32 bus slot func off p =
    (Ok (rawAt (portAddr bus slot func off) p),
     afterRead32 (portAddr bus slot func off) p).
Proof.
  intros H. unfold readRaw32. rewrite H.
  unfold afterRead32, bind, setPort, addressPort.write32, dataPort.read32,
    modify, emit, rawAt.
  cbn [Z.eqb latch cfg trace]. rewrite !selected_mk, <- app_assoc. reflexivity.
Qed.

Lemma read_miss a f m :
  PciAccessor.offsetCache a m !! offset f = None ->
  JS.rem (offset f) sizeof.UINT32 = 0 ->
  PciAccessor.read a f m =
    (Ok (dwToFieldValue (rawAt (fieldAddr a f) (ports m)) f),
     withCache a (<[offset f := rawAt (fieldAddr a f) (ports m)]>
                    (PciAccessor.offsetCache a m))
               (afterRead32 (fieldAddr a f) (ports m)) m).
Proof.
  intros Hc Ha. unfold PciAccessor.read, bind, gets, onPorts, zoom.
  rewrite Hc. rewrite readRaw32_aligned by exact Ha.
  unfold modify, ret, PciAccessor.updCache, withCache, PciAccessor.offsetCache,
    fieldAddr.
  cbn [ports accessorCache]. reflexivity.
Qed.

(** A write of a dword-aligned 32-bit field: the cache entry goes, then
    the dword is selected and written. *)
Lemma write32_spec a f v m :
  mask f = 0xffffffff ->
  JS.rem (offset f) sizeof.UINT32 = 0 ->
  PciAccessor.write a f v m =
    (Ok tt,
     withCache a (delete (offset f) (PciAccessor.offsetCache a m))
               (afterWrite 0xffffffff OutData32 (fieldAddr a f) (JS.ushr v 0)
                           (ports m)) m).
Proof.
  intros Hm Ha. unfold PciAccessor.write, bind, modify, onPorts, zoom.
  rewrite Hm. cbn [Z.eqb Pos.eqb]. unfold PciAccessor.writeRaw32. rewrite Ha.
  unfold afterWrite, bind, setPort, addressPort.write32, dataPort.write32,
    dataPort.write, modify, emit, withCache, PciAccessor.updCache,
    PciAccessor.offsetCache, fieldAddr.
  cbn [Z.eqb ports accessorCache latch cfg trace].
  rewrite <- app_assoc. reflexivity.
Qed.

Lemma offsetCache_withCache a c p m :
  PciAccessor.offsetCache a (withCache a c p m) = c.
Proof.
  unfold PciAccessor.offsetCache, withCache. cbn [accessorCache].
  rewrite lookup_insert_eq. reflexivity.
Qed.

Lemma withCache_withCache a c c' p p' m :
  withCache a c' p' (withCache a c p m) = withCache a c' p' m.
Proof.
  unfold withCache. cbn [accessorCache]. rewrite insert_insert_eq. reflexivity.
Qed.

(** A read of a dword-aligned field never throws. *)
Lemma read_total a f m :
  JS.rem (offset f) sizeof.UINT32 = 0 ->
  exists v m', PciAccessor.read a f m = (Ok v, m').
Proof.
  intros Ha. destruct (PciAccessor.offsetCache a m !! offset f) as [v|] eqn:E.
  - rewrite (read_hit _ _ _ _ E). eauto.
  - rewrite (read_miss _ _ _ E Ha). eauto.
Qed.

End Accessor.

(** ** The IRQ router *)

Section Router.

Implicit Types (d : PciDevice) (m : Machine) (routing : list Route).

Lemma matchRoute_spec address devicePin deviceIRQ route :
  matchRoute address devicePin deviceIRQ route =
  if routeMatches address devicePin route then Some (r_irq route) else deviceIRQ.
Proof.
  unfold matchRoute, routeMatches.
  rewrite (Z.eqb_sym (slot address)), (Z.eqb_sym devicePin).
  destruct (r_deviceId route =? slot address); simpl; [|reflexivity].
  destruct (r_pin route + 1 =? devicePin); reflexivity.
Qed.

(** The loop over the table keeps the irq of the last matching entry. *)
Lemma fold_matchRoute address devicePin routing deviceIRQ :
  fold_left (matchRoute address devicePin) routing deviceIRQ =
  match lastMatch address devicePin routing with
  | Some route => Some (r_irq route)
  | None => deviceIRQ
  end.
Proof.
  unfold lastMatch. induction routing as [|route tl IH] using rev_ind.
  - reflexivity.
  - rewrite fold_left_app, rev_app_distr. simpl.
    rewrite matchRoute_spec, IH.
    destruct (routeMatches address devicePin route); reflexivity.
Qed.

Lemma interruptPin_total d m :
  isBridge d = false ->
  exists devicePin m', Device.interruptPin d m = (Ok devicePin, m').
Proof.
  intros Hb. unfold Device.interruptPin. rewrite Hb. simpl.
  apply read_total. reflexivity.
Qed.

(** C1 (as the code has it). For a device that is no bridge, has no vector
    yet and whose bus has a routing table, the interrupt-pin register is
    read, and when it is nonzero the router assigns the irq (as an unsigned
    32-bit number) of the LAST entry of the table with
    [entry.deviceId == device.slot] and [entry.pin + 1 == device.pin]; when
    no entry matches the vector stays null.  Nothing else of the device
    changes. *)
Theorem setIrq_last_match (busRouting : gmap Z (list Route)) d m routing :
  isBridge d = false ->
  busRouting !! bus (dev_address d) = Some routing ->
  irqVector d = None ->
  exists devicePin m',
    Device.interruptPin d m = (Ok devicePin, m') /\
    (devicePin <> 0 ->
     exists d',
       setIrq busRouting (d, m) = (Ok tt, (d', m')) /\
       irqVector d' =
         option_map (fun route => JS.ushr (r_irq route) 0)
                    (lastMatch (dev_address d) devicePin routing) /\
       acpiDevice d' = acpiDevice d /\ dev_address d' = dev_address d).
Proof.
  intros Hb Hr Hv.
  destruct (interruptPin_total d m Hb) as (devicePin & m' & Hpin).
  exists devicePin, m'. split; [exact Hpin|]. intros Hnz.
  unfold setIrq. unfold bind at 1, this, gets. cbn [fst].
  rewrite Hb, Hr. unfold bind, outer, zoom. cbn [fst snd]. rewrite Hpin.
  destruct (Z.eqb_spec 0 devicePin) as [E|_]; [congruence|].
  rewrite fold_matchRoute.
  destruct (lastMatch (dev_address d) devicePin routing) as [route|];
    cbn [option_map].
  - destruct (setIRQVector_fresh d (r_irq route) Hv)
      as (d' & Hset & Hirq & Hacpi & _ & Haddr & _).
    exists d'. unfold self, zoom. cbn [fst snd]. rewrite Hset. auto.
  - exists d. auto.
Qed.

Lemma setIrq_last_match_witness :
  exists devicePin m',
    Device.interruptPin Sim.nic Sim.machine = (Ok devicePin, m') /\
    (devicePin <> 0 ->
     exists d',
       setIrq Sim.busRouting (Sim.nic, Sim.machine) = (Ok tt, (d', m')) /\
       irqVector d' =
         option_map (fun route => JS.ushr (r_irq route) 0)
                    (lastMatch (dev_address Sim.nic) devicePin Sim.routes) /\
       acpiDevice d' = acpiDevice Sim.nic /\
       dev_address d' = dev_address Sim.nic).
Proof.
  apply (setIrq_last_match Sim.busRouting Sim.nic Sim.machine Sim.routes);
    reflexivity.
Defined.

(** C1 as the specification states it — the FIRST matching entry
    determines the vector — fails: with the entries
    [{5,2,11}; {4,2,9}; {5,2,10}; {5,0,5}] for bus 0 and the device at
    slot 5 with pin register 3 the router assigns 10, not 11. *)
Lemma setIrq_first_match_refuted :
  ~ (forall (busRouting : gmap Z (list Route)) d m routing devicePin m',
       isBridge d = false ->
       busRouting !! bus (dev_address d) = Some routing ->
       irqVector d = None ->
       Device.interruptPin d m = (Ok devicePin, m') ->
       devicePin <> 0 ->
       exists d',
         setIrq busRouting (d, m) = (Ok tt, (d', m')) /\
         irqVector d' =
           option_map (fun route => JS.ushr (r_irq route) 0)
                      (firstMatch (dev_address d) devicePin routing)).
Proof.
  intros H.
  destruct (H Sim.busRouting Sim.nic Sim.machine Sim.routes 3
              (Device.interruptPin Sim.nic Sim.machine).2)
    as (d' & Hrun & Hirq); try reflexivity; try lia.
  vm_compute in Hrun. inversion Hrun; subst d'.
  vm_compute in Hirq. discriminate.
Qed.

End Router.

(** ** Probing and decoding a BAR *)

Section Bar.

Implicit Types (d : PciDevice) (m : Machine) (a : Key) (p : PortPair).

Lemma BAR_field (n : nat) barField :
  generalFields.BAR !! n = Some barField ->
  mask barField = 0xffffffff /\ shift barField = 0 /\
  JS.rem (offset barField) sizeof.UINT32 = 0.
Proof.
  intros H. do 6 (destruct n as [|n]; [inversion H; subst; auto|]).
  inversion H.
Qed.

Lemma rawAt_range addr p : 0 <= rawAt addr p < 2 ^ 32.
Proof.
  unfold rawAt, dwordAt. destruct (cfg p !! addr) as [r|]; [|lia].
  change 0xffffffff with (Z.ones 32). rewrite Z.land_ones by lia.
  apply Z.mod_pos_bound. lia.
Qed.

Lemma read_value a f m v m' :
  PciAccessor.read a f m = (Ok v, m') -> exists raw, v = dwToFieldValue raw f.
Proof.
  unfold PciAccessor.read, bind, gets, ret.
  destruct (PciAccessor.offsetCache a m !! offset f) as [raw|].
  - intros H. inversion H. eauto.
  - destruct (onPorts _ m) as [[raw|e] m0]; simpl; intros H; inversion H. eauto.
Qed.

Lemma read_range a f m v m' :
  PciAccessor.read a f m = (Ok v, m') -> 0 <= v < 2 ^ 32.
Proof.
  intros H. apply read_value in H as [raw ->]. apply ushr0_range.
Qed.

(** A 32-bit field at shift 0 decodes to the whole dword. *)
Lemma dwToFieldValue_dword raw f :
  mask f = 0xffffffff -> shift f = 0 -> 0 <= raw < 2 ^ 32 ->
  dwToFieldValue raw f = raw.
Proof.
  intros Hm Hs Hr. unfold dwToFieldValue. rewrite Hm, Hs.
  change (8 * sizeof.BYTE * 0) with 0.
  rewrite (ushr0_small raw) by exact Hr.
  unfold JS.and.
  rewrite ushr0. unfold JS.toUint32.
  assert (Hall : Z.land (JS.toInt32 raw) (JS.toInt32 0xffffffff) = JS.toInt32 raw).
  { change (JS.toInt32 0xffffffff) with (-1). apply Z.land_m1_r. }
  rewrite Hall. destruct (toInt32_congr raw) as [k ->].
  rewrite Z_mod_plus_full. apply Z.mod_small, Hr.
Qed.

Lemma ports_withCache a c p m : ports (withCache a c p m) = p.
Proof. reflexivity. Qed.

(** The probe never throws; its answer and the machine it leaves. *)
Lemma probeResponse_spec a barField barAddr m1 :
  mask barField = 0xffffffff ->
  JS.rem (offset barField) sizeof.UINT32 = 0 ->
  0 <= barAddr < 2 ^ 32 ->
  probeResponse a barField barAddr m1 =
    (Ok (dwToFieldValue (responseOf a barField m1) barField),
     afterProbe a barField barAddr m1).
Proof.
  intros Hmask Halign Hrange. unfold probeResponse, bind.
  rewrite (write32_spec _ _ 0xffffffff m1 Hmask Halign).
  rewrite read_miss;
    [|rewrite offsetCache_withCache; apply lookup_delete_eq | exact Halign].
  rewrite (write32_spec _ _ (JS.ushr barAddr 0) _ Hmask Halign).
  rewrite !offsetCache_withCache, !ports_withCache, !withCache_withCache.
  rewrite !(ushr0_small barAddr) by exact Hrange.
  change (JS.ushr 0xffffffff 0) with 0xffffffff.
  reflexivity.
Qed.

(** What [getBAR] does once the BAR was read and found nonzero: the probe,
    then the decoding of the two values. *)
Lemma getBAR_decode d index m barField barAddr m1 :
  isBridge d = false ->
  0 <= index <= 5 ->
  generalFields.BAR !! Z.to_nat index = Some barField ->
  PciAccessor.read (pciAccessor d) barField m = (Ok barAddr, m1) ->
  barAddr <> 0 ->
  exists barSize m2,
    probeResponse (pciAccessor d) barField barAddr m1 = (Ok barSize, m2) /\
    Device.getBAR d index m = (Ok (Device.decodeBAR barAddr barSize), m2).
Proof.
  intros Hb Hi Hf Hread Hnz.
  destruct (BAR_field _ _ Hf) as (Hmask & Hshift & Halign).
  pose proof (read_range _ _ _ _ _ Hread) as Hrange.
  pose proof (probeResponse_spec (pciAccessor d) barField barAddr m1
                Hmask Halign Hrange) as Hprobe.
  eexists _, _. split; [exact Hprobe|].
  unfold Device.getBAR. rewrite Hb.
  rewrite (ushr0_small index) by lia.
  destruct (Z.ltb_spec 5 index) as [?|_]; [lia|]. rewrite Hf.
  unfold bind at 1. rewrite Hread.
  destruct (Z.eqb_spec barAddr 0) as [?|_]; [contradiction|].
  unfold probeResponse in Hprobe. unfold bind in Hprobe |- *.
  destruct (PciAccessor.write (pciAccessor d) barField 0xffffffff m1)
    as [[[]|e] m2]; [|discriminate].
  destruct (PciAccessor.read (pciAccessor d) barField m2)
    as [[barSize|e] m3]; [|discriminate].
  destruct (PciAccessor.write (pciAccessor d) barField (JS.ushr barAddr 0) m3)
    as [[[]|e] m4]; [|discriminate].
  unfold ret in Hprobe |- *. injection Hprobe as <- <-. reflexivity.
Qed.

Lemma getBAR_absent d index m barField m1 :
  isBridge d = false ->
  0 <= index <= 5 ->
  generalFields.BAR !! Z.to_nat index = Some barField ->
  PciAccessor.read (pciAccessor d) barField m = (Ok 0, m1) ->
  Device.getBAR d index m = (Ok None, m1).
Proof.
  intros Hb Hi Hf Hread.
  unfold Device.getBAR. rewrite Hb, (ushr0_small index) by lia.
  destruct (Z.ltb_spec 5 index) as [?|_]; [lia|]. rewrite Hf.
  unfold bind. rewrite Hread. reflexivity.
Qed.

Lemma BAR_lookup index :
  0 <= index <= 5 -> exists barField, generalFields.BAR !! Z.to_nat index = Some barField.
Proof.
  intros H. apply lookup_lt_is_Some. simpl. lia.
Qed.

(** On a general device [getBAR] of an index from 0 to 5 never throws. *)
Lemma getBAR_total d index m :
  isBridge d = false -> 0 <= index <= 5 ->
  exists result m', Device.getBAR d index m = (Ok result, m').
Proof.
  intros Hb Hi. destruct (BAR_lookup index Hi) as [barField Hf].
  destruct (BAR_field _ _ Hf) as (_ & _ & Halign).
  destruct (read_total (pciAccessor d) barField m Halign) as (barAddr & m1 & Hread).
  destruct (Z.eq_dec barAddr 0) as [->|Hnz].
  - rewrite (getBAR_absent _ _ _ _ _ Hb Hi Hf Hread). eauto.
  - destruct (getBAR_decode _ _ _ _ _ _ Hb Hi Hf Hread Hnz) as (? & ? & _ & ->).
    eauto.
Qed.

(** No result of the decoding is tagged [mem64]. *)
Lemma decodeBAR_not_mem64 barAddr barSize b :
  Device.decodeBAR barAddr barSize = Some b -> bar_type b <> mem64.
Proof.
  unfold Device.decodeBAR, Device.barResult, io.subrange, memrange.block.
  repeat match goal with
         | |- context [if ?c then _ else _] => destruct c
         end; intros H; inversion H; subst; simpl; discriminate.
Qed.




Lemma decodeBAR_io barAddr barSize :
  barSize <> 0 ->
  Z.testbit barAddr 0 = true ->
  Z.testbit barAddr 2 = false ->
  Device.decodeBAR barAddr barSize = ioDescriptor (ioBase barAddr) (ioSize barSize).
Proof.
  intros Hnz H0 H2. unfold Device.decodeBAR, ioDescriptor.
  destruct (Z.eqb_spec barSize 0) as [?|_]; [contradiction|].
  change barFlag.BAR_64 with (2 ^ 2). change barFlag.BAR_IO with (2 ^ 0).
  rewrite !and_flag_testbit, H0, H2 by lia. simpl negb. cbv iota.
  rewrite io_base_eq, io_size_eq. fold (ioBase barAddr) (ioSize barSize).
  rewrite (Z.eqb_sym 0 (ioSize barSize)), (Z.eqb_sym 0 (ioBase barAddr)).
  destruct (ioSize barSize =? 0); [reflexivity|].
  destruct (ioBase barAddr =? 0); reflexivity.
Qed.

(** The I/O branch.  On a general device, for an index from 0 to 5
    whose BAR reads nonzero with bit 0 set and bit 2 clear, and whose probe
    response is nonzero, [getBAR] decodes an I/O BAR: base
    [(addr & ~0x3) & 0xFFFF], size [(~(response & ~0x3) + 1) & 0xFFFF], the
    result being the [io] descriptor over [base .. base + size - 1], or
    null when the size or the base is 0. *)
Lemma getBAR_io d index m barField barAddr m1 :
  isBridge d = false ->
  0 <= index <= 5 ->
  generalFields.BAR !! Z.to_nat index = Some barField ->
  PciAccessor.read (pciAccessor d) barField m = (Ok barAddr, m1) ->
  barAddr <> 0 ->
  Z.testbit barAddr 0 = true ->
  Z.testbit barAddr 2 = false ->
  exists barSize m2,
    probeResponse (pciAccessor d) barField barAddr m1 = (Ok barSize, m2) /\
    (barSize <> 0 ->
     Device.getBAR d index m =
       (Ok (ioDescriptor (ioBase barAddr) (ioSize barSize)), m2)).
Proof.
  intros Hb Hi Hf Hread Hnz H0 H2.
  destruct (getBAR_decode _ _ _ _ _ _ Hb Hi Hf Hread Hnz)
    as (barSize & m2 & Hprobe & Hget).
  exists barSize, m2. split; [exact Hprobe|]. intros Hsz.
  rewrite Hget, (decodeBAR_io _ _ Hsz H0 H2). reflexivity.
Qed.

Lemma getBAR_io_witness :
  exists barSize m2,
    probeResponse (pciAccessor Sim.nic) (mkField 0x1c 0 0xffffffff) 0xc021
      (PciAccessor.read (pciAccessor Sim.nic) (mkField 0x1c 0 0xffffffff)
                        Sim.machine).2
    = (Ok barSize, m2) /\
    (barSize <> 0 ->
     Device.getBAR Sim.nic 3 Sim.machine =
       (Ok (ioDescriptor (ioBase 0xc021) (ioSize barSize)), m2)).
Proof.
  apply (getBAR_io Sim.nic 3 Sim.machine (mkField 0x1c 0 0xffffffff) 0xc021);
    try reflexivity; lia.
Defined.

(** The same does not hold of every nonzero BAR with bit 0 set, bit 2 set
    or not: BAR 1 of the simulated controller reads 0xc005 (I/O at 0xc004)
    and answers the probe with 0xfffffffd, which would be base 0xc004 and
    size 4, and [getBAR(1)] is null because bit 2 is tested first. *)
Lemma getBAR_io_bit2_refuted :
  ~ (forall d index m barField barAddr m1,
       isBridge d = false ->
       0 <= index <= 5 ->
       generalFields.BAR !! Z.to_nat index = Some barField ->
       PciAccessor.read (pciAccessor d) barField m = (Ok barAddr, m1) ->
       barAddr <> 0 ->
       Z.testbit barAddr 0 = true ->
       exists barSize m2,
         probeResponse (pciAccessor d) barField barAddr m1 = (Ok barSize, m2) /\
         (barSize <> 0 ->
          Device.getBAR d index m =
            (Ok (ioDescriptor (ioBase barAddr) (ioSize barSize)), m2))).
Proof.
  intros H.
  destruct (H Sim.nic 1 Sim.machine (mkField 0x14 0 0xffffffff) 0xc005
              (PciAccessor.read (pciAccessor Sim.nic) (mkField 0x14 0 0xffffffff)
                                Sim.machine).2)
    as (barSize & m2 & Hprobe & Hres); try reflexivity; try lia.
  vm_compute in Hprobe. inversion Hprobe; subst barSize m2.
  specialize (Hres ltac:(lia)).
  vm_compute in Hres. discriminate.
Qed.

(** C3. The code misses the I/O BARs whose address has bit 2 set.  BAR 1
    of the simulated controller reads 0xc005, an I/O BAR at port 0xc004,
    and answers the probe with 0xfffffffd.  The I/O decoding of the
    specification gives base 0xc004 and size 4, the ports 0xc004 to 0xc007;
    [getBAR(1)] probes the BAR and returns null, because the test for a
    64-bit memory BAR (bit 2) comes before the test for an I/O BAR (bit 0).
    The I/O branch itself clears only bits 0 and 1 of the address and
    decodes sizes down to 4: the BAR one dword lower, raw 0xc001 with the
    same response, is decoded as the ports 0xc000 to 0xc003. *)
Theorem getBAR_io_bit2_misses :
  (PciAccessor.read (pciAccessor Sim.nic) (mkField 0x14 0 0xffffffff)
     Sim.machine).1 = Ok 0xc005 /\
  (probeResponse (pciAccessor Sim.nic) (mkField 0x14 0 0xffffffff) 0xc005
     (PciAccessor.read (pciAccessor Sim.nic) (mkField 0x14 0 0xffffffff)
        Sim.machine).2).1 = Ok 0xfffffffd /\
  Z.testbit 0xc005 0 = true /\
  ioDescriptor (ioBase 0xc005) (ioSize 0xfffffffd) =
    Some (mkBar io_bar 0xc004 4 (IoSubrange 0xc004 0xc007)) /\
  (Device.getBAR Sim.nic 1 Sim.machine).1 = Ok None /\
  Device.decodeBAR 0xc005 0xfffffffd = None /\
  Device.decodeBAR 0xc001 0xfffffffd =
    Some (mkBar io_bar 0xc000 4 (IoSubrange 0xc000 0xc003)).
Proof.
  assert (Hread : (PciAccessor.read (pciAccessor Sim.nic)
                     (mkField 0x14 0 0xffffffff) Sim.machine).1 = Ok 0xc005)
    by (vm_compute; reflexivity).
  split; [exact Hread|].
  split; [vm_compute; reflexivity|].
  split; [reflexivity|].
  split; [vm_compute; reflexivity|].
  split; [vm_compute; reflexivity|].
  split; vm_compute; reflexivity.
Qed.

(** Writing all ones to a dword and then the value it had gives every
    dword of the space the value it had. *)
Lemma store_restore (r : Reg) :
  Z.land (value (store 0xffffffff (Z.land (value r) 0xffffffff)
                       (store 0xffffffff 0xffffffff r))) 0xffffffff
  = Z.land (value r) 0xffffffff.
Proof.
  unfold store. cbn [value wmask]. apply Z.bits_inj'. intros i Hi.
  repeat rewrite ?Z.land_spec, ?Z.lor_spec, ?Z.lnot_spec, ?testbit_ones32 by exact Hi.
  destruct (Z.testbit (value r) i), (Z.testbit (wmask r) i), (i <? 32); reflexivity.
Qed.

(** An accessor that has cached nothing is coherent, and a read leaves the
    dword it used coherent. *)
Lemma coherentAt_fresh a f m :
  PciAccessor.offsetCache a m !! offset f = None -> coherentAt a f m.
Proof. intros H v Hv. congruence. Qed.

Lemma read_coherent a f m v m' :
  JS.rem (offset f) sizeof.UINT32 = 0 ->
  coherentAt a f m ->
  PciAccessor.read a f m = (Ok v, m') ->
  coherentAt a f m'.
Proof.
  intros Halign Hcoh Hread.
  destruct (PciAccessor.offsetCache a m !! offset f) as [raw|] eqn:E.
  - rewrite (read_hit _ _ _ _ E) in Hread. injection Hread as _ <-. exact Hcoh.
  - rewrite (read_miss _ _ _ E Halign) in Hread. injection Hread as _ <-.
    intros w. rewrite offsetCache_withCache, lookup_insert_eq, ports_withCache.
    intros Hw. injection Hw as <-. reflexivity.
Qed.

(** C4. Probing is non-destructive.  On a general device, for an index
    from 0 to 5 whose BAR holds a nonzero dword (the accessor's cache entry
    for it, if there is one, being that dword), [getBAR] returns normally
    and afterwards every dword of the configuration space, the BAR
    included, reads as before the call; the port traffic of the call
    is, after the fetch of the BAR when it was not cached, exactly: select
    and write all ones, select and read the response, select and write the
    original value; and the accessor holds no cached dword for the BAR
    any more. *)
Theorem getBAR_nondestructive d index m barField :
  isBridge d = false ->
  0 <= index <= 5 ->
  generalFields.BAR !! Z.to_nat index = Some barField ->
  coherentAt (pciAccessor d) barField m ->
  rawAt (fieldAddr (pciAccessor d) barField) (ports m) <> 0 ->
  exists result response m' fetch,
    Device.getBAR d index m = (Ok result, m') /\
    (forall x, rawAt x (ports m') = rawAt x (ports m)) /\
    (fetch = [] \/
     fetch = [OutAddr32 (fieldAddr (pciAccessor d) barField);
              InData32 (rawAt (fieldAddr (pciAccessor d) barField) (ports m))]) /\
    trace (ports m') =
      trace (ports m) ++ fetch ++
        [OutAddr32 (fieldAddr (pciAccessor d) barField); OutData32 0xffffffff;
         OutAddr32 (fieldAddr (pciAccessor d) barField); InData32 response;
         OutAddr32 (fieldAddr (pciAccessor d) barField);
         OutData32 (rawAt (fieldAddr (pciAccessor d) barField) (ports m))] /\
    PciAccessor.offsetCache (pciAccessor d) m' !! offset barField = None.
Proof.
  intros Hb Hi Hf Hcoh Hnz. unfold coherentAt in Hcoh.
  set (a := pciAccessor d) in *. set (addr := fieldAddr a barField) in *.
  set (raw := rawAt addr (ports m)) in *.
  destruct (BAR_field _ _ Hf) as (Hmask & Hshift & Halign).
  assert (Hraw : dwToFieldValue raw barField = raw)
    by (apply dwToFieldValue_dword; auto; apply rawAt_range).
  assert (Hread : exists m1 fetch,
             PciAccessor.read a barField m = (Ok raw, m1) /\
             cfg (ports m1) = cfg (ports m) /\
             trace (ports m1) = trace (ports m) ++ fetch /\
             (fetch = [] \/ fetch = [OutAddr32 addr; InData32 raw])).
  { destruct (PciAccessor.offsetCache a m !! offset barField) as [v|] eqn:E.
    - rewrite (read_hit _ _ _ _ E), (Hcoh v eq_refl), Hraw.
      exists m, []. rewrite app_nil_r. auto.
    - rewrite (read_miss _ _ _ E Halign). fold addr raw. rewrite Hraw.
      eexists _, _. split; [reflexivity|].
      rewrite ports_withCache. unfold afterRead32. cbn [cfg trace].
      fold raw. auto. }
  destruct Hread as (m1 & fetch & Hread & Hcfg & Htrace & Hfetch).
  destruct (getBAR_decode _ _ _ _ _ _ Hb Hi Hf Hread Hnz)
    as (barSize & m2 & Hprobe & Hget).
  fold a in Hprobe, Hget.
  rewrite (probeResponse_spec a barField raw m1 Hmask Halign) in Hprobe
    by apply rawAt_range.
  injection Hprobe as Hsize Hm2.
  exists (Device.decodeBAR raw barSize), (responseOf a barField m1), m2, fetch.
  split; [exact Hget|]. rewrite <- Hm2. unfold afterProbe.
  rewrite ports_withCache, offsetCache_withCache.
  split; [|split; [exact Hfetch|split]].
  - intros x. unfold afterWrite, afterRead32, rawAt. cbn [cfg].
    unfold dwordAt. rewrite Hcfg, alter_alter_eq, lookup_alter.
    fold addr.
    destruct (decide (addr = x)) as [<-|Hne]; [|reflexivity].
    destruct (cfg (ports m) !! addr) as [r|] eqn:Er;
      cbn [fmap option_fmap option_map]; [|reflexivity].
    assert (Hr : raw = Z.land (value r) 0xffffffff).
    { unfold raw, rawAt, dwordAt. rewrite Er. reflexivity. }
    unfold compose. rewrite Hr. apply store_restore.
  - unfold responseOf, afterWrite, afterRead32, rawAt. cbn [trace cfg latch].
    rewrite Htrace. fold addr. rewrite <- !app_assoc. reflexivity.
  - apply lookup_delete_eq.
Qed.

Lemma getBAR_nondestructive_witness :
  exists result response m' fetch,
    Device.getBAR Sim.nic 0 Sim.machine = (Ok result, m') /\
    (forall x, rawAt x (ports m') = rawAt x (ports Sim.machine)) /\
    (fetch = [] \/
     fetch = [OutAddr32 (fieldAddr (pciAccessor Sim.nic) (mkField 0x10 0 0xffffffff));
              InData32 (rawAt (fieldAddr (pciAccessor Sim.nic)
                                         (mkField 0x10 0 0xffffffff))
                              (ports Sim.machine))]) /\
    trace (ports m') =
      trace (ports Sim.machine) ++ fetch ++
        [OutAddr32 (fieldAddr (pciAccessor Sim.nic) (mkField 0x10 0 0xffffffff));
         OutData32 0xffffffff;
         OutAddr32 (fieldAddr (pciAccessor Sim.nic) (mkField 0x10 0 0xffffffff));
         InData32 response;
         OutAddr32 (fieldAddr (pciAccessor Sim.nic) (mkField 0x10 0 0xffffffff));
         OutData32 (rawAt (fieldAddr (pciAccessor Sim.nic)
                                     (mkField 0x10 0 0xffffffff))
                          (ports Sim.machine))] /\
    PciAccessor.offsetCache (pciAccessor Sim.nic) m'
      !! offset (mkField 0x10 0 0xffffffff) = None.
Proof.
  apply (getBAR_nondestructive Sim.nic 0 Sim.machine (mkField 0x10 0 0xffffffff)).
  - reflexivity.
  - lia.
  - reflexivity.
  - apply coherentAt_fresh. reflexivity.
  - vm_compute. discriminate.
Defined.

End Bar.

(** ** The cache of an accessor and writes *)

Section Cache.

Implicit Types (a : Key) (f g : Field) (m : Machine).

Lemma onPorts_accessorCache {A} (c : M PortPair A) m :
  accessorCache (onPorts c m).2 = accessorCache m.
Proof.
  unfold onPorts, zoom. destruct (c (ports m)) as [r p]. reflexivity.
Qed.

(** [write] drops the cache entry first: what follows, the write through
    the ports or the error for a mask of no known width, starts from the
    machine without the entry. *)
Lemma write_evicts_first a f v m :
  PciAccessor.write a f v m =
  (if mask f =? 0xffffffff
   then onPorts (PciAccessor.writeRaw32 a (offset f) v)
   else if mask f =? 0xffff
   then onPorts (PciAccessor.writeRaw16 a (offset f + shift f) v)
   else if mask f =? 0xff
   then onPorts (PciAccessor.writeRaw8 a (offset f + shift f) v)
   else throw InvalidFieldMask)
    (PciAccessor.updCache a (delete (offset f)) m).
Proof. reflexivity. Qed.

(** Whatever the outcome of a write, the accessor holds no cached dword
    for the offset of the field afterwards. *)
Lemma write_evicts a f v m :
  PciAccessor.offsetCache a (PciAccessor.write a f v m).2 !! offset f = None.
Proof.
  rewrite write_evicts_first.
  set (m0 := PciAccessor.updCache a (delete (offset f)) m).
  assert (H0 : PciAccessor.offsetCache a m0 !! offset f = None).
  { unfold m0, PciAccessor.updCache, PciAccessor.offsetCache. cbn [accessorCache].
    rewrite lookup_insert_eq. apply lookup_delete_eq. }
  unfold PciAccessor.offsetCache in *.
  destruct (mask f =? 0xffffffff); [rewrite onPorts_accessorCache; exact H0|].
  destruct (mask f =? 0xffff); [rewrite onPorts_accessorCache; exact H0|].
  destruct (mask f =? 0xff); [rewrite onPorts_accessorCache; exact H0|].
  exact H0.
Qed.

(** After a write, a read of any field of the same offset fetches the
    dword from the configuration space. *)
Lemma read_after_write a f g v m :
  offset g = offset f ->
  JS.rem (offset g) sizeof.UINT32 = 0 ->
  let m1 := (PciAccessor.write a f v m).2 in
  PciAccessor.read a g m1 =
    (Ok (dwToFieldValue (rawAt (fieldAddr a g) (ports m1)) g),
     withCache a (<[offset g := rawAt (fieldAddr a g) (ports m1)]>
                    (PciAccessor.offsetCache a m1))
               (afterRead32 (fieldAddr a g) (ports m1)) m1).
Proof.
  intros Hoff Halign m1. apply read_miss; [|exact Halign].
  rewrite Hoff. apply write_evicts.
Qed.

(** The port address keeps only the dword part of an offset. *)
Lemma portAddr_dword bus slot func off off' :
  JS.and off 0xfc = JS.and off' 0xfc ->
  portAddr bus slot func off = portAddr bus slot func off'.
Proof. intros H. unfold portAddr. rewrite H. reflexivity. Qed.

(** An 8-bit write sends the same to the ports whatever the byte of the
    dword the field is in: the shift of the field reaches neither port. *)
Lemma write8_shift_blind a f g v m :
  mask f = 0xff -> mask g = 0xff ->
  offset f = offset g ->
  JS.and (offset f + shift f) 0xfc = JS.and (offset g + shift g) 0xfc ->
  PciAccessor.write a f v m = PciAccessor.write a g v m.
Proof.
  intros Hf Hg Hoff Hdw. rewrite !write_evicts_first, Hf, Hg, Hoff.
  rewrite Hoff in Hdw.
  cbn [Z.eqb Pos.eqb]. unfold PciAccessor.writeRaw8, setPort.
  rewrite (portAddr_dword _ _ _ _ _ Hdw). reflexivity.
Qed.

(** [(x & mask) >>> 0] for a 32-bit [x] and a mask of [n] low bits. *)
Lemma and_ones32 x n :
  0 < n <= 32 -> 0 <= x < 2 ^ 32 ->
  JS.ushr (JS.and x (Z.ones n)) 0 = Z.land x (Z.ones n).
Proof.
  intros Hn Hr. rewrite ushr0. unfold JS.and, JS.toUint32.
  rewrite <- (Z.land_ones _ 32) by lia.
  apply Z.bits_inj'. intros i Hi.
  rewrite !Z.land_spec, !Z.testbit_ones_nonneg by lia.
  destruct (Z.ltb_spec i 32) as [Hlt|Hge].
  - rewrite !toInt32_testbit by lia. rewrite Z.testbit_ones_nonneg by lia.
    rewrite andb_true_r. reflexivity.
  - rewrite andb_false_r. destruct (Z.ltb_spec i n); [lia|].
    symmetry. apply andb_false_r.
Qed.

(** The decoding of a field: byte [shift] of the dword onwards, cut to
    the width of the mask. *)
Lemma dwToFieldValue_spec raw f n :
  0 <= shift f <= 3 -> mask f = Z.ones n -> 0 < n <= 32 -> 0 <= raw < 2 ^ 32 ->
  dwToFieldValue raw f = Z.land (Z.shiftr raw (8 * shift f)) (Z.ones n).
Proof.
  intros Hs Hm Hn Hr. unfold dwToFieldValue. rewrite Hm.
  assert (Hsh : JS.ushr raw (8 * sizeof.BYTE * shift f) = Z.shiftr raw (8 * shift f)).
  { unfold JS.ushr, sizeof.BYTE. rewrite (toUint32_small raw) by exact Hr.
    replace (8 * 1 * shift f) with (8 * shift f) by lia.
    rewrite (toUint32_small (8 * shift f)) by lia.
    rewrite Z.mod_small by lia. reflexivity. }
  rewrite Hsh. apply and_ones32; [exact Hn|].
  rewrite Z.shiftr_div_pow2 by lia.
  pose proof (Z.pow_pos_nonneg 2 (8 * shift f) ltac:(lia) ltac:(lia)).
  split; [apply Z.div_pos; lia|].
  apply Z.div_lt_upper_bound; [lia|]. nia.
Qed.

(** A field at shift 0 decodes to the low bits of the dword. *)
Lemma dwToFieldValue_low raw f n :
  shift f = 0 -> mask f = Z.ones n -> 0 < n <= 32 -> 0 <= raw < 2 ^ 32 ->
  dwToFieldValue raw f = Z.land raw (Z.ones n).
Proof.
  intros Hs Hm Hn Hr. rewrite (dwToFieldValue_spec raw f n) by (auto; lia).
  rewrite Hs. reflexivity.
Qed.

(** The dword after a data-port write that covers the low [n] bits, all
    of them writable: the low [n] bits are the value written. *)
Lemma store_low (r : Reg) v n :
  0 <= n ->
  Z.land (wmask r) (Z.ones n) = Z.ones n ->
  Z.land (Z.land (value (store (Z.ones n) v r)) 0xffffffff) (Z.ones n) =
  Z.land (Z.land v 0xffffffff) (Z.ones n).
Proof.
  intros Hn Hw. unfold store. cbn [value wmask]. rewrite Hw.
  apply Z.bits_inj'. intros i Hi.
  repeat rewrite ?Z.land_spec, ?Z.lor_spec, ?Z.lnot_spec, ?testbit_ones32,
    ?Z.testbit_ones_nonneg by lia.
  destruct (Z.testbit (value r) i), (Z.testbit v i), (i <? 32), (i <? n); reflexivity.
Qed.

(** [(v & mask) >>> 0] for a mask of [n] low bits is the low [n] bits. *)
Lemma and_ones v n :
  0 < n <= 31 -> JS.ushr (JS.and v (Z.ones n)) 0 = Z.land v (Z.ones n).
Proof.
  intros Hn. unfold JS.and.
  assert (Hones : 0 <= Z.ones n < 2 ^ 31).
  { rewrite Z.ones_equiv. pose proof (Z.pow_pos_nonneg 2 n ltac:(lia) ltac:(lia)).
    pose proof (Z.pow_le_mono_r 2 n 31 ltac:(lia) ltac:(lia)). lia. }
  rewrite (toInt32_small (Z.ones n)) by lia.
  assert (Heq : Z.land (JS.toInt32 v) (Z.ones n) = Z.land v (Z.ones n)).
  { apply Z.bits_inj'. intros i Hi.
    rewrite !Z.land_spec, Z.testbit_ones_nonneg by lia.
    destruct (Z.ltb_spec i n); [|rewrite !andb_false_r; reflexivity].
    rewrite toInt32_testbit by lia. reflexivity. }
  rewrite Heq. apply ushr0_small.
  rewrite Z.land_ones by lia.
  pose proof (Z.mod_pos_bound v (2 ^ n) ltac:(lia)).
  pose proof (Z.pow_le_mono_r 2 n 32 ltac:(lia) ltac:(lia)). lia.
Qed.

Lemma write16_spec a f v m :
  mask f = 0xffff ->
  JS.rem (offset f + shift f) sizeof.UINT16 = 0 ->
  PciAccessor.write a f v m =
    (Ok tt,
     withCache a (delete (offset f) (PciAccessor.offsetCache a m))
               (afterWrite 0xffff OutData16
                  (portAddr (PciAccessor.abus a) (PciAccessor.aslot a)
                            (PciAccessor.afunc a) (offset f + shift f))
                  (JS.ushr (JS.and v 0xffff) 0) (ports m)) m).
Proof.
  intros Hm Ha. unfold PciAccessor.write, bind, modify, onPorts, zoom.
  rewrite Hm. cbn [Z.eqb Pos.eqb]. unfold PciAccessor.writeRaw16. rewrite Ha.
  unfold afterWrite, bind, setPort, addressPort.write32, dataPort.write16,
    dataPort.write, modify, emit, withCache, PciAccessor.updCache,
    PciAccessor.offsetCache.
  cbn [Z.eqb ports accessorCache latch cfg trace].
  rewrite <- app_assoc. reflexivity.
Qed.

Lemma write8_spec a f v m :
  mask f = 0xff ->
  PciAccessor.write a f v m =
    (Ok tt,
     withCache a (delete (offset f) (PciAccessor.offsetCache a m))
               (afterWrite 0xff OutData8
                  (portAddr (PciAccessor.abus a) (PciAccessor.aslot a)
                            (PciAccessor.afunc a) (offset f + shift f))
                  (JS.ushr (JS.and v 0xff) 0) (ports m)) m).
Proof.
  intros Hm. unfold PciAccessor.write, bind, modify, onPorts, zoom.
  rewrite Hm. cbn [Z.eqb Pos.eqb]. unfold PciAccessor.writeRaw8.
  unfold afterWrite, bind, setPort, addressPort.write32, dataPort.write8,
    dataPort.write, modify, emit, withCache, PciAccessor.updCache,
    PciAccessor.offsetCache.
  cbn [ports accessorCache latch cfg trace].
  rewrite <- app_assoc. reflexivity.
Qed.

(** What a field at shift 0 reads after a write of the low [n] bits of
    its dword, when the dword is there and those bits are writable. *)
Lemma read_stored a f n e v' v (r : Reg) m :
  shift f = 0 -> mask f = Z.ones n -> 0 < n <= 32 ->
  JS.rem (offset f) sizeof.UINT32 = 0 ->
  cfg (ports m) !! fieldAddr a f = Some r ->
  Z.land (wmask r) (Z.ones n) = Z.ones n ->
  v' = Z.land v (Z.ones n) ->
  exists m2,
    PciAccessor.read a f
      (withCache a (delete (offset f) (PciAccessor.offsetCache a m))
                 (afterWrite (Z.ones n) e (fieldAddr a f) v' (ports m)) m)
    = (Ok (Z.land v (mask f)), m2).
Proof.
  intros Hs Hm Hn Halign Hr Hw Hv.
  rewrite read_miss;
    [|rewrite offsetCache_withCache; apply lookup_delete_eq | exact Halign].
  eexists. f_equal. f_equal.
  rewrite (dwToFieldValue_low _ f n Hs Hm Hn) by apply rawAt_range.
  rewrite ports_withCache. unfold rawAt, afterWrite, dwordAt. cbn [cfg].
  rewrite lookup_alter_eq, Hr. cbn [fmap option_fmap option_map].
  rewrite store_low by (lia || exact Hw). rewrite Hv, Hm.
  apply Z.bits_inj'. intros i Hi.
  repeat rewrite ?Z.land_spec, ?testbit_ones32, ?Z.testbit_ones_nonneg by lia.
  destruct (Z.testbit v i), (Z.ltb_spec i 32), (Z.ltb_spec i n);
    try reflexivity; lia.
Qed.

(** The round trip of a field at shift 0: once written, the field reads
    as the value written, cut to the width of the field, whatever the
    accessor had cached for the offset. *)
Lemma write_read_roundtrip a f v (r : Reg) m :
  shift f = 0 ->
  mask f = 0xff \/ mask f = 0xffff \/ mask f = 0xffffffff ->
  JS.rem (offset f) sizeof.UINT32 = 0 ->
  cfg (ports m) !! fieldAddr a f = Some r ->
  Z.land (wmask r) (mask f) = mask f ->
  exists m1 m2,
    PciAccessor.write a f v m = (Ok tt, m1) /\
    PciAccessor.read a f m1 = (Ok (Z.land v (mask f)), m2).
Proof.
  intros Hs Hmask Halign Hr Hw.
  assert (Hrem2 : JS.rem (offset f + shift f) sizeof.UINT16 = 0).
  { rewrite Hs, Z.add_0_r. unfold JS.rem, sizeof.UINT32, sizeof.UINT16 in *.
    revert Halign. pose proof (Z.rem_bound_neg_pos (offset f) 4).
    pose proof (Z.rem_bound_pos_pos (offset f) 4).
    Z.to_euclidean_division_equations. lia. }
  assert (Haddr : portAddr (PciAccessor.abus a) (PciAccessor.aslot a)
                           (PciAccessor.afunc a) (offset f + shift f)
                  = fieldAddr a f)
    by (unfold fieldAddr; rewrite Hs, Z.add_0_r; reflexivity).
  destruct Hmask as [Hm|[Hm|Hm]].
  - rewrite (write8_spec a f v m Hm), Haddr. eexists. 
    change 0xff with (Z.ones 8) in *.
    destruct (read_stored a f 8 OutData8 (JS.ushr (JS.and v (Z.ones 8)) 0) v r m)
      as (m2 & Hread); auto; try lia.
    { rewrite <- Hm. exact Hw. } { apply and_ones. lia. }
    exists m2. split; [reflexivity|exact Hread].
  - rewrite (write16_spec a f v m Hm Hrem2), Haddr. eexists.
    change 0xffff with (Z.ones 16) in *.
    destruct (read_stored a f 16 OutData16 (JS.ushr (JS.and v (Z.ones 16)) 0) v r m)
      as (m2 & Hread); auto; try lia.
    { rewrite <- Hm. exact Hw. } { apply and_ones. lia. }
    exists m2. split; [reflexivity|exact Hread].
  - rewrite (write32_spec a f v m Hm Halign). eexists.
    change 0xffffffff with (Z.ones 32) in *.
    destruct (read_stored a f 32 OutData32 (JS.ushr v 0) v r m)
      as (m2 & Hread); auto; try lia.
    { rewrite <- Hm. exact Hw. }
    { rewrite ushr0. unfold JS.toUint32. rewrite Z.land_ones by lia. reflexivity. }
    exists m2. split; [reflexivity|exact Hread].
Qed.

(** The bits of a dword above the low [n] are not touched by a data-port
    write that covers the low [n] bits. *)
Lemma store_high (r : Reg) v n s :
  0 < n -> n <= 8 * s ->
  Z.land (Z.shiftr (Z.land (value (store (Z.ones n) v r)) 0xffffffff) (8 * s))
         (Z.ones n) =
  Z.land (Z.shiftr (Z.land (value r) 0xffffffff) (8 * s)) (Z.ones n).
Proof.
  intros Hn Hs. unfold store. cbn [value wmask].
  apply Z.bits_inj'. intros i Hi.
  repeat rewrite ?Z.land_spec, ?Z.shiftr_spec, ?Z.lor_spec, ?Z.lnot_spec,
    ?testbit_ones32, ?Z.testbit_ones_nonneg by lia.
  destruct (Z.ltb_spec (i + 8 * s) n); [lia|].
  rewrite !andb_false_r. cbn [negb]. rewrite andb_true_r, orb_false_r.
  reflexivity.
Qed.

(** What the program does for a field at a nonzero shift: the dword is
    selected, the value goes to the data port, whose narrow accesses cover
    the low bytes of the dword, and the field, which lies above them,
    reads what it held before the write. *)
Lemma write_shifted_keeps a f v (r : Reg) m n :
  mask f = Z.ones n -> n = 8 \/ n = 16 ->
  n <= 8 * shift f -> shift f <= 3 ->
  JS.rem (offset f) sizeof.UINT32 = 0 ->
  JS.rem (offset f + shift f) sizeof.UINT16 = 0 ->
  JS.and (offset f + shift f) 0xfc = JS.and (offset f) 0xfc ->
  cfg (ports m) !! fieldAddr a f = Some r ->
  exists m1 m2,
    PciAccessor.write a f v m = (Ok tt, m1) /\
    PciAccessor.read a f m1 =
      (Ok (dwToFieldValue (Z.land (value r) 0xffffffff) f), m2).
Proof.
  intros Hm Hn Hlanes Hs3 Halign Halign2 Hdw Hr.
  assert (Haddr : portAddr (PciAccessor.abus a) (PciAccessor.aslot a)
                           (PciAccessor.afunc a) (offset f + shift f)
                  = fieldAddr a f)
    by (unfold fieldAddr; apply portAddr_dword, Hdw).
  assert (Hold : 0 <= Z.land (value r) 0xffffffff < 2 ^ 32).
  { change 0xffffffff with (Z.ones 32). rewrite Z.land_ones by lia.
    apply Z.mod_pos_bound. lia. }
  assert (Hgoal : forall e v',
    exists m2,
      PciAccessor.read a f
        (withCache a (delete (offset f) (PciAccessor.offsetCache a m))
                   (afterWrite (Z.ones n) e (fieldAddr a f) v' (ports m)) m)
      = (Ok (dwToFieldValue (Z.land (value r) 0xffffffff) f), m2)).
  { intros e v'.
    rewrite read_miss;
      [|rewrite offsetCache_withCache; apply lookup_delete_eq | exact Halign].
    eexists. f_equal. f_equal.
    rewrite !(dwToFieldValue_spec _ f n) by (auto using rawAt_range; lia).
    rewrite ports_withCache. unfold rawAt, afterWrite, dwordAt. cbn [cfg].
    rewrite lookup_alter_eq, Hr. cbn [fmap option_fmap option_map].
    apply store_high; lia. }
  destruct Hn as [->| ->].
  - change (Z.ones 8) with 0xff in Hm.
    rewrite (write8_spec a f v m Hm), Haddr.
    destruct (Hgoal OutData8 (JS.ushr (JS.and v 0xff) 0)) as (m2 & Hread).
    eexists _, m2. split; [reflexivity|exact Hread].
  - change (Z.ones 16) with 0xffff in Hm.
    rewrite (write16_spec a f v m Hm Halign2), Haddr.
    destruct (Hgoal OutData16 (JS.ushr (JS.and v 0xffff) 0)) as (m2 & Hread).
    eexists _, m2. split; [reflexivity|exact Hread].
Qed.

(** C6. The round trip fails for a field at a nonzero shift.  For every
    accessor, value and machine, [write(LATENCY_TIMER, v)] (byte 1 of the
    dword at 0x0c) is the same computation as [write(CACHE_LINESIZE, v)]
    (byte 0): the same cache entry is dropped and the same is sent to the
    ports, the shift of the field reaching neither of them.  On the
    simulated controller, whose dword at 0x0c is 0 with both bytes
    writable, after [write(LATENCY_TIMER, 0x40)] the field LATENCY_TIMER
    reads 0 and CACHE_LINESIZE reads 0x40. *)
Theorem write_shifted_field_misses :
  (forall a v m,
     PciAccessor.write a fields.LATENCY_TIMER v m =
     PciAccessor.write a fields.CACHE_LINESIZE v m) /\
  (let m1 := (PciAccessor.write (0, 5, 0) fields.LATENCY_TIMER 0x40 Sim.machine).2 in
   (PciAccessor.read (0, 5, 0) fields.LATENCY_TIMER m1).1 = Ok 0 /\
   (PciAccessor.read (0, 5, 0) fields.CACHE_LINESIZE m1).1 = Ok 0x40).
Proof.
  split.
  - intros a v m. apply write8_shift_blind; reflexivity.
  - vm_compute. split; reflexivity.
Qed.

End Cache.

(** ** ACPI resolution *)

Section Acpi.

Implicit Types (dev : AcpiNode) (m : Machine).

Lemma locateAcpiDevice_eq dev :
  locateAcpiDevice dev =
  if negb (isDevice dev) then ret None else
  let addr := address dev in
  let slotId := JS.ushr (JS.and (JS.ushr addr 16) 0xffff) 0 in
  let funcId := JS.ushr (JS.and addr 0xffff) 0 in
  if isRootBridge dev
  then ret (Some (mkAddr (getRootBridgeBusNumber dev) slotId funcId))
  else
    match parent dev with
    | None => ret None
    | Some parentDev =>
        if negb (isDevice parentDev) then ret None else
        if isRootBridge parentDev
        then ret (Some (mkAddr (getRootBridgeBusNumber parentDev) slotId funcId))
        else
          do parentLocation <- locateAcpiDevice parentDev;
          match parentLocation with
          | None => ret None
          | Some parentLocation =>
              do pciParent <- pciAccessorFactory.get
                                (mkAddr (bus parentLocation) (slot parentLocation)
                                        (func parentLocation));
              do header <- PciAccessor.read pciParent fields.HEADER_TYPE;
              let headerType := JS.ushr (JS.and header 0x7f) 0 in
              if negb (0x01 =? headerType) && negb (0x02 =? headerType)
              then ret None
              else
                do bridgeBus <- PciAccessor.read pciParent bridgeFields.SECONDARY_BUS;
                ret (Some (mkAddr bridgeBus slotId funcId))
          end
    end.
Proof. destruct dev; reflexivity. Qed.


(** Induction on the parent chain of a node. *)
Lemma AcpiNode_chain_ind (P : AcpiNode -> Prop) :
  (forall dev, (forall parentDev, parent dev = Some parentDev -> P parentDev) -> P dev) ->
  forall dev, P dev.
Proof.
  intros Hstep.
  fix IH 1. intros dev. apply Hstep.
  destruct dev as [isDev isRoot addr par rootBus table]. cbn [parent].
  destruct par as [parentDev|].
  - pose proof (IH parentDev) as HP. intros q Hq.
    injection Hq as Heq. rewrite <- Heq. exact HP.
  - intros q Hq. discriminate Hq.
Qed.


(** The accessor factory accepts every valid address, and the accessor it
    returns reads the header type without throwing. *)
Lemma get_valid (address : PciAddress) m :
  validAddress address ->
  exists m2, pciAccessorFactory.get address m = (Ok (addressHash address), m2) /\
             ports m2 = ports m.
Proof.
  intros (Hb & Hs & Hf). unfold pciAccessorFactory.get, bind, gets.
  destruct (accessorCache m !! addressHash address); [eexists; split; reflexivity|].
  unfold PciAccessor.validate, PciAccessor.abus, PciAccessor.aslot,
    PciAccessor.afunc, addressHash. cbn [fst snd].
  rewrite !ushr0_small by lia.
  destruct (Z.ltb_spec 255 (bus address)); [lia|].
  destruct (Z.ltb_spec 31 (slot address)); [lia|].
  destruct (Z.ltb_spec 7 (func address)); [lia|].
  eexists; split; reflexivity.
Qed.

(** At an address the constructor accepts the resolver gets the accessor
    and reads the header type without throwing. *)
Lemma parentHeader_valid (parentLocation : PciAddress) m1 :
  validAddress parentLocation ->
  exists m2 header m',
    pciAccessorFactory.get parentLocation m1
      = (Ok (addressHash parentLocation), m2) /\
    PciAccessor.read (addressHash parentLocation) fields.HEADER_TYPE m2
      = (Ok header, m') /\
    parentHeader parentLocation m1 = (Ok header, m').
Proof.
  intros Hvalid. unfold parentHeader.
  destruct (get_valid parentLocation m1 Hvalid) as (m2 & Hget & _).
  destruct (read_total (addressHash parentLocation) fields.HEADER_TYPE m2 eq_refl)
    as (header & m' & Hread).
  exists m2, header, m'. unfold bind. rewrite Hget, Hread. auto.
Qed.


(** When the parent resolves to a valid address the header type is read
    without throwing; a header type that is not a bridge's leaves the node
    unresolved. *)
Lemma unresolved_valid_parent dev parentDev m m1 parentLocation :
  isDevice dev = true -> isRootBridge dev = false ->
  parent dev = Some parentDev ->
  isDevice parentDev = true -> isRootBridge parentDev = false ->
  locateAcpiDevice parentDev m = (Ok (Some parentLocation), m1) ->
  validAddress parentLocation ->
  exists header m',
    parentHeader parentLocation m1 = (Ok header, m') /\
    (bridgeTyped header = false -> Unresolved dev m m').
Proof.
  intros Hd Hr Hp Hpd Hpr Hloc Hvalid.
  destruct (parentHeader_valid parentLocation m1 Hvalid)
    as (m2 & header & m' & _ & _ & Hhead).
  exists header, m'. split; [exact Hhead|]. intros Hty.
  replace m' with (parentHeader parentLocation m1).2 by (rewrite Hhead; reflexivity).
  apply (Unresolved_not_bridge dev parentDev m m1 parentLocation); try assumption.
  intros h Hh. rewrite Hhead in Hh. injection Hh as <-. exact Hty.
Qed.







End Acpi.

(** ** The device inventory *)

Section Inventory.

Implicit Types (d : PciDevice) (m : Machine) (devicesMap : Registry).

Lemma classData_total d m :
  exists classData m', Device.classData d m = (Ok classData, m').
Proof.
  unfold Device.classData.
  destruct (read_total (pciAccessor d) fields.CLASS_CODE m eq_refl) as (c & m1 & H1).
  destruct (read_total (pciAccessor d) fields.SUBCLASS m1 eq_refl) as (s & m2 & H2).
  unfold bind. rewrite H1, H2. eauto.
Qed.

Lemma subsystemData_total d m :
  isBridge d = false ->
  exists subsystemData m', Device.subsystemData d m = (Ok subsystemData, m').
Proof.
  intros Hb. unfold Device.subsystemData. rewrite Hb.
  destruct (read_total (pciAccessor d) generalFields.SUBSYS_ID m eq_refl)
    as (c & m1 & H1).
  destruct (read_total (pciAccessor d) generalFields.SUBSYS_VENDOR m1 eq_refl)
    as (s & m2 & H2).
  unfold bind. rewrite H1, H2. eauto.
Qed.

Lemma probeBars_total d indices m :
  isBridge d = false ->
  Forall (fun i => 0 <= i <= 5) indices ->
  exists probes m', probeBars d indices m = (Ok probes, m') /\
                    length probes = length indices.
Proof.
  intros Hb Hall. revert m.
  induction Hall as [|i indices Hi _ IH]; intros m.
  - exists [], m. split; reflexivity.
  - destruct (getBAR_total d i m Hb Hi) as (bar & m1 & Hbar).
    destruct (IH m1) as (bars & m2 & Hbars & Hlen).
    exists (bar :: bars), m2. cbn [probeBars]. unfold bind.
    rewrite Hbar, Hbars. split; [reflexivity|]. cbn [length]. congruence.
Qed.

(** The loop that pushes the BAR data is the sequence of the probes. *)
Lemma pushBars_probeBars d indices (bars : list (option BarData)) m probes m' :
  probeBars d indices m = (Ok probes, m') ->
  pushBars d indices bars m = (Ok (bars ++ map barDataOf probes), m').
Proof.
  revert bars m probes. induction indices as [|i indices IH]; intros bars m probes.
  - cbn [probeBars pushBars]. unfold ret. intros H. injection H as <- <-.
    cbn [map]. rewrite app_nil_r. reflexivity.
  - cbn [probeBars pushBars]. unfold bind at 1 3.
    destruct (Device.getBAR d i m) as [[bar|e] m1]; [|discriminate].
    unfold bind.
    destruct (probeBars d indices m1) as [[tl|e] m2] eqn:E; [|discriminate].
    unfold ret. intros H. injection H as <- <-.
    rewrite (IH _ _ _ E). cbn [map]. rewrite <- app_assoc. reflexivity.
Qed.

Lemma summarize_bridge d (t : Machine * list Summary) :
  isBridge d = true -> summarize (d, t) = (Ok tt, (d, t)).
Proof.
  intros Hb. unfold summarize. unfold bind at 1, this, gets. cbn [fst].
  rewrite Hb. reflexivity.
Qed.

Lemma summarize_device d m results classData m1 subsystemData m2 devicePin m3
      probes m4 :
  isBridge d = false ->
  Device.classData d m = (Ok classData, m1) ->
  Device.subsystemData d m1 = (Ok subsystemData, m2) ->
  Device.interruptPin d m2 = (Ok devicePin, m3) ->
  probeBars d [0; 1; 2; 3; 4; 5] m3 = (Ok probes, m4) ->
  summarize (d, (m, results)) =
    (Ok tt,
     (d, (m4, results ++
              [mkSummary (bus (dev_address d)) (slot (dev_address d))
                         (func (dev_address d)) (vendorId d) (deviceId d)
                         (className classData) subsystemData (irqVector d)
                         (pinName devicePin) (pciAccessor d)
                         (option_map irqRange.irq (irqVector d))
                         (map barDataOf probes)]))).
Proof.
  intros Hb Hc Hs Hp Hbars.
  pose proof (pushBars_probeBars d _ [] _ _ _ Hbars) as Hpush.
  unfold summarize. unfold bind at 1, this, gets. cbn [fst].
  rewrite Hb. cbv zeta. cbn [negb].
  unfold bind, outer, zoom, modify, decodeBars, Device.getIRQVector.
  cbn [fst snd]. rewrite Hc. cbn [fst snd]. rewrite Hs. cbn [fst snd].
  rewrite Hp. cbn [fst snd]. rewrite Hpush. cbn [fst snd app]. reflexivity.
Qed.

Lemma each_summarize devicesMap : forall m results,
  exists listed m',
    pciManager.eachFrom summarize devicesMap (m, results) =
      (Ok tt, (devicesMap, (m', results ++ listed))) /\
    Listed devicesMap m listed m'.
Proof.
  induction devicesMap as [|[key d] tl IH]; intros m results.
  - exists [], m. rewrite app_nil_r. split; [reflexivity|constructor].
  - cbn [pciManager.eachFrom]. destruct (isBridge d) eqn:Hb.
    + rewrite (summarize_bridge d _ Hb).
      destruct (IH m results) as (listed & m' & Hrun & Hl).
      rewrite Hrun. exists listed, m'. split; [reflexivity|].
      apply Listed_bridge; assumption.
    + destruct (classData_total d m) as (cd & m1 & Hc).
      destruct (subsystemData_total d m1 Hb) as (sd & m2 & Hs).
      destruct (interruptPin_total d m2 Hb) as (pin & m3 & Hp).
      destruct (probeBars_total d [0; 1; 2; 3; 4; 5] m3 Hb) as (probes & m4 & Hbars & _).
      { repeat constructor; lia. }
      rewrite (summarize_device d m results _ _ _ _ _ _ _ _ Hb Hc Hs Hp Hbars).
      destruct (IH m4 (results ++ [mkSummary (bus (dev_address d)) (slot (dev_address d))
                         (func (dev_address d)) (vendorId d) (deviceId d)
                         (className cd) sd (irqVector d)
                         (pinName pin) (pciAccessor d)
                         (option_map irqRange.irq (irqVector d))
                         (map barDataOf probes)]))
        as (listed & m' & Hrun & Hl).
      rewrite Hrun. eexists (_ :: listed), m'. split.
      * rewrite <- app_assoc. reflexivity.
      * eapply Listed_device; eassumption.
Qed.




Lemma barDataOf_null (bar : option BarDescriptor) :
  barDataOf bar = None <-> bar = None.
Proof. destruct bar; cbn; split; congruence. Qed.


End Inventory.

(** ** The simulated configuration space, worked through *)

Section Examples.

(** The device of the specification's end-to-end property: a network
    controller whose BAR 0 holds 0xfe000000 and answers the probe with
    0xfff00000 is listed with a 32-bit memory BAR of 1 MiB at that base. *)
Example getBAR_nic_bar0 :
  (Device.getBAR Sim.nic 0 Sim.machine).1 =
  Ok (Some (mkBar mem32 0xfe000000 0x100000 (MemoryBlock 0xfe000000 0x100000))).
Proof. vm_compute. reflexivity. Qed.

Example listPciDevices_sim :
  option_map (fun r => (summaryAddress r, s_className r, s_pin r, s_bars r))
    (match (listPciDevices (Sim.registry, Sim.machine)).1 with
     | Ok [r] => Some r
     | _ => None
     end) =
  Some (mkAddr 0 5 0, "Network Controller"%string, Some "C"%string,
        [ Some (mkBarData mem32 (MemoryBlock 0xfe000000 0x100000)); None; None;
          Some (mkBarData io_bar (IoSubrange 0xc020 0xc03f)); None; None ]).
Proof. vm_compute. reflexivity. Qed.

(** The constructor finds the bridge at slot 1 and the general device at
    slot 5. *)
Example new_bridge :
  (Device.new (mkAddr 0 1 0) (0, 1, 0) Sim.machine).1 = Ok Sim.bridge.
Proof. vm_compute. reflexivity. Qed.

Example new_nic :
  (Device.new (mkAddr 0 5 0) (0, 5, 0) Sim.machine).1 = Ok Sim.nic.
Proof. vm_compute. reflexivity. Qed.

(** A node behind the bridge is on the bridge's secondary bus; nodes that
    hang from nothing, or from a device that is no bridge, are not
    resolved. *)
Example locate_behind :
  (locateAcpiDevice Sim.behind Sim.machine).1 = Ok (Some (mkAddr 1 3 0)).
Proof. vm_compute. reflexivity. Qed.

Example locate_root :
  (locateAcpiDevice Sim.root Sim.machine).1 = Ok (Some (mkAddr 0 0 0)).
Proof. vm_compute. reflexivity. Qed.

Example neverReachesRoot_sim :
  map neverReachesRoot
      [Sim.scope; Sim.orphan; Sim.belowScope; Sim.belowOrphan; Sim.behind; Sim.belowNic]
  = [true; true; true; true; false; false].
Proof. reflexivity. Qed.

(** A parent whose ACPI address has function 0xffff resolves to an address
    no accessor exists for, and the resolution of its child throws. *)
Example locate_invalid_parent :
  (locateAcpiDevice
     (mkAcpi true false 0x10000
             (Some (mkAcpi true false 0x2ffff (Some Sim.root) 0 None)) 0 None)
     Sim.machine).1 = Throw InvalidAddress.
Proof. vm_compute. reflexivity. Qed.

(** The attach pass over the simulated nodes attaches the handles of the
    bridge and of the controller, and registers the tables' owners of
    bus 0 (the root bridge) and bus 1 (the bridge). *)
Example attachPass_sim :
  let '(r, (devicesMap, (_, buses))) :=
    attachPass [Sim.root; Sim.p2p; Sim.behind; Sim.nicNode; Sim.belowNic; Sim.orphan]
               (Sim.registry, (Sim.machine, ∅)) in
  r = Ok tt /\
  map (fun entry => acpiDevice entry.2) devicesMap = [Some Sim.p2p; Some Sim.nicNode] /\
  buses !! 0 = Some Sim.root /\ buses !! 1 = Some Sim.p2p /\
  extractRouting buses !! 0 = Some Sim.routes /\ extractRouting buses !! 1 = None.
Proof. vm_compute. repeat split; reflexivity. Qed.

(** The IRQ pass on the simulated registry: the bridge is skipped and the
    controller gets the irq of the last matching entry. *)
Example irqPass_sim :
  let '(r, (devicesMap, _)) := irqPass Sim.busRouting (Sim.registry, Sim.machine) in
  r = Ok tt /\ map (fun entry => irqVector entry.2) devicesMap = [None; Some 10].
Proof. vm_compute. split; reflexivity. Qed.

(** A write to COMMAND is read back, also through an accessor that had the
    dword cached, and sets what [setCommandFlag] asked for. *)
Example setCommandFlag_sim :
  let m1 := (PciAccessor.read (0, 5, 0) fields.STATUS Sim.machine).2 in
  let m2 := (Device.setCommandFlag Sim.nic commandFlags.BusMaster m1).2 in
  (PciAccessor.read (0, 5, 0) fields.COMMAND m1).1 = Ok 0 /\
  (PciAccessor.read (0, 5, 0) fields.COMMAND m2).1 = Ok 4 /\
  (PciAccessor.read (0, 5, 0) fields.STATUS m2).1 = Ok 0x0210.
Proof. vm_compute. repeat split; reflexivity. Qed.

End Examples.

(** * Further properties of the code *)

(** ** Port addresses *)

Section PortAddress.

Lemma testbit_small x k i :
  0 <= x < 2 ^ k -> 0 <= k <= i -> Z.testbit x i = false.
Proof.
  intros Hx Hk. rewrite <- (Z.mod_small x (2 ^ k)) by exact Hx.
  apply Z.mod_pow2_bits_high. lia.
Qed.

Lemma land_shifted_low hi lo k :
  0 <= k -> 0 <= lo < 2 ^ k -> Z.land (hi * 2 ^ k) lo = 0.
Proof.
  intros Hk Hlo. apply Z.bits_inj'. intros i Hi.
  rewrite Z.land_spec, Z.bits_0.
  destruct (Z.ltb_spec i k).
  - rewrite Z.mul_pow2_bits_low by lia. reflexivity.
  - rewrite (testbit_small lo k i) by lia. apply andb_false_r.
Qed.

Lemma lor_shifted_low hi lo k :
  0 <= k -> 0 <= lo < 2 ^ k -> Z.lor (hi * 2 ^ k) lo = hi * 2 ^ k + lo.
Proof.
  intros Hk Hlo. pose proof (land_shifted_low hi lo k Hk Hlo) as Hland.
  rewrite <- Z.lxor_lor by exact Hland.
  symmetry. apply Z.add_nocarry_lxor. exact Hland.
Qed.

Lemma shl_small x k :
  0 <= k < 32 -> 0 <= x -> x * 2 ^ k < 2 ^ 31 -> JS.shl x k = x * 2 ^ k.
Proof.
  intros Hk Hx Hlt. unfold JS.shl.
  rewrite (toUint32_small k) by lia. rewrite (Z.mod_small k 32) by lia.
  assert (Hxs : x < 2 ^ 31).
  { pose proof (Z.pow_pos_nonneg 2 k ltac:(lia) ltac:(lia)). nia. }
  rewrite (toInt32_small x) by lia.
  rewrite Z.shiftl_mul_pow2 by lia. apply toInt32_small.
  pose proof (Z.pow_pos_nonneg 2 k ltac:(lia) ltac:(lia)). nia.
Qed.

Lemma or_small x y :
  - 2 ^ 31 <= x < 2 ^ 31 -> - 2 ^ 31 <= y < 2 ^ 31 -> JS.or x y = Z.lor x y.
Proof. intros Hx Hy. unfold JS.or. rewrite !toInt32_small by lia. reflexivity. Qed.

(** The dword part of an offset below 256. *)
Lemma and_fc off : 0 <= off < 256 -> JS.and off 0xfc = off - off mod 4.
Proof.
  intros Hoff. unfold JS.and. rewrite !toInt32_small by lia.
  change 0xfc with (Z.land (Z.ones 8) (Z.lnot 3)).
  rewrite Z.land_assoc, Z.land_ones by lia.
  change (2 ^ 8) with 256. rewrite (Z.mod_small off 256) by lia.
  apply land_lnot3.
Qed.

(** Setting the enable bit. *)
Lemma or_enable y : 0 <= y < 2 ^ 31 -> JS.ushr (JS.or y 0x80000000) 0 = 2 ^ 31 + y.
Proof.
  intros Hy. rewrite ushr0. unfold JS.or, JS.toUint32.
  rewrite (toInt32_small y) by lia.
  change (JS.toInt32 0x80000000) with (Z.lnot (Z.ones 31)).
  replace (2 ^ 31 + y) with (Z.lor (1 * 2 ^ 31) y)
    by (rewrite lor_shifted_low by lia; lia).
  rewrite <- (Z.land_ones _ 32) by lia.
  apply Z.bits_inj'. intros i Hi.
  rewrite Z.land_spec, !Z.lor_spec, Z.lnot_spec, !Z.testbit_ones_nonneg by lia.
  change (1 * 2 ^ 31) with (2 ^ 31). rewrite Z.pow2_bits_eqb by lia.
  destruct (Z.ltb_spec i 31), (Z.ltb_spec i 32), (Z.eqb_spec 31 i);
    try lia; cbn [negb orb andb];
    rewrite ?orb_false_r, ?orb_true_r, ?andb_true_r, ?andb_false_r; try reflexivity.
  all: rewrite ?(testbit_small y 31 i) by lia; reflexivity.
Qed.

(** The address that [setPort] writes for a function and an offset below
    256: the enable bit, the bus, the slot and the function in their own
    bits, and the offset without its two low bits. *)
Lemma portAddr_valid bus slot func off :
  validTriple bus slot func -> 0 <= off < 256 ->
  portAddr bus slot func off =
  0x80000000 + bus * 65536 + slot * 2048 + func * 256 + (off - off mod 4).
Proof.
  intros (Hb & Hs & Hf) Hoff. unfold portAddr.
  rewrite (shl_small bus 16), (shl_small slot 11), (shl_small func 8) by lia.
  rewrite (and_fc off Hoff).
  pose proof (Z.mod_pos_bound off 4 ltac:(lia)) as Hm.
  pose proof (Z.mod_le off 4 ltac:(lia) ltac:(lia)) as Hle.
  change (2 ^ 16) with 65536. change (2 ^ 11) with 2048. change (2 ^ 8) with 256.
  rewrite (or_small (bus * 65536) (slot * 2048)) by lia.
  replace (bus * 65536) with ((bus * 32) * 2 ^ 11) at 1 by lia.
  change 2048 with (2 ^ 11) at 1.
  replace (Z.lor (bus * 32 * 2 ^ 11) (slot * 2 ^ 11))
    with ((bus * 32 + slot) * 2 ^ 11).
  2:{ rewrite <- !Z.shiftl_mul_pow2, <- Z.shiftl_lor by lia. f_equal.
      change 32 with (2 ^ 5). symmetry. apply lor_shifted_low; lia. }
  rewrite (or_small _ (func * 256)) by lia.
  replace ((bus * 32 + slot) * 2 ^ 11) with (((bus * 32 + slot) * 8) * 2 ^ 8) by lia.
  change 256 with (2 ^ 8) at 1.
  replace (Z.lor ((bus * 32 + slot) * 8 * 2 ^ 8) (func * 2 ^ 8))
    with (((bus * 32 + slot) * 8 + func) * 2 ^ 8).
  2:{ rewrite <- !Z.shiftl_mul_pow2, <- Z.shiftl_lor by lia. f_equal.
      change 8 with (2 ^ 3). symmetry. apply lor_shifted_low; lia. }
  rewrite (or_small _ (off - off mod 4)) by lia.
  rewrite lor_shifted_low by lia.
  rewrite or_enable by lia. lia.
Qed.

(** X1. Two functions, or two dwords of a function, never share a port
    address: for valid addresses and offsets below 256 the port address
    determines the bus, the slot, the function and the dword. *)
Theorem portAddr_inj bus slot func off bus' slot' func' off' :
  validTriple bus slot func -> validTriple bus' slot' func' ->
  0 <= off < 256 -> 0 <= off' < 256 ->
  portAddr bus slot func off = portAddr bus' slot' func' off' ->
  bus = bus' /\ slot = slot' /\ func = func' /\ off / 4 = off' / 4.
Proof.
  intros Hv Hv' Hoff Hoff'. rewrite !portAddr_valid by assumption.
  destruct Hv as (Hb & Hs & Hf), Hv' as (Hb' & Hs' & Hf').
  pose proof (Z.div_mod off 4 ltac:(lia)).
  pose proof (Z.div_mod off' 4 ltac:(lia)).
  pose proof (Z.mod_pos_bound off 4 ltac:(lia)).
  pose proof (Z.mod_pos_bound off' 4 ltac:(lia)).
  intros Heq. lia.
Qed.

Lemma portAddr_inj_witness :
  0 = 0 /\ 5 = 5 /\ 0 = 0 /\ 0x3c / 4 = 0x3d / 4.
Proof.
  apply (portAddr_inj 0 5 0 0x3c 0 5 0 0x3d);
    try (unfold validTriple; lia); reflexivity.
Defined.

End PortAddress.

(** ** The accessor: sharing of cached dwords, and errors *)

Section AccessorMore.

Implicit Types (a : Key) (f g : Field) (m : Machine).

Lemma machine_eta m : mkMachine (ports m) (accessorCache m) = m.
Proof. destruct m; reflexivity. Qed.

(** X2. The fields of one dword share one fetch: once a read of a field at
    a dword-aligned offset has returned, the dword is cached, and a read of
    any field of the same offset decodes the cached dword and leaves the
    machine as it is, without any port access. *)
Theorem read_shares_dword a f g m v m1 :
  JS.rem (offset f) sizeof.UINT32 = 0 ->
  offset g = offset f ->
  PciAccessor.read a f m = (Ok v, m1) ->
  exists raw,
    PciAccessor.offsetCache a m1 !! offset f = Some raw /\
    v = dwToFieldValue raw f /\
    PciAccessor.read a g m1 = (Ok (dwToFieldValue raw g), m1).
Proof.
  intros Halign Hoff Hread.
  destruct (PciAccessor.offsetCache a m !! offset f) as [raw|] eqn:E.
  - rewrite (read_hit _ _ _ _ E) in Hread. injection Hread as <- <-.
    exists raw. split; [exact E|]. split; [reflexivity|].
    apply read_hit. rewrite Hoff. exact E.
  - rewrite (read_miss _ _ _ E Halign) in Hread. injection Hread as <- <-.
    exists (rawAt (fieldAddr a f) (ports m)).
    assert (Hc : PciAccessor.offsetCache a
                   (withCache a (<[offset f := rawAt (fieldAddr a f) (ports m)]>
                                   (PciAccessor.offsetCache a m))
                              (afterRead32 (fieldAddr a f) (ports m)) m)
                 !! offset f = Some (rawAt (fieldAddr a f) (ports m))).
    { rewrite offsetCache_withCache. apply lookup_insert_eq. }
    split; [exact Hc|]. split; [reflexivity|].
    apply read_hit. rewrite Hoff. exact Hc.
Qed.

Lemma read_shares_dword_witness :
  exists raw,
    PciAccessor.offsetCache (0, 5, 0)
      (PciAccessor.read (0, 5, 0) fields.VENDOR_ID Sim.machine).2
      !! offset fields.VENDOR_ID = Some raw /\
    0x8086 = dwToFieldValue raw fields.VENDOR_ID /\
    PciAccessor.read (0, 5, 0) fields.DEVICE_ID
      (PciAccessor.read (0, 5, 0) fields.VENDOR_ID Sim.machine).2
    = (Ok (dwToFieldValue raw fields.DEVICE_ID),
       (PciAccessor.read (0, 5, 0) fields.VENDOR_ID Sim.machine).2).
Proof.
  apply (read_shares_dword (0, 5, 0) fields.VENDOR_ID fields.DEVICE_ID Sim.machine);
    reflexivity.
Defined.

(** X3. A read of a field whose offset is not a multiple of 4 and whose
    dword is not cached throws the alignment error and leaves the machine as
    it is: nothing is sent to the ports and nothing is cached. *)
Theorem read_unaligned a f m :
  PciAccessor.offsetCache a m !! offset f = None ->
  JS.rem (offset f) sizeof.UINT32 <> 0 ->
  PciAccessor.read a f m = (Throw AlignmentError, m).
Proof.
  intros Hc Ha. unfold PciAccessor.read, bind, gets, onPorts, zoom.
  rewrite Hc. unfold readRaw32.
  destruct (Z.eqb_spec (JS.rem (offset f) sizeof.UINT32) 0) as [?|_]; [contradiction|].
  unfold throw. rewrite machine_eta. reflexivity.
Qed.

Lemma read_unaligned_witness :
  PciAccessor.read (0, 5, 0) (mkField 0x0d 0 0xff) Sim.machine
  = (Throw AlignmentError, Sim.machine).
Proof.
  apply (read_unaligned (0, 5, 0) (mkField 0x0d 0 0xff) Sim.machine).
  - reflexivity.
  - vm_compute. discriminate.
Defined.

Lemma onPorts_throw {A} (c : M PortPair A) m e p :
  c (ports m) = (Throw e, p) -> onPorts c m = (Throw e, mkMachine p (accessorCache m)).
Proof. intros H. unfold onPorts, zoom. rewrite H. reflexivity. Qed.

(** X4. A write that throws has sent nothing to the ports, and has already
    dropped the cache entry of the field's offset: the error is the one for
    a mask that is none of 0xff, 0xffff and 0xffffffff, or the alignment
    error of a 16-bit or 32-bit write. *)
Theorem write_throws a f v m e m' :
  PciAccessor.write a f v m = (Throw e, m') ->
  ports m' = ports m /\
  PciAccessor.offsetCache a m' !! offset f = None /\
  (e = InvalidFieldMask \/ e = AlignmentError).
Proof.
  intros Hw.
  pose proof (write_evicts a f v m) as Hev. rewrite Hw in Hev. cbn [snd] in Hev.
  split; [|split; [exact Hev|]]; revert Hw; rewrite write_evicts_first;
    unfold onPorts, zoom, PciAccessor.writeRaw32, PciAccessor.writeRaw16,
      PciAccessor.writeRaw8, PciAccessor.updCache, throw, bind, setPort,
      addressPort.write32, dataPort.write32, dataPort.write16, dataPort.write8,
      dataPort.write, modify;
    cbn [ports accessorCache];
    repeat match goal with
           | |- context [if ?c then _ else _] => destruct c
           end;
    intros H; inversion H; subst; auto.
Qed.

Lemma write_throws_witness :
  ports (PciAccessor.write (0, 5, 0) (mkField 0x04 1 0xffff) 7 Sim.machine).2
  = ports Sim.machine /\
  PciAccessor.offsetCache (0, 5, 0)
    (PciAccessor.write (0, 5, 0) (mkField 0x04 1 0xffff) 7 Sim.machine).2
    !! offset (mkField 0x04 1 0xffff) = None /\
  (AlignmentError = InvalidFieldMask \/ AlignmentError = AlignmentError).
Proof.
  apply (write_throws (0, 5, 0) (mkField 0x04 1 0xffff) 7 Sim.machine).
  reflexivity.
Defined.

End AccessorMore.

(** ** The accessor factory *)

Section Factory.

Implicit Types (m : Machine) (address : PciAddress).

Lemma get_outcome address m r m1 :
  pciAccessorFactory.get address m = (r, m1) ->
  ports m1 = ports m /\
  (forall a, PciAccessor.offsetCache a m1 = PciAccessor.offsetCache a m) /\
  (r = Ok (addressHash address) /\ is_Some (accessorCache m1 !! addressHash address) \/
   r = Throw InvalidAddress /\ m1 = m /\ accessorCache m !! addressHash address = None).
Proof.
  unfold pciAccessorFactory.get, bind, gets, ret, modify, PciAccessor.validate, throw.
  destruct (accessorCache m !! addressHash address) as [c|] eqn:E.
  - intros H. injection H as <- <-. split; [reflexivity|]. split; [reflexivity|].
    left. rewrite E. eauto.
  - repeat match goal with
           | |- context [if ?c then _ else _] => destruct c
           end;
      intros H; injection H as <- <-; try (split; [reflexivity|split; [reflexivity|auto]]).
    cbn [ports accessorCache]. split; [reflexivity|]. split.
    + intros a. unfold PciAccessor.offsetCache. cbn [accessorCache].
      destruct (decide (addressHash address = a)) as [<-|Hne].
      * rewrite lookup_insert_eq, E. reflexivity.
      * rewrite lookup_insert_ne by exact Hne. reflexivity.
    + left. split; [reflexivity|]. rewrite lookup_insert_eq. eauto.
Qed.

(** X5. The factory memoizes: when [get] has returned an accessor for an
    address, the accessor is the one keyed by the address, the ports and
    every cached dword of every accessor are as before, and a second [get]
    of the address returns the same accessor and changes nothing. *)
Theorem get_memoizes address m key m1 :
  pciAccessorFactory.get address m = (Ok key, m1) ->
  key = addressHash address /\
  ports m1 = ports m /\
  (forall a, PciAccessor.offsetCache a m1 = PciAccessor.offsetCache a m) /\
  pciAccessorFactory.get address m1 = (Ok key, m1).
Proof.
  intros Hget. destruct (get_outcome _ _ _ _ Hget) as (Hp & Hc & [[Hr Hin]|[Hr _]]);
    [|discriminate].
  injection Hr as ->. split; [reflexivity|]. split; [exact Hp|]. split; [exact Hc|].
  destruct Hin as [c Hin].
  unfold pciAccessorFactory.get, bind, gets. rewrite Hin. reflexivity.
Qed.

Lemma get_memoizes_witness :
  (0, 5, 0) = addressHash (mkAddr 0 5 0) /\
  ports (pciAccessorFactory.get (mkAddr 0 5 0) Sim.machine).2 = ports Sim.machine /\
  (forall a,
     PciAccessor.offsetCache a (pciAccessorFactory.get (mkAddr 0 5 0) Sim.machine).2
     = PciAccessor.offsetCache a Sim.machine) /\
  pciAccessorFactory.get (mkAddr 0 5 0)
    (pciAccessorFactory.get (mkAddr 0 5 0) Sim.machine).2
  = (Ok (0, 5, 0), (pciAccessorFactory.get (mkAddr 0 5 0) Sim.machine).2).
Proof.
  apply (get_memoizes (mkAddr 0 5 0) Sim.machine). reflexivity.
Defined.

(** X6. The factory makes no accessor for an address out of range: when no
    accessor is cached for the address and, after [>>> 0], the bus exceeds
    255, the slot 31 or the function 7, [get] throws and the machine is as
    before, so that the next [get] of the address throws again. *)
Theorem get_invalid address m :
  accessorCache m !! addressHash address = None ->
  255 < JS.ushr (bus address) 0 \/ 31 < JS.ushr (slot address) 0 \/
  7 < JS.ushr (func address) 0 ->
  pciAccessorFactory.get address m = (Throw InvalidAddress, m).
Proof.
  intros Hc Hbad. unfold pciAccessorFactory.get, bind, gets. rewrite Hc.
  unfold PciAccessor.validate, PciAccessor.abus, PciAccessor.aslot,
    PciAccessor.afunc, addressHash, throw. cbn [fst snd].
  destruct (Z.ltb_spec 255 (JS.ushr (bus address) 0)); [reflexivity|].
  destruct (Z.ltb_spec 31 (JS.ushr (slot address) 0)); [reflexivity|].
  destruct (Z.ltb_spec 7 (JS.ushr (func address) 0)); [reflexivity|].
  lia.
Qed.

Lemma get_invalid_witness :
  pciAccessorFactory.get (mkAddr 0 (-1) 0) Sim.machine
  = (Throw InvalidAddress, Sim.machine).
Proof.
  apply (get_invalid (mkAddr 0 (-1) 0) Sim.machine).
  - reflexivity.
  - right. left. vm_compute. reflexivity.
Defined.

(** X7. [exists] is an uncached probe of the vendor id: it selects dword 0
    of the function and reads it, whatever the accessors have cached, leaves
    the caches alone and never throws; its answer is true exactly when the
    low 16 bits of the dword are not 0xffff. *)
Theorem exists_probe bus slot func m :
  pciAccessorFactory.exists_ bus slot func m =
  (Ok (negb (Z.land (rawAt (portAddr bus slot func 0) (ports m)) 0xffff =? 0xffff)),
   mkMachine (afterRead32 (portAddr bus slot func 0) (ports m)) (accessorCache m)).
Proof.
  unfold pciAccessorFactory.exists_, bind, onPorts, zoom.
  change (offset fields.VENDOR_ID) with 0.
  rewrite readRaw32_aligned by reflexivity. unfold ret.
  rewrite (dwToFieldValue_low _ fields.VENDOR_ID 16)
    by (try reflexivity; try lia; apply rawAt_range).
  change (Z.ones 16) with 0xffff. rewrite (Z.eqb_sym 0xffff). reflexivity.
Qed.

End Factory.

(** ** Decoding and the round trip of a field *)

Section FieldMore.

(** X8. The decoding of a field: for a 32-bit dword, a shift of 0 to 3
    bytes and a mask of [n] low bits, [dwToFieldValue] is the dword shifted
    right by [8 * shift] bits and cut to [n] bits, a value from 0 to the
    mask. *)
Theorem dwToFieldValue_bits raw (f : Field) n :
  0 <= shift f <= 3 -> mask f = Z.ones n -> 0 < n <= 32 -> 0 <= raw < 2 ^ 32 ->
  dwToFieldValue raw f = Z.land (Z.shiftr raw (8 * shift f)) (Z.ones n) /\
  0 <= dwToFieldValue raw f <= mask f.
Proof.
  intros Hs Hm Hn Hr. rewrite (dwToFieldValue_spec raw f n Hs Hm Hn Hr).
  split; [reflexivity|]. rewrite Hm, Z.land_ones, Z.ones_equiv by lia.
  pose proof (Z.mod_pos_bound (Z.shiftr raw (8 * shift f)) (2 ^ n) ltac:(lia)). lia.
Qed.

Lemma dwToFieldValue_bits_witness :
  dwToFieldValue 0x100e8086 fields.DEVICE_ID
  = Z.land (Z.shiftr 0x100e8086 (8 * shift fields.DEVICE_ID)) (Z.ones 16) /\
  0 <= dwToFieldValue 0x100e8086 fields.DEVICE_ID <= mask fields.DEVICE_ID.
Proof.
  apply (dwToFieldValue_bits 0x100e8086 fields.DEVICE_ID 16);
    try reflexivity; cbn; lia.
Defined.

(** A data-port write that covers the low lanes of a dword leaves the bits
    above them as they were. *)
Lemma store_above (r : Reg) v n s k :
  0 < n -> n <= 8 * s ->
  Z.land (Z.shiftr (Z.land (value (store (Z.ones n) v r)) 0xffffffff) (8 * s))
         (Z.ones k) =
  Z.land (Z.shiftr (Z.land (value r) 0xffffffff) (8 * s)) (Z.ones k).
Proof.
  intros Hn Hs. unfold store. cbn [value wmask].
  apply Z.bits_inj'. intros i Hi.
  repeat rewrite ?Z.land_spec, ?Z.shiftr_spec, ?Z.lor_spec, ?Z.lnot_spec,
    ?testbit_ones32 by lia.
  rewrite (Z.testbit_ones_nonneg n (i + 8 * s)) by lia.
  destruct (Z.ltb_spec (i + 8 * s) n); [lia|].
  rewrite !andb_false_r. cbn [negb]. rewrite andb_true_r, orb_false_r.
  reflexivity.
Qed.

(** The machine after the write of a field at shift 0. *)
Lemma write_shift0 (a : Key) (f : Field) v (m : Machine) n :
  shift f = 0 -> mask f = Z.ones n -> n = 8 \/ n = 16 \/ n = 32 ->
  JS.rem (offset f) sizeof.UINT32 = 0 ->
  exists e v',
    PciAccessor.write a f v m =
      (Ok tt,
       withCache a (delete (offset f) (PciAccessor.offsetCache a m))
                 (afterWrite (Z.ones n) e (fieldAddr a f) v' (ports m)) m).
Proof.
  intros Hs Hm Hn Halign.
  assert (Hrem2 : JS.rem (offset f + shift f) sizeof.UINT16 = 0).
  { rewrite Hs, Z.add_0_r. unfold JS.rem, sizeof.UINT32, sizeof.UINT16 in *.
    revert Halign. Z.to_euclidean_division_equations. lia. }
  assert (Haddr : portAddr (PciAccessor.abus a) (PciAccessor.aslot a)
                           (PciAccessor.afunc a) (offset f + shift f)
                  = fieldAddr a f)
    by (unfold fieldAddr; rewrite Hs, Z.add_0_r; reflexivity).
  destruct Hn as [->|[->| ->]].
  - rewrite (write8_spec a f v m Hm), Haddr. eauto.
  - rewrite (write16_spec a f v m Hm Hrem2), Haddr. eauto.
  - rewrite (write32_spec a f v m Hm Halign). eauto.
Qed.

(** After the write of a field at shift 0, a field of the same dword that
    lies above the written bytes reads what it held before. *)
Lemma read_above_after_write (a : Key) (f g : Field) v (r : Reg) (m : Machine) n k :
  shift f = 0 ->
  mask f = Z.ones n -> n = 8 \/ n = 16 \/ n = 32 ->
  JS.rem (offset f) sizeof.UINT32 = 0 ->
  cfg (ports m) !! fieldAddr a f = Some r ->
  offset g = offset f -> mask g = Z.ones k -> 0 < k <= 32 ->
  n <= 8 * shift g -> shift g <= 3 ->
  exists m3,
    PciAccessor.read a g (PciAccessor.write a f v m).2 =
      (Ok (dwToFieldValue (Z.land (value r) 0xffffffff) g), m3).
Proof.
  intros Hs Hm Hn Halign Hr Hoff Hmg Hk Hlanes Hs3.
  destruct (write_shift0 a f v m n Hs Hm Hn Halign) as (e & v' & Hwrite).
  rewrite Hwrite. cbn [snd].
  assert (Hga : fieldAddr a g = fieldAddr a f)
    by (unfold fieldAddr; rewrite Hoff; reflexivity).
  rewrite read_miss;
    [|rewrite offsetCache_withCache, Hoff; apply lookup_delete_eq
     |rewrite Hoff; exact Halign].
  eexists. f_equal. f_equal.
  assert (Hold : 0 <= Z.land (value r) 0xffffffff < 2 ^ 32).
  { change 0xffffffff with (Z.ones 32). rewrite Z.land_ones by lia.
    apply Z.mod_pos_bound. lia. }
  rewrite !(dwToFieldValue_spec _ g k) by (auto using rawAt_range; lia).
  rewrite ports_withCache, Hga. unfold rawAt, afterWrite, dwordAt. cbn [cfg].
  rewrite lookup_alter_eq, Hr. cbn [fmap option_fmap option_map].
  apply store_above; lia.
Qed.

(** X9. The round trip of a field at shift 0.  When the dword of the
    field is in the space and the bits of the field are writable, [write]
    succeeds, a [read] of the field then returns the value cut to the mask
    of the field, whatever the accessor had cached for the offset, and a
    [read] of a field of the same dword that lies above the written bytes
    returns what that field held before the write. *)
Theorem write_then_read (a : Key) (f : Field) v (r : Reg) (m : Machine) n :
  shift f = 0 ->
  mask f = Z.ones n -> n = 8 \/ n = 16 \/ n = 32 ->
  JS.rem (offset f) sizeof.UINT32 = 0 ->
  cfg (ports m) !! fieldAddr a f = Some r ->
  Z.land (wmask r) (mask f) = mask f ->
  exists m1,
    PciAccessor.write a f v m = (Ok tt, m1) /\
    (exists m2, PciAccessor.read a f m1 = (Ok (Z.land v (mask f)), m2)) /\
    (forall (g : Field) k,
       offset g = offset f -> mask g = Z.ones k -> 0 < k <= 32 ->
       n <= 8 * shift g -> shift g <= 3 ->
       exists m3,
         PciAccessor.read a g m1 =
           (Ok (dwToFieldValue (Z.land (value r) 0xffffffff) g), m3)).
Proof.
  intros Hs Hm Hn Halign Hr Hw.
  destruct (write_read_roundtrip a f v r m Hs) as (m1 & m2 & Hw1 & Hread);
    try assumption.
  { rewrite Hm. destruct Hn as [->|[->| ->]]; auto. }
  exists m1. split; [exact Hw1|]. split; [eauto|].
  intros g k Hoff Hmg Hk Hlanes Hs3.
  destruct (read_above_after_write a f g v r m n k) as (m3 & Hg); try assumption.
  rewrite Hw1 in Hg. eauto.
Qed.

Lemma write_then_read_witness :
  exists m1,
    PciAccessor.write (0, 5, 0) fields.COMMAND 0x10007
      (PciAccessor.read (0, 5, 0) fields.STATUS Sim.machine).2 = (Ok tt, m1) /\
    (exists m2, PciAccessor.read (0, 5, 0) fields.COMMAND m1
                = (Ok (Z.land 0x10007 (mask fields.COMMAND)), m2)) /\
    (forall (g : Field) k,
       offset g = offset fields.COMMAND -> mask g = Z.ones k -> 0 < k <= 32 ->
       16 <= 8 * shift g -> shift g <= 3 ->
       exists m3,
         PciAccessor.read (0, 5, 0) g m1 =
           (Ok (dwToFieldValue (Z.land (value (mkReg 0x02100000 0xffff)) 0xffffffff) g),
            m3)).
Proof.
  apply (write_then_read (0, 5, 0) fields.COMMAND 0x10007 (mkReg 0x02100000 0xffff)
           (PciAccessor.read (0, 5, 0) fields.STATUS Sim.machine).2 16);
    try reflexivity.
  right. left. reflexivity.
Defined.

End FieldMore.

(** ** The registry: adding and finding devices *)

Section RegistryMore.

Implicit Types (d : PciDevice) (m : Machine) (devicesMap : Registry).

Lemma lookup_app_None key devicesMap (tl : Registry) :
  pciManager.lookup key devicesMap = None ->
  pciManager.lookup key (devicesMap ++ tl) = pciManager.lookup key tl.
Proof.
  induction devicesMap as [|[k d] rest IH]; cbn [pciManager.lookup app].
  - reflexivity.
  - destruct (decide (k = key)); [discriminate|exact IH].
Qed.

Lemma lookup_app_Some key devicesMap (tl : Registry) d :
  pciManager.lookup key devicesMap = Some d ->
  pciManager.lookup key (devicesMap ++ tl) = Some d.
Proof.
  induction devicesMap as [|[k d'] rest IH]; cbn [pciManager.lookup app].
  - discriminate.
  - destruct (decide (k = key)); [auto|exact IH].
Qed.

(** The constructor never throws, and what it builds. *)
Lemma new_total (address : PciAddress) (acc : Key) m :
  exists d m',
    Device.new address acc m = (Ok d, m') /\
    dev_address d = address /\ pciAccessor d = acc /\
    acpiDevice d = None /\ irqVector d = None.
Proof.
  unfold Device.new.
  destruct (read_total acc fields.VENDOR_ID m eq_refl) as (v & m1 & H1).
  destruct (read_total acc fields.DEVICE_ID m1 eq_refl) as (i & m2 & H2).
  destruct (read_total acc fields.HEADER_TYPE m2 eq_refl) as (h & m3 & H3).
  unfold bind. rewrite H1, H2, H3. unfold ret. eexists _, _.
  split; [reflexivity|]. cbn. auto.
Qed.

(** X10. [addDevice] and [findDevice].  On an address that the registry
    already holds, [addDevice] throws and leaves registry and machine as
    they are, without building a device.  On any other address it returns
    normally, the device it built with the constructor goes to the end of
    the registry, with neither ACPI handle nor IRQ vector, [findDevice] of
    the address then returns that device, and [findDevice] of every other
    address answers as before. *)
Theorem addDevice_findDevice (address : PciAddress) (acc : Key) devicesMap m :
  match pciManager.findDevice address devicesMap with
  | Some _ =>
      pciManager.addDevice address acc (devicesMap, m)
      = (Throw DuplicateDevice, (devicesMap, m))
  | None =>
      exists d m',
        Device.new address acc m = (Ok d, m') /\
        acpiDevice d = None /\ irqVector d = None /\
        pciManager.addDevice address acc (devicesMap, m)
        = (Ok tt, (devicesMap ++ [(addressHash address, d)], m')) /\
        pciManager.findDevice address (devicesMap ++ [(addressHash address, d)])
        = Some d /\
        forall other,
          addressHash other <> addressHash address ->
          pciManager.findDevice other (devicesMap ++ [(addressHash address, d)])
          = pciManager.findDevice other devicesMap
  end.
Proof.
  unfold pciManager.findDevice, pciManager.addDevice, bind, gets. cbn [fst].
  destruct (pciManager.lookup (addressHash address) devicesMap) as [d0|] eqn:E.
  - reflexivity.
  - destruct (new_total address acc m) as (d & m' & Hnew & _ & _ & Hacpi & Hirq).
    exists d, m'. split; [exact Hnew|]. split; [exact Hacpi|]. split; [exact Hirq|].
    unfold zoom, modify. cbn [fst snd]. rewrite Hnew. split; [reflexivity|]. split.
    + rewrite (lookup_app_None _ _ _ E). cbn [pciManager.lookup].
      destruct (decide (addressHash address = addressHash address)); [reflexivity|].
      contradiction.
    + intros other Hne.
      destruct (pciManager.lookup (addressHash other) devicesMap) as [d1|] eqn:E1.
      * apply lookup_app_Some, E1.
      * rewrite (lookup_app_None _ _ _ E1). cbn [pciManager.lookup].
        destruct (decide (addressHash address = addressHash other)); [|reflexivity].
        congruence.
Qed.

End RegistryMore.

(** ** Device methods: the kind of the device and the index of a BAR *)

Section DeviceMore.

Implicit Types (d : PciDevice) (m : Machine).

Lemma ushr0_idem x : JS.ushr (JS.ushr x 0) 0 = JS.ushr x 0.
Proof. apply ushr0_small, ushr0_range. Qed.

Lemma getBAR_wraps d index m :
  Device.getBAR d index m = Device.getBAR d (JS.ushr index 0) m.
Proof. unfold Device.getBAR. rewrite ushr0_idem. reflexivity. Qed.

(** X11. When [getBAR] returns.  On a bridge it throws the error for the
    wrong kind of device, whatever the index; on a general device it throws
    the error for the index when the index, as an unsigned 32-bit number,
    exceeds 5; in both cases the machine is left as it is.  In every other
    case, an index that is 0 to 5 modulo 2^32 on a general device, it
    returns normally, with the result of that index from 0 to 5. *)
Theorem getBAR_accepts d index m :
  (isBridge d = true ->
   Device.getBAR d index m = (Throw WrongDeviceKind, m)) /\
  (isBridge d = false -> 5 < index mod 2 ^ 32 ->
   Device.getBAR d index m = (Throw InvalidBarIndex, m)) /\
  (isBridge d = false -> index mod 2 ^ 32 <= 5 ->
   Device.getBAR d index m = Device.getBAR d (index mod 2 ^ 32) m /\
   exists result m', Device.getBAR d index m = (Ok result, m')).
Proof.
  split; [|split].
  - intros Hb. unfold Device.getBAR. rewrite Hb. reflexivity.
  - intros Hb Hi. unfold Device.getBAR. rewrite Hb, ushr0. unfold JS.toUint32.
    destruct (Z.ltb_spec 5 (index mod 2 ^ 32)); [reflexivity|lia].
  - intros Hb Hi. rewrite getBAR_wraps, ushr0. unfold JS.toUint32.
    split; [reflexivity|].
    apply getBAR_total; [exact Hb|].
    pose proof (Z.mod_pos_bound index (2 ^ 32) ltac:(lia)). lia.
Qed.

(** X12. The methods that belong to one kind of device.  On a bridge
    [interruptPin] and [subsystemData] throw, on a general device
    [getSecondaryBus] throws, each leaving the machine as it is; on the
    other kind each of them returns normally. *)
Theorem kind_checks d m :
  (isBridge d = true ->
   Device.interruptPin d m = (Throw WrongDeviceKind, m) /\
   Device.subsystemData d m = (Throw WrongDeviceKind, m) /\
   exists bus m', Device.getSecondaryBus d m = (Ok bus, m')) /\
  (isBridge d = false ->
   Device.getSecondaryBus d m = (Throw WrongDeviceKind, m) /\
   (exists pin m', Device.interruptPin d m = (Ok pin, m')) /\
   (exists data m', Device.subsystemData d m = (Ok data, m'))).
Proof.
  split; intros Hb.
  - unfold Device.interruptPin, Device.subsystemData, Device.getSecondaryBus.
    rewrite Hb. split; [reflexivity|]. split; [reflexivity|].
    cbn [negb]. apply read_total. reflexivity.
  - unfold Device.getSecondaryBus. rewrite Hb. split; [reflexivity|].
    split; [apply interruptPin_total, Hb|]. apply subsystemData_total, Hb.
Qed.

End DeviceMore.

(** ** Memory BARs, BARs that read zero, and the command register *)

Section BarMore.

Implicit Types (d : PciDevice) (m : Machine).

Lemma land_fff0 x : Z.land x 0xfffffff0 = Z.land (Z.land x (Z.lnot 15)) 0xffffffff.
Proof.
  change 0xfffffff0 with (Z.land (Z.lnot 15) 0xffffffff).
  apply Z.land_assoc.
Qed.

(** [x & 0xfffffff0] as a signed 32-bit number is congruent to the low 32
    bits of [x] without the low four. *)
Lemma and_fff0 x :
  0 <= x < 2 ^ 32 -> exists k, JS.and x 0xfffffff0 = Z.land x 0xfffffff0 + k * 2 ^ 32.
Proof.
  intros Hx. unfold JS.and. change (JS.toInt32 0xfffffff0) with (Z.lnot 15).
  destruct (toInt32_congr x) as [k Hk].
  change 15 with (Z.ones 4). rewrite <- !Z.ldiff_land, !Z.ldiff_ones_r by lia.
  rewrite land_fff0. change 15 with (Z.ones 4).
  rewrite <- !Z.ldiff_land, !Z.ldiff_ones_r by lia.
  change 0xffffffff with (Z.ones 32). rewrite Z.land_ones by lia.
  rewrite !Z.shiftr_div_pow2, !Z.shiftl_mul_pow2 by lia.
  rewrite Hk. change (2 ^ 4) with 16.
  replace ((x + k * 2 ^ 32) / 16) with (x / 16 + k * 2 ^ 28).
  2:{ replace (k * 2 ^ 32) with (k * 2 ^ 28 * 16) by lia.
      rewrite Z.div_add by lia. reflexivity. }
  exists k. rewrite Z.mod_small.
  - lia.
  - pose proof (Z.div_mod x 16 ltac:(lia)).
    pose proof (Z.mod_pos_bound x 16 ltac:(lia)). lia.
Qed.

Lemma mem32_base_eq barAddr :
  0 <= barAddr < 2 ^ 32 ->
  JS.ushr (JS.and barAddr 0xfffffff0) 0 = mem32Base barAddr.
Proof.
  intros Hr. destruct (and_fff0 barAddr Hr) as [k Hk].
  rewrite Hk, ushr0. unfold JS.toUint32, mem32Base.
  rewrite Z_mod_plus_full. apply Z.mod_small.
  rewrite land_fff0. change 0xffffffff with (Z.ones 32).
  rewrite Z.land_ones by lia. apply Z.mod_pos_bound. lia.
Qed.

Lemma mem32_size_eq barSize :
  0 <= barSize < 2 ^ 32 ->
  JS.ushr (JS.and (JS.ushr (JS.not (JS.and barSize 0xfffffff0)) 0 + 1) 0xffffffff) 0
  = mem32Size barSize.
Proof.
  intros Hr. destruct (and_fff0 barSize Hr) as [k Hk].
  unfold JS.not. destruct (toInt32_congr (JS.and barSize 0xfffffff0)) as [k1 Hk1].
  rewrite (ushr0 (Z.lnot _)).
  unfold JS.and at 1. change (JS.toInt32 0xffffffff) with (-1).
  rewrite Z.land_m1_r.
  destruct (toInt32_congr (JS.toUint32 (Z.lnot (JS.toInt32 (JS.and barSize 0xfffffff0))) + 1))
    as [k2 Hk2].
  rewrite ushr0. unfold JS.toUint32 at 1. rewrite Hk2, Z_mod_plus_full.
  unfold JS.toUint32. rewrite Zplus_mod_idemp_l.
  unfold Z.lnot. rewrite Hk1, Hk. unfold mem32Size.
  replace (Z.pred (- (Z.land barSize 4294967280 + k * 2 ^ 32 + k1 * 2 ^ 32)) + 1)
    with (- Z.land barSize 4294967280 + (- k - k1) * 2 ^ 32) by lia.
  apply Z_mod_plus_full.
Qed.

Lemma decodeBAR_mem32 barAddr barSize :
  0 <= barAddr < 2 ^ 32 -> 0 <= barSize < 2 ^ 32 ->
  barSize <> 0 ->
  Z.testbit barAddr 0 = false ->
  Z.testbit barAddr 2 = false ->
  Device.decodeBAR barAddr barSize
  = mem32Descriptor (mem32Base barAddr) (mem32Size barSize).
Proof.
  intros Ha Hs Hnz H0 H2. unfold Device.decodeBAR, mem32Descriptor.
  destruct (Z.eqb_spec barSize 0) as [?|_]; [contradiction|].
  change barFlag.BAR_64 with (2 ^ 2). change barFlag.BAR_IO with (2 ^ 0).
  rewrite !and_flag_testbit, H0, H2 by lia. cbn [negb].
  rewrite mem32_base_eq, mem32_size_eq by assumption.
  rewrite (Z.eqb_sym 0 (mem32Size barSize)).
  destruct (mem32Size barSize =? 0); reflexivity.
Qed.

(** X13. A 32-bit memory BAR.  On a general device, for an index from 0 to
    5 whose BAR reads nonzero with bits 0 and 2 clear and whose probe
    response is nonzero, [getBAR] returns the [mem32] descriptor of base
    [addr & 0xfffffff0] and size [(~(response & 0xfffffff0) + 1) mod 2^32]
    with the memory block of that base and size, or null when that size
    is 0. *)
Theorem getBAR_mem32 d index m barField barAddr m1 :
  isBridge d = false ->
  0 <= index <= 5 ->
  generalFields.BAR !! Z.to_nat index = Some barField ->
  PciAccessor.read (pciAccessor d) barField m = (Ok barAddr, m1) ->
  barAddr <> 0 ->
  Z.testbit barAddr 0 = false ->
  Z.testbit barAddr 2 = false ->
  exists barSize m2,
    probeResponse (pciAccessor d) barField barAddr m1 = (Ok barSize, m2) /\
    (barSize <> 0 ->
     Device.getBAR d index m =
       (Ok (mem32Descriptor (mem32Base barAddr) (mem32Size barSize)), m2)).
Proof.
  intros Hb Hi Hf Hread Hnz H0 H2.
  destruct (getBAR_decode _ _ _ _ _ _ Hb Hi Hf Hread Hnz)
    as (barSize & m2 & Hprobe & Hget).
  exists barSize, m2. split; [exact Hprobe|]. intros Hsz.
  pose proof (read_range _ _ _ _ _ Hread) as Hra.
  destruct (BAR_field _ _ Hf) as (Hmask & _ & Halign).
  rewrite (probeResponse_spec _ _ _ _ Hmask Halign Hra) in Hprobe.
  injection Hprobe as Hsize _.
  assert (Hrs : 0 <= barSize < 2 ^ 32) by (rewrite <- Hsize; apply ushr0_range).
  rewrite Hget, (decodeBAR_mem32 _ _ Hra Hrs Hsz H0 H2). reflexivity.
Qed.

Lemma getBAR_mem32_witness :
  exists barSize m2,
    probeResponse (pciAccessor Sim.nic) (mkField 0x10 0 0xffffffff) 0xfe000000
      (PciAccessor.read (pciAccessor Sim.nic) (mkField 0x10 0 0xffffffff)
                        Sim.machine).2
    = (Ok barSize, m2) /\
    (barSize <> 0 ->
     Device.getBAR Sim.nic 0 Sim.machine =
       (Ok (mem32Descriptor (mem32Base 0xfe000000) (mem32Size barSize)), m2)).
Proof.
  apply (getBAR_mem32 Sim.nic 0 Sim.machine (mkField 0x10 0 0xffffffff) 0xfe000000);
    try reflexivity; lia.
Defined.

(** X14. A BAR that reads zero is not probed.  On a general device, for an
    index from 0 to 5 whose BAR dword is 0 in the space (the accessor's
    cache agreeing with the space), [getBAR] returns null, the space is
    untouched and nothing was written to the data port: the port traffic of
    the call is at most the fetch of the BAR. *)
Theorem getBAR_zero d index m barField :
  isBridge d = false ->
  0 <= index <= 5 ->
  generalFields.BAR !! Z.to_nat index = Some barField ->
  coherentAt (pciAccessor d) barField m ->
  rawAt (fieldAddr (pciAccessor d) barField) (ports m) = 0 ->
  exists m',
    Device.getBAR d index m = (Ok None, m') /\
    quiet m m' /\
    coherentAt (pciAccessor d) barField m'.
Proof.
  intros Hb Hi Hf Hcoh Hzero.
  destruct (BAR_field _ _ Hf) as (Hmask & Hshift & Halign).
  assert (Hraw : dwToFieldValue 0 barField = 0)
    by (apply dwToFieldValue_dword; auto; lia).
  destruct (PciAccessor.offsetCache (pciAccessor d) m !! offset barField) as [v|] eqn:E.
  - pose proof (read_hit _ _ _ _ E) as Hread.
    rewrite (Hcoh v E), Hzero, Hraw in Hread.
    exists m. split; [apply (getBAR_absent _ _ _ _ _ Hb Hi Hf Hread)|].
    split; [|exact Hcoh].
    split; [reflexivity|]. exists []. rewrite app_nil_r. split; reflexivity.
  - pose proof (read_miss _ _ _ E Halign) as Hread.
    rewrite Hzero, Hraw in Hread.
    eexists. split; [apply (getBAR_absent _ _ _ _ _ Hb Hi Hf Hread)|].
    split.
    + unfold quiet. rewrite ports_withCache. unfold afterRead32. cbn [cfg trace].
      split; [reflexivity|]. eexists. split; reflexivity.
    + eapply read_coherent; [exact Halign|exact Hcoh|].
      rewrite (read_miss _ _ _ E Halign), Hzero. reflexivity.
Qed.

Lemma getBAR_zero_witness :
  exists m',
    Device.getBAR Sim.nic 4 Sim.machine = (Ok None, m') /\
    quiet Sim.machine m' /\
    coherentAt (pciAccessor Sim.nic) (mkField 0x20 0 0xffffffff) m'.
Proof.
  apply (getBAR_zero Sim.nic 4 Sim.machine (mkField 0x20 0 0xffffffff)).
  - reflexivity.
  - lia.
  - reflexivity.
  - apply coherentAt_fresh. reflexivity.
  - reflexivity.
Defined.

End BarMore.

(** ** The command register *)

Section Command.

Implicit Types (d : PciDevice) (m : Machine).

Lemma commandFlag_value old flag :
  0 <= old < 2 ^ 16 -> 0 <= flag <= 15 ->
  Z.land (JS.or old (JS.ushr (JS.shl 1 flag) 0)) 0xffff = Z.lor old (2 ^ flag).
Proof.
  intros Ho Hf.
  assert (Hp : 0 < 2 ^ flag < 2 ^ 16).
  { split; [apply Z.pow_pos_nonneg; lia|apply Z.pow_lt_mono_r; lia]. }
  rewrite (shl_small 1 flag) by lia. rewrite Z.mul_1_l.
  rewrite ushr0_small by lia. rewrite or_small by lia.
  change 0xffff with (Z.ones 16).
  apply Z.bits_inj'. intros i Hi.
  rewrite Z.land_spec, Z.testbit_ones_nonneg by lia.
  destruct (Z.ltb_spec i 16); [apply andb_true_r|].
  rewrite andb_false_r, Z.lor_spec.
  rewrite (testbit_small old 16 i), (testbit_small (2 ^ flag) 16 i) by lia.
  reflexivity.
Qed.

(** X15. [setCommandFlag] on a command register whose 16 bits are
    writable, for a flag from 0 to 15 and an accessor whose cache agrees with
    the space: the call returns normally, the command register then reads
    as its old value with the bit of the flag set, and the status register,
    the other half of the dword, reads as before. *)
Theorem setCommandFlag_sets d flag m (r : Reg) :
  0 <= flag <= 15 ->
  cfg (ports m) !! fieldAddr (pciAccessor d) fields.COMMAND = Some r ->
  Z.land (wmask r) 0xffff = 0xffff ->
  coherentAt (pciAccessor d) fields.COMMAND m ->
  exists m1,
    Device.setCommandFlag d flag m = (Ok tt, m1) /\
    (exists m2, PciAccessor.read (pciAccessor d) fields.COMMAND m1
                = (Ok (Z.lor (Z.land (value r) 0xffff) (2 ^ flag)), m2)) /\
    (exists m3, PciAccessor.read (pciAccessor d) fields.STATUS m1
                = (Ok (dwToFieldValue (Z.land (value r) 0xffffffff) fields.STATUS), m3)).
Proof.
  intros Hflag Hr Hw Hcoh.
  set (a := pciAccessor d) in *.
  assert (Hraw : rawAt (fieldAddr a fields.COMMAND) (ports m)
                 = Z.land (value r) 0xffffffff).
  { unfold rawAt, dwordAt. rewrite Hr. reflexivity. }
  assert (Hold : dwToFieldValue (Z.land (value r) 0xffffffff) fields.COMMAND
                 = Z.land (value r) 0xffff).
  { rewrite (dwToFieldValue_low _ fields.COMMAND 16); try reflexivity; try lia.
    - rewrite <- Z.land_assoc. reflexivity.
    - rewrite <- Hraw. apply rawAt_range. }
  assert (Hread : exists m0,
             PciAccessor.read a fields.COMMAND m = (Ok (Z.land (value r) 0xffff), m0) /\
             cfg (ports m0) = cfg (ports m)).
  { destruct (PciAccessor.offsetCache a m !! offset fields.COMMAND) as [v|] eqn:E.
    - rewrite (read_hit _ _ _ _ E), (Hcoh v E), Hraw, Hold. eauto.
    - rewrite (read_miss _ _ _ E eq_refl), Hraw, Hold. eexists. split; [reflexivity|].
      rewrite ports_withCache. reflexivity. }
  destruct Hread as (m0 & Hread & Hcfg).
  assert (Hr0 : cfg (ports m0) !! fieldAddr a fields.COMMAND = Some r)
    by (rewrite Hcfg; exact Hr).
  assert (Hrange : 0 <= Z.land (value r) 0xffff < 2 ^ 16).
  { change 0xffff with (Z.ones 16). rewrite Z.land_ones by lia.
    apply Z.mod_pos_bound. lia. }
  unfold Device.setCommandFlag. fold a. unfold bind at 1. rewrite Hread.
  set (v := JS.or (Z.land (value r) 0xffff) (JS.ushr (JS.shl 1 flag) 0)).
  destruct (write_read_roundtrip a fields.COMMAND v r m0 eq_refl)
    as (m1 & m2 & Hwrite & Hback); auto.
  exists m1. split; [exact Hwrite|]. split.
  - exists m2. rewrite Hback. unfold v.
    change (mask fields.COMMAND) with 0xffff.
    rewrite (commandFlag_value _ _ Hrange Hflag). reflexivity.
  - destruct (read_above_after_write a fields.COMMAND fields.STATUS v r m0 16 16
                eq_refl eq_refl (or_intror (or_introl eq_refl)) eq_refl Hr0
                eq_refl eq_refl ltac:(lia) ltac:(cbn; lia) ltac:(cbn; lia))
      as (m3 & Hst).
    rewrite Hwrite in Hst. eauto.
Qed.

Lemma setCommandFlag_sets_witness :
  exists m1,
    Device.setCommandFlag Sim.nic commandFlags.BusMaster Sim.machine = (Ok tt, m1) /\
    (exists m2, PciAccessor.read (pciAccessor Sim.nic) fields.COMMAND m1
                = (Ok (Z.lor (Z.land (value (mkReg 0x02100000 0xffff)) 0xffff)
                             (2 ^ commandFlags.BusMaster)), m2)) /\
    (exists m3, PciAccessor.read (pciAccessor Sim.nic) fields.STATUS m1
                = (Ok (dwToFieldValue
                         (Z.land (value (mkReg 0x02100000 0xffff)) 0xffffffff)
                         fields.STATUS), m3)).
Proof.
  apply (setCommandFlag_sets Sim.nic commandFlags.BusMaster Sim.machine
           (mkReg 0x02100000 0xffff)).
  - unfold commandFlags.BusMaster. lia.
  - reflexivity.
  - reflexivity.
  - apply coherentAt_fresh. reflexivity.
Defined.

End Command.

(** ** Operations that only query the configuration space *)

Section Quiet.

Implicit Types (a : Key) (f : Field) (d : PciDevice) (m : Machine).

Lemma quiet_refl m : quiet m m.
Proof. split; [reflexivity|]. exists []. rewrite app_nil_r. split; reflexivity. Qed.

Lemma quiet_trans m1 m2 m3 : quiet m1 m2 -> quiet m2 m3 -> quiet m1 m3.
Proof.
  intros (Hc & ev & Ht & Hq) (Hc' & ev' & Ht' & Hq').
  split; [congruence|]. exists (ev ++ ev'). split.
  - rewrite Ht', Ht, app_assoc. reflexivity.
  - rewrite forallb_app, Hq, Hq'. reflexivity.
Qed.

Lemma quiet_ports m m' : ports m' = ports m -> quiet m m'.
Proof.
  intros H. unfold quiet. rewrite H. split; [reflexivity|].
  exists []. rewrite app_nil_r. split; reflexivity.
Qed.

(** A read, whatever its outcome, only queries the space. *)
Lemma read_quiet a f m r m' : PciAccessor.read a f m = (r, m') -> quiet m m'.
Proof.
  unfold PciAccessor.read, bind, gets, ret.
  destruct (PciAccessor.offsetCache a m !! offset f) as [raw|].
  - intros H. injection H as _ <-. apply quiet_refl.
  - unfold onPorts, zoom, readRaw32.
    destruct (JS.rem (offset f) sizeof.UINT32 =? 0).
    + unfold bind, setPort, addressPort.write32, dataPort.read32, modify, emit,
        PciAccessor.updCache.
      cbn [ports accessorCache latch cfg trace].
      intros H. injection H as _ <-. unfold quiet. cbn [ports cfg trace].
      split; [reflexivity|]. eexists. rewrite <- app_assoc. split; reflexivity.
    + unfold throw. intros H. injection H as _ <-. apply quiet_ports. reflexivity.
Qed.

Lemma get_quiet (address : PciAddress) m r m' :
  pciAccessorFactory.get address m = (r, m') -> quiet m m'.
Proof. intros H. apply quiet_ports. apply (get_outcome _ _ _ _ H). Qed.

Lemma interruptPin_quiet d m r m' : Device.interruptPin d m = (r, m') -> quiet m m'.
Proof.
  unfold Device.interruptPin. destruct (isBridge d).
  - unfold throw. intros H. injection H as _ <-. apply quiet_refl.
  - apply read_quiet.
Qed.

Lemma getSecondaryBus_quiet d m r m' :
  Device.getSecondaryBus d m = (r, m') -> quiet m m'.
Proof.
  unfold Device.getSecondaryBus. destruct (negb (isBridge d)).
  - unfold throw. intros H. injection H as _ <-. apply quiet_refl.
  - apply read_quiet.
Qed.

(** The resolution of an ACPI node only queries the space, whatever its
    outcome. *)
Lemma locate_quiet (dev : AcpiNode) m r m' :
  locateAcpiDevice dev m = (r, m') -> quiet m m'.
Proof.
  revert m r m'. induction dev as [dev IH] using AcpiNode_chain_ind.
  intros m r m'. rewrite locateAcpiDevice_eq.
  assert (Hret : forall (x : option PciAddress),
            ret x m = (r, m') -> quiet m m').
  { unfold ret. intros x H. injection H as _ <-. apply quiet_refl. }
  destruct (isDevice dev); cbn [negb]; [|apply Hret].
  destruct (isRootBridge dev); [apply Hret|].
  destruct (parent dev) as [parentDev|] eqn:Hp; [|apply Hret].
  destruct (isDevice parentDev); cbn [negb]; [|apply Hret].
  destruct (isRootBridge parentDev); [apply Hret|].
  unfold bind at 1.
  destruct (locateAcpiDevice parentDev m) as [[[loc|]|e] m1] eqn:Hloc;
    pose proof (IH parentDev eq_refl _ _ _ Hloc) as Hq1.
  - unfold bind at 1.
    destruct (pciAccessorFactory.get _ m1) as [[key|e] m2] eqn:Hget;
      pose proof (quiet_trans _ _ _ Hq1 (get_quiet _ _ _ _ Hget)) as Hq2.
    + unfold bind at 1.
      destruct (PciAccessor.read key fields.HEADER_TYPE m2) as [[header|e] m3] eqn:Hh;
        pose proof (quiet_trans _ _ _ Hq2 (read_quiet _ _ _ _ _ Hh)) as Hq3.
      * destruct (negb (1 =? JS.ushr (JS.and header 127) 0) &&
                  negb (2 =? JS.ushr (JS.and header 127) 0)).
        { unfold ret. intros H. injection H as _ <-. exact Hq3. }
        unfold bind.
        destruct (PciAccessor.read key bridgeFields.SECONDARY_BUS m3)
          as [[sec|e] m4] eqn:Hs;
          pose proof (quiet_trans _ _ _ Hq3 (read_quiet _ _ _ _ _ Hs)) as Hq4;
          unfold ret; intros H; injection H as _ <-; exact Hq4.
      * intros H. injection H as _ <-. exact Hq3.
    + intros H. injection H as _ <-. exact Hq2.
  - unfold ret. intros H. injection H as _ <-. exact Hq1.
  - intros H. injection H as _ <-. exact Hq1.
Qed.

Lemma ushr_range x k : 0 <= JS.ushr x k < 2 ^ 32.
Proof.
  unfold JS.ushr. pose proof (toUint32_range x) as Hx.
  pose proof (Z.mod_pos_bound (JS.toUint32 k) 32 ltac:(lia)) as Hk.
  rewrite Z.shiftr_div_pow2 by lia.
  assert (0 < 2 ^ (JS.toUint32 k mod 32)) by (apply Z.pow_pos_nonneg; lia).
  split; [apply Z.div_pos; lia|].
  apply Z.div_lt_upper_bound; [lia|]. nia.
Qed.

(** The slot and the function of an ACPI address. *)
Lemma acpi_slot addr :
  0 <= addr < 2 ^ 32 ->
  JS.ushr (JS.and (JS.ushr addr 16) 0xffff) 0 = addr / 65536.
Proof.
  intros Hr. unfold JS.ushr at 2. rewrite (toUint32_small addr) by exact Hr.
  change (JS.toUint32 16 mod 32) with 16.
  rewrite Z.shiftr_div_pow2 by lia. change (2 ^ 16) with 65536.
  assert (Hq : 0 <= addr / 65536 < 65536).
  { split; [apply Z.div_pos; lia|apply Z.div_lt_upper_bound; lia]. }
  change 0xffff with (Z.ones 16). rewrite and_ones32 by lia.
  rewrite Z.land_ones by lia. apply Z.mod_small. exact Hq.
Qed.

Lemma acpi_func addr :
  0 <= addr < 2 ^ 32 -> JS.ushr (JS.and addr 0xffff) 0 = addr mod 65536.
Proof.
  intros Hr. change 0xffff with (Z.ones 16). rewrite and_ones32 by lia.
  apply Z.land_ones. lia.
Qed.

(** X16. What a resolution yields.  Whatever its outcome, the resolution
    of an ACPI node never writes to the configuration space.  When it
    yields an address, for a node whose ACPI address is a 32-bit number, the
    slot is the high half of the ACPI address and the function the low
    half; the bus is the node's own bus number when the node is a root
    bridge, without any access to the machine, the bus number of the parent
    when the parent is a root bridge, likewise, and otherwise the secondary
    bus number of the parent: the parent was resolved to an address in
    turn, the header type read through the accessor of that address is a
    bridge's, and the bus is what the read of the secondary-bus field
    through the same accessor returned, a number from 0 to 255. *)
Theorem locateAcpiDevice_address (dev : AcpiNode) m :
  quiet m (locateAcpiDevice dev m).2 /\
  forall loc m',
    0 <= address dev < 2 ^ 32 ->
    locateAcpiDevice dev m = (Ok (Some loc), m') ->
    slot loc = address dev / 65536 /\
    func loc = address dev mod 65536 /\
    (isRootBridge dev = true ->
     bus loc = getRootBridgeBusNumber dev /\ m' = m) /\
    (isRootBridge dev = false ->
     exists parentDev,
       parent dev = Some parentDev /\ isDevice parentDev = true /\
       (isRootBridge parentDev = true ->
        bus loc = getRootBridgeBusNumber parentDev /\ m' = m) /\
       (isRootBridge parentDev = false ->
        exists parentLocation m1 pciParent m2 header m3,
          locateAcpiDevice parentDev m = (Ok (Some parentLocation), m1) /\
          pciAccessorFactory.get parentLocation m1 = (Ok pciParent, m2) /\
          PciAccessor.read pciParent fields.HEADER_TYPE m2 = (Ok header, m3) /\
          bridgeTyped header = true /\
          PciAccessor.read pciParent bridgeFields.SECONDARY_BUS m3
            = (Ok (bus loc), m') /\
          0 <= bus loc <= 255)).
Proof.
  split.
  { destruct (locateAcpiDevice dev m) as [r m'] eqn:E.
    apply (locate_quiet dev m r m' E). }
  intros loc m' Hrange. rewrite locateAcpiDevice_eq.
  cbv zeta. rewrite (acpi_slot _ Hrange), (acpi_func _ Hrange).
  destruct (isDevice dev); cbn [negb]; [|discriminate].
  destruct (isRootBridge dev).
  { unfold ret. intros H. injection H as <- <-. cbn [bus slot func].
    split; [reflexivity|]. split; [reflexivity|].
    split; [intros _; split; reflexivity|discriminate]. }
  destruct (parent dev) as [parentDev|]; [|discriminate].
  destruct (isDevice parentDev) eqn:Hd; cbn [negb]; [|discriminate].
  destruct (isRootBridge parentDev) eqn:Hb.
  { unfold ret. intros H. injection H as <- <-. cbn [bus slot func].
    split; [reflexivity|]. split; [reflexivity|]. split; [discriminate|].
    intros _. exists parentDev. split; [reflexivity|]. split; [exact Hd|].
    rewrite Hb. split; [intros _; split; reflexivity|discriminate]. }
  unfold bind at 1.
  destruct (locateAcpiDevice parentDev m) as [[[ploc|]|e] m1] eqn:Hloc;
    try discriminate.
  replace (mkAddr (bus ploc) (slot ploc) (func ploc)) with ploc
    by (destruct ploc; reflexivity).
  unfold bind at 1.
  destruct (pciAccessorFactory.get ploc m1) as [[key|e] m2] eqn:Hget;
    [|discriminate].
  unfold bind at 1.
  destruct (PciAccessor.read key fields.HEADER_TYPE m2) as [[header|e] m3] eqn:Hh;
    [|discriminate].
  destruct (negb (1 =? JS.ushr (JS.and header 127) 0) &&
            negb (2 =? JS.ushr (JS.and header 127) 0)) eqn:Hty; [discriminate|].
  unfold bind.
  destruct (PciAccessor.read key bridgeFields.SECONDARY_BUS m3)
    as [[sec|e] m4] eqn:Hs; [|discriminate].
  unfold ret. intros H. injection H as <- <-. cbn [bus slot func].
  split; [reflexivity|]. split; [reflexivity|]. split; [discriminate|].
  intros _. exists parentDev. split; [reflexivity|]. split; [exact Hd|].
  rewrite Hb. split; [discriminate|]. intros _.
  exists ploc, m1, key, m2, header, m3.
  split; [exact Hloc|]. split; [exact Hget|]. split; [exact Hh|].
  split.
  { unfold bridgeTyped. cbv zeta.
    destruct (1 =? JS.ushr (JS.and header 127) 0);
      destruct (2 =? JS.ushr (JS.and header 127) 0);
      cbn [negb andb orb] in Hty |- *; congruence. }
  split; [exact Hs|].
  destruct (read_value _ _ _ _ _ Hs) as [raw ->].
  unfold dwToFieldValue. change (mask bridgeFields.SECONDARY_BUS) with (Z.ones 8).
  rewrite and_ones32 by (try lia; apply ushr_range).
  rewrite Z.land_ones by lia.
  pose proof (Z.mod_pos_bound
                (JS.ushr raw (8 * sizeof.BYTE * shift bridgeFields.SECONDARY_BUS))
                (2 ^ 8) ltac:(lia)). lia.
Qed.

End Quiet.

(** ** The passes over the registry *)

Section Passes.

Implicit Types (a : Key) (f : Field) (d : PciDevice) (m : Machine)
  (busRouting : gmap Z (list Route)).

Lemma cacheGrows_refl m : cacheGrows m m.
Proof. intros a off raw H. exact H. Qed.

Lemma cacheGrows_trans m1 m2 m3 :
  cacheGrows m1 m2 -> cacheGrows m2 m3 -> cacheGrows m1 m3.
Proof. intros H1 H2 a off raw H. apply H2, H1, H. Qed.

Lemma offsetCache_updCache a a0 (g : gmap Z Z -> gmap Z Z) m :
  PciAccessor.offsetCache a0 (PciAccessor.updCache a g m) =
  if decide (a0 = a) then g (PciAccessor.offsetCache a m)
  else PciAccessor.offsetCache a0 m.
Proof.
  unfold PciAccessor.updCache. unfold PciAccessor.offsetCache at 1.
  cbn [accessorCache]. destruct (decide (a0 = a)) as [->|Hne].
  - rewrite lookup_insert_eq. reflexivity.
  - rewrite lookup_insert_ne by congruence. reflexivity.
Qed.

(** A read never drops a cached dword, and after a read that returned the
    dword it decoded is cached. *)
Lemma read_cacheGrows a f m r m' :
  PciAccessor.read a f m = (r, m') -> cacheGrows m m'.
Proof.
  unfold PciAccessor.read, bind, gets, ret.
  destruct (PciAccessor.offsetCache a m !! offset f) as [raw|] eqn:Hc.
  - intros H. injection H as _ <-. apply cacheGrows_refl.
  - unfold onPorts, zoom.
    destruct (readRaw32 _ _ _ _ (ports m)) as [[value|e] p].
    + unfold modify. intros H. injection H as _ <-.
      intros a0 off raw. rewrite offsetCache_updCache.
      change (PciAccessor.offsetCache a (mkMachine p (accessorCache m)))
        with (PciAccessor.offsetCache a m).
      change (PciAccessor.offsetCache a0 (mkMachine p (accessorCache m)))
        with (PciAccessor.offsetCache a0 m).
      destruct (decide (a0 = a)) as [->|Hne]; [|auto].
      destruct (decide (off = offset f)) as [->|Hoff].
      * rewrite Hc. discriminate.
      * rewrite lookup_insert_ne by congruence. auto.
    + intros H. injection H as _ <-. intros a0 off raw H. exact H.
Qed.

Lemma read_cached a f m v m' :
  PciAccessor.read a f m = (Ok v, m') ->
  exists raw, PciAccessor.offsetCache a m' !! offset f = Some raw /\
              v = dwToFieldValue raw f.
Proof.
  unfold PciAccessor.read, bind, gets, ret.
  destruct (PciAccessor.offsetCache a m !! offset f) as [raw|] eqn:Hc.
  - intros H. injection H as <- <-. eauto.
  - unfold onPorts, zoom.
    destruct (readRaw32 _ _ _ _ (ports m)) as [[value|e] p]; [|discriminate].
    unfold modify. intros H. injection H as <- <-. exists value.
    split; [|reflexivity].
    rewrite offsetCache_updCache. rewrite decide_True by reflexivity.
    apply lookup_insert_eq.
Qed.

(** What the callback of the IRQ pass does to a device. *)
Lemma setIrq_eq busRouting d m :
  setIrq busRouting (d, m) =
  if isBridge d then (Ok tt, (d, m)) else
  match busRouting !! bus (dev_address d) with
  | None => (Ok tt, (d, m))
  | Some routing =>
      match Device.interruptPin d m with
      | (Throw e, m') => (Throw e, (d, m'))
      | (Ok devicePin, m') =>
          if 0 =? devicePin then (Ok tt, (d, m')) else
          match fold_left (matchRoute (dev_address d) devicePin) routing None with
          | None => (Ok tt, (d, m'))
          | Some irq =>
              match irqVector d with
              | Some _ => (Throw AlreadyAssigned, (d, m'))
              | None => (Ok tt, (withVector d (JS.ushr irq 0), m'))
              end
          end
      end
  end.
Proof.
  unfold setIrq. unfold bind at 1, this, gets. cbn [fst].
  destruct (isBridge d); [reflexivity|].
  destruct (busRouting !! bus (dev_address d)) as [routing|]; [|reflexivity].
  unfold bind, outer, zoom. cbn [fst snd].
  destruct (Device.interruptPin d m) as [[devicePin|e] m']; [|reflexivity].
  destruct (0 =? devicePin); [reflexivity|].
  destruct (fold_left _ routing None) as [irq|]; [|reflexivity].
  unfold self, zoom, Device.setIRQVector, bind, get, modify, throw.
  cbn [fst snd]. destruct (irqVector d); reflexivity.
Qed.

Lemma setIrq_step busRouting d m r d' m' :
  setIrq busRouting (d, m) = (r, (d', m')) ->
  vectorSet d d' /\ quiet m m' /\ cacheGrows m m'.
Proof.
  rewrite setIrq_eq.
  assert (Hsame : forall (r0 : Res unit) m0,
            quiet m m0 -> cacheGrows m m0 ->
            (r0, (d, m0)) = (r, (d', m')) ->
            vectorSet d d' /\ quiet m m' /\ cacheGrows m m').
  { intros r0 m0 Hq Hg H. injection H as _ <- <-.
    split; [left; reflexivity|]. split; assumption. }
  destruct (isBridge d) eqn:Hb;
    [apply Hsame; [apply quiet_refl|apply cacheGrows_refl]|].
  destruct (busRouting !! bus (dev_address d)) as [routing|];
    [|apply Hsame; [apply quiet_refl|apply cacheGrows_refl]].
  destruct (Device.interruptPin d m) as [[devicePin|e] m1] eqn:Hpin.
  - pose proof (interruptPin_quiet _ _ _ _ Hpin) as Hq.
    assert (Hg : cacheGrows m m1).
    { revert Hpin. unfold Device.interruptPin. rewrite Hb. apply read_cacheGrows. }
    destruct (0 =? devicePin); [apply Hsame; assumption|].
    destruct (fold_left _ routing None) as [irq|]; [|apply Hsame; assumption].
    destruct (irqVector d) eqn:Hv; [apply Hsame; assumption|].
    intros H. injection H as _ <- <-. split; [|split; assumption].
    right. split; [exact Hb|]. split; [exact Hv|].
    exists (JS.ushr irq 0). split; [apply ushr0_range|reflexivity].
  - apply Hsame; [apply (interruptPin_quiet _ _ _ _ Hpin)|].
    revert Hpin. unfold Device.interruptPin. rewrite Hb. apply read_cacheGrows.
Qed.

(** What [each] keeps when every call of the callback keeps it. *)
Lemma eachFrom_keeps {T} (fn : M (PciDevice * T) unit)
    (P : PciDevice -> PciDevice -> Prop) (Q : T -> T -> Prop) :
  (forall d, P d d) -> (forall t, Q t t) ->
  (forall t1 t2 t3, Q t1 t2 -> Q t2 t3 -> Q t1 t3) ->
  (forall d t r d' t', fn (d, t) = (r, (d', t')) -> P d d' /\ Q t t') ->
  forall devicesMap t r devicesMap' t',
    pciManager.eachFrom fn devicesMap t = (r, (devicesMap', t')) ->
    sameKeys P devicesMap devicesMap' /\ Q t t'.
Proof.
  intros HP HQ Htrans Hfn devicesMap.
  induction devicesMap as [|[k d] rest IH]; intros t r devicesMap' t'.
  - cbn [pciManager.eachFrom]. intros H. injection H as _ <- <-.
    split; [constructor|apply HQ].
  - cbn [pciManager.eachFrom].
    destruct (fn (d, t)) as [[[]|e] [d1 t1]] eqn:Hd;
      destruct (Hfn _ _ _ _ _ Hd) as [Hp Hq].
    + destruct (pciManager.eachFrom fn rest t1) as [r2 [rest2 t2]] eqn:Hrest.
      destruct (IH _ _ _ _ Hrest) as [Hk Hq2].
      intros H. injection H as _ <- <-. split.
      * constructor; [split; [reflexivity|exact Hp]|exact Hk].
      * apply (Htrans _ _ _ Hq Hq2).
    + intros H. injection H as _ <- <-. split; [|exact Hq].
      constructor; [split; [reflexivity|exact Hp]|].
      clear - HP. induction rest as [|x rest IH]; constructor; [|exact IH].
      split; [reflexivity|apply HP].
Qed.

Lemma setIrq_fresh busRouting d m :
  irqVector d = None ->
  exists d' m', setIrq busRouting (d, m) = (Ok tt, (d', m')).
Proof.
  intros Hv. rewrite setIrq_eq. destruct (isBridge d) eqn:Hb; [eauto|].
  destruct (busRouting !! bus (dev_address d)) as [routing|]; [|eauto].
  destruct (interruptPin_total d m Hb) as (devicePin & m1 & ->).
  destruct (0 =? devicePin); [eauto|].
  destruct (fold_left _ routing None) as [irq|]; [|eauto].
  rewrite Hv. eauto.
Qed.

Lemma eachFrom_setIrq_fresh busRouting (devicesMap : Registry) :
  Forall (fun x => irqVector x.2 = None) devicesMap ->
  forall m, exists devicesMap' m',
    pciManager.eachFrom (setIrq busRouting) devicesMap m =
      (Ok tt, (devicesMap', m')).
Proof.
  induction 1 as [|[k d] rest Hv _ IH]; intros m; cbn [pciManager.eachFrom].
  - eauto.
  - cbn [snd] in Hv.
    destruct (setIrq_fresh busRouting d m Hv) as (d' & m1 & ->).
    destruct (IH m1) as (rest' & m2 & ->). eauto.
Qed.

(** X17. The IRQ pass, whether it returns or throws, never writes to the
    configuration space and keeps the registry's keys and their order; in
    a device it changes nothing but the IRQ vector, and that only from null
    to an unsigned 32-bit number on a device that is no bridge: a vector
    that is set is never replaced.  On a registry in which no device has a
    vector yet the pass returns normally. *)
Theorem irqPass_keeps busRouting (devicesMap : Registry) m :
  let run := irqPass busRouting (devicesMap, m) in
  sameKeys vectorSet devicesMap run.2.1 /\ quiet m run.2.2 /\
  (Forall (fun x => irqVector x.2 = None) devicesMap -> run.1 = Ok tt).
Proof.
  cbv zeta. unfold irqPass, pciManager.each. cbn [fst snd].
  destruct (pciManager.eachFrom (setIrq busRouting) devicesMap m)
    as [r [devicesMap' m']] eqn:E. cbn [fst snd].
  split; [|split].
  - apply (eachFrom_keeps (setIrq busRouting) vectorSet (fun _ _ => True)) in E.
    + tauto.
    + intros d. left. reflexivity.
    + auto.
    + auto.
    + intros d t r0 d' t' H. apply setIrq_step in H. tauto.
  - apply (eachFrom_keeps (setIrq busRouting) (fun _ _ => True) quiet) in E.
    + tauto.
    + auto.
    + apply quiet_refl.
    + apply quiet_trans.
    + intros d t r0 d' t' H. apply setIrq_step in H. tauto.
  - intros Hfresh.
    destruct (eachFrom_setIrq_fresh busRouting devicesMap Hfresh m)
      as (reg' & m1 & Hok).
    rewrite Hok in E. injection E as <- _ _. reflexivity.
Qed.

(** The pin register reads the same, without port traffic, whenever the
    dword it was decoded from is still cached. *)
Lemma interruptPin_again d m devicePin m1 mF :
  Device.interruptPin d m = (Ok devicePin, m1) -> cacheGrows m1 mF ->
  Device.interruptPin d mF = (Ok devicePin, mF).
Proof.
  unfold Device.interruptPin. destruct (isBridge d); [discriminate|].
  intros H Hg. apply read_cached in H as (raw & Hc & ->).
  apply read_hit. apply Hg. exact Hc.
Qed.

Lemma withVector_neq d irq : irqVector d = None -> withVector d irq <> d.
Proof. intros Hv H. apply (f_equal irqVector) in H. cbn in H. congruence. Qed.

Lemma setIrq_again busRouting d m d' m1 mF :
  setIrq busRouting (d, m) = (Ok tt, (d', m1)) -> cacheGrows m1 mF ->
  (d' = d -> setIrq busRouting (d', mF) = (Ok tt, (d', mF))) /\
  (d' <> d -> setIrq busRouting (d', mF) = (Throw AlreadyAssigned, (d', mF))).
Proof.
  intros H Hg. rewrite setIrq_eq in H. rewrite setIrq_eq.
  destruct (isBridge d) eqn:Hb.
  { injection H as <- <-. rewrite Hb. split; [reflexivity|congruence]. }
  destruct (busRouting !! bus (dev_address d)) as [routing|] eqn:Hr.
  2:{ injection H as <- <-. rewrite Hb, Hr. split; [reflexivity|congruence]. }
  destruct (Device.interruptPin d m) as [[devicePin|e] m2] eqn:Hpin;
    [|discriminate].
  destruct (0 =? devicePin) eqn:Hz.
  { injection H as <- <-. rewrite Hb, Hr.
    rewrite (interruptPin_again _ _ _ _ _ Hpin Hg), Hz.
    split; [reflexivity|congruence]. }
  destruct (fold_left _ routing None) as [irq|] eqn:Hf.
  2:{ injection H as <- <-. rewrite Hb, Hr.
      rewrite (interruptPin_again _ _ _ _ _ Hpin Hg), Hz, Hf.
      split; [reflexivity|congruence]. }
  destruct (irqVector d) eqn:Hv; [discriminate|].
  injection H as <- <-.
  assert (Hpin' : Device.interruptPin (withVector d (JS.ushr irq 0)) mF =
                  (Ok devicePin, mF)).
  { apply (interruptPin_again d m devicePin m2 mF Hpin Hg). }
  cbn [withVector isBridge dev_address irqVector].
  change (mkDevice (dev_address d) (pciAccessor d) (vendorId d) (deviceId d)
            (isBridge d) (acpiDevice d) (Some (JS.ushr irq 0)))
    with (withVector d (JS.ushr irq 0)).
  rewrite Hb, Hr, Hpin', Hz, Hf. split; [|reflexivity].
  intros E. destruct (withVector_neq d _ Hv E).
Qed.

Lemma eachFrom_setIrq_grows busRouting (devicesMap : Registry) m r devicesMap' m' :
  pciManager.eachFrom (setIrq busRouting) devicesMap m = (r, (devicesMap', m')) ->
  cacheGrows m m'.
Proof.
  intros E.
  apply (eachFrom_keeps (setIrq busRouting) (fun _ _ => True) cacheGrows) in E.
  - tauto.
  - auto.
  - apply cacheGrows_refl.
  - apply cacheGrows_trans.
  - intros d t r0 d' t' H. apply setIrq_step in H. tauto.
Qed.

Lemma eachFrom_setIrq_again busRouting (devicesMap : Registry) :
  forall m devicesMap' m' mF,
    pciManager.eachFrom (setIrq busRouting) devicesMap m =
      (Ok tt, (devicesMap', m')) ->
    cacheGrows m' mF ->
    (devicesMap' = devicesMap ->
     pciManager.eachFrom (setIrq busRouting) devicesMap' mF =
       (Ok tt, (devicesMap', mF))) /\
    (devicesMap' <> devicesMap ->
     pciManager.eachFrom (setIrq busRouting) devicesMap' mF =
       (Throw AlreadyAssigned, (devicesMap', mF))).
Proof.
  induction devicesMap as [|[k d] rest IH]; intros m devicesMap' m' mF.
  - cbn [pciManager.eachFrom]. intros H _. injection H as <- <-.
    split; [reflexivity|congruence].
  - cbn [pciManager.eachFrom].
    destruct (setIrq busRouting (d, m)) as [[[]|e] [d1 m1]] eqn:Hd; [|discriminate].
    destruct (pciManager.eachFrom (setIrq busRouting) rest m1)
      as [r2 [rest2 m2]] eqn:Hrest.
    intros H Hg. injection H as -> <- <-.
    pose proof (eachFrom_setIrq_grows _ _ _ _ _ _ Hrest) as Hg1.
    destruct (setIrq_again _ _ _ _ _ mF Hd (cacheGrows_trans _ _ _ Hg1 Hg))
      as [Hsame Hdiff].
    destruct (IH _ _ _ mF Hrest Hg) as [IHsame IHdiff].
    cbn [pciManager.eachFrom]. split.
    + intros E. injection E as -> ->.
      rewrite (Hsame eq_refl), (IHsame eq_refl). reflexivity.
    + intros Hne.
      assert (Hcase : d1 = d \/ d1 <> d).
      { destruct (setIrq_step _ _ _ _ _ _ Hd) as [[E|(_ & Hv & irq & _ & E)] _];
          [left; exact E|right; rewrite E; apply withVector_neq, Hv]. }
      destruct Hcase as [->|Hd1].
      * rewrite (Hsame eq_refl).
        rewrite IHdiff by (intros ->; apply Hne; reflexivity). reflexivity.
      * rewrite (Hdiff Hd1). reflexivity.
Qed.

(** X18. The IRQ pass cannot be run twice.  After a pass that returned, a
    second pass with the same routing finds every pin register in the
    accessor caches, so it adds no port traffic and changes nothing; it
    returns when the first pass assigned no vector, and when the first pass
    assigned one it throws 'IRQ vector already set' at the first device that
    got one. *)
Theorem irqPass_again busRouting (devicesMap : Registry) m :
  let first := irqPass busRouting (devicesMap, m) in
  first.1 = Ok tt ->
  (first.2.1 = devicesMap -> irqPass busRouting first.2 = (Ok tt, first.2)) /\
  (first.2.1 <> devicesMap ->
   irqPass busRouting first.2 = (Throw AlreadyAssigned, first.2)).
Proof.
  cbv zeta. unfold irqPass, pciManager.each. cbn [fst snd].
  destruct (pciManager.eachFrom (setIrq busRouting) devicesMap m)
    as [r [devicesMap' m']] eqn:E. cbn [fst snd].
  intros ->.
  apply (eachFrom_setIrq_again busRouting devicesMap m devicesMap' m' m' E).
  apply cacheGrows_refl.
Qed.

Lemma irqPass_again_witness :
  irqPass Sim.busRouting (irqPass Sim.busRouting (Sim.registry, Sim.machine)).2 =
    (Throw AlreadyAssigned,
     (irqPass Sim.busRouting (Sim.registry, Sim.machine)).2).
Proof.
  apply (irqPass_again Sim.busRouting Sim.registry Sim.machine).
  - vm_compute. reflexivity.
  - intros H.
    apply (f_equal (map (fun x : Key * PciDevice => irqVector x.2))) in H.
    vm_compute in H. discriminate H.
Defined.

(** *** The attach pass *)

Lemma attachAcpiDevice_eq (handle : AcpiNode) d :
  Device.attachAcpiDevice (Some handle) d =
  (Ok tt, match acpiDevice d with Some _ => d | None => withHandle d handle end).
Proof.
  unfold Device.attachAcpiDevice, bind, get, modify, ret.
  destruct (acpiDevice d); reflexivity.
Qed.

Lemma handleSet_refl d : handleSet d d.
Proof. left. reflexivity. Qed.

Lemma handleSet_trans d1 d2 d3 : handleSet d1 d2 -> handleSet d2 d3 -> handleSet d1 d3.
Proof.
  intros [->|(Hn & node & ->)] H; [exact H|].
  destruct H as [->|(Hn' & _)].
  - right. eauto.
  - cbn in Hn'. discriminate.
Qed.

Lemma sameKeys_refl (P : PciDevice -> PciDevice -> Prop) (devicesMap : Registry) :
  (forall d, P d d) -> sameKeys P devicesMap devicesMap.
Proof.
  intros HP. induction devicesMap as [|x rest IH]; constructor; [|exact IH].
  split; [reflexivity|apply HP].
Qed.

Lemma sameKeys_trans (P : PciDevice -> PciDevice -> Prop)
    (r1 r2 r3 : Registry) :
  (forall d1 d2 d3, P d1 d2 -> P d2 d3 -> P d1 d3) ->
  sameKeys P r1 r2 -> sameKeys P r2 r3 -> sameKeys P r1 r3.
Proof.
  intros HP H12. revert r3. induction H12 as [|x y r1 r2 [Hk Hp] _ IH];
    intros r3 H23; inversion H23 as [|? z ? r3' [Hk' Hp'] Hrest]; subst.
  - constructor.
  - constructor; [|apply IH, Hrest].
    split; [congruence|apply (HP _ _ _ Hp Hp')].
Qed.

(** A method called on the device that [findDevice] returned changes the
    first entry under the key, which is the one [findDevice] returns, and
    no other. *)
Lemma onDevice_found {A} (key : Key) (op : M PciDevice A) (devicesMap : Registry) d :
  pciManager.lookup key devicesMap = Some d ->
  exists devicesMap',
    onDevice key op devicesMap = ((op d).1, devicesMap') /\
    pciManager.lookup key devicesMap' = Some (op d).2 /\
    (forall k, k <> key ->
       pciManager.lookup k devicesMap' = pciManager.lookup k devicesMap) /\
    sameKeys (fun x y => y = x \/ (x = d /\ y = (op d).2)) devicesMap devicesMap'.
Proof.
  induction devicesMap as [|[k0 d0] rest IH]; cbn [pciManager.lookup onDevice].
  - discriminate.
  - destruct (decide (k0 = key)) as [->|Hne].
    + intros H. injection H as ->.
      exists ((key, (op d).2) :: rest).
      split; [destruct (op d); reflexivity|].
      split; [cbn [pciManager.lookup]; rewrite decide_True by reflexivity;
              reflexivity|].
      split.
      * intros k Hk. cbn [pciManager.lookup].
        rewrite !decide_False by congruence. reflexivity.
      * constructor; [split; [reflexivity|right; split; reflexivity]|].
        apply (sameKeys_refl (fun x y => y = x \/ (x = d /\ y = (op d).2))).
        intros x. left. reflexivity.
    + intros H. destruct (IH H) as (rest' & Hon & Hl & Hother & Hk).
      rewrite Hon. exists ((k0, d0) :: rest'). split; [reflexivity|].
      split; [cbn [pciManager.lookup]; rewrite decide_False by exact Hne;
              exact Hl|].
      split.
      * intros k Hkk. cbn [pciManager.lookup].
        destruct (decide (k0 = k)); [reflexivity|apply Hother, Hkk].
      * constructor; [split; [reflexivity|left; reflexivity]|exact Hk].
Qed.

(** The callback of the attach pass, by the outcome of the resolution. *)
Lemma attachAcpi_eq (node : AcpiNode) (devicesMap : Registry) m
    (buses : gmap Z AcpiNode) :
  attachAcpi node (devicesMap, (m, buses)) =
  match locateAcpiDevice node m with
  | (Throw e, m1) => (Throw e, (devicesMap, (m1, buses)))
  | (Ok None, m1) => (Ok tt, (devicesMap, (m1, busesAfter node buses)))
  | (Ok (Some loc), m1) =>
      match pciManager.findDevice loc devicesMap with
      | None => (Ok tt, (devicesMap, (m1, busesAfter node buses)))
      | Some dev =>
          match onDevice (addressHash loc)
                         (Device.attachAcpiDevice (Some node)) devicesMap with
          | (Throw e, devicesMap') =>
              (Throw e, (devicesMap', (m1, busesAfter node buses)))
          | (Ok _, devicesMap') =>
              if isBridge dev
              then match Device.getSecondaryBus dev m1 with
                   | (Ok busId, m2) =>
                       (Ok tt, (devicesMap',
                                (m2, <[busId := node]> (busesAfter node buses))))
                   | (Throw e, m2) =>
                       (Throw e, (devicesMap', (m2, busesAfter node buses)))
                   end
              else (Ok tt, (devicesMap', (m1, busesAfter node buses)))
          end
      end
  end.
Proof.
  unfold attachAcpi. unfold bind at 1. unfold onMachine at 1, zoom.
  cbn [fst snd].
  destruct (locateAcpiDevice node m) as [[[loc|]|e] m1]; [| |reflexivity].
  2:{ unfold busesAfter, bind, setBus, modify, ret.
      destruct (isRootBridge node); reflexivity. }
  unfold bind at 1.
  assert (Hbus : (if isRootBridge node
                  then setBus (getRootBridgeBusNumber node) node
                  else ret tt) (devicesMap, (m1, buses)) =
                 (Ok tt, (devicesMap, (m1, busesAfter node buses)))).
  { unfold busesAfter, setBus, modify, ret.
    destruct (isRootBridge node); reflexivity. }
  rewrite Hbus. unfold bind at 1, gets. cbn [fst].
  destruct (pciManager.findDevice loc devicesMap) as [dev|]; [|reflexivity].
  unfold bind at 1, zoom. cbn [fst snd].
  destruct (onDevice (addressHash loc) (Device.attachAcpiDevice (Some node))
              devicesMap) as [[[]|e] devicesMap']; [|reflexivity].
  destruct (isBridge dev); [|reflexivity].
  unfold bind, onMachine, zoom. cbn [fst snd].
  destruct (Device.getSecondaryBus dev m1) as [[busId|e] m2]; reflexivity.
Qed.

(** The resolution throws nothing but the accessor constructor's error. *)
Lemma locate_throws (dev : AcpiNode) m e m' :
  locateAcpiDevice dev m = (Throw e, m') -> e = InvalidAddress.
Proof.
  revert m e m'. induction dev as [dev IH] using AcpiNode_chain_ind.
  intros m e m'. rewrite locateAcpiDevice_eq.
  destruct (isDevice dev); cbn [negb]; [|discriminate].
  destruct (isRootBridge dev); [discriminate|].
  destruct (parent dev) as [parentDev|] eqn:Hp; [|discriminate].
  destruct (isDevice parentDev); cbn [negb]; [|discriminate].
  destruct (isRootBridge parentDev); [discriminate|].
  unfold bind at 1.
  destruct (locateAcpiDevice parentDev m) as [[[loc|]|e1] m1] eqn:Hloc.
  - unfold bind at 1.
    destruct (pciAccessorFactory.get _ m1) as [[key|e2] m2] eqn:Hget.
    + destruct (read_total key fields.HEADER_TYPE m2 eq_refl) as (h & m3 & Hh).
      unfold bind at 1. rewrite Hh.
      destruct (negb (1 =? JS.ushr (JS.and h 127) 0) &&
                negb (2 =? JS.ushr (JS.and h 127) 0)); [discriminate|].
      destruct (read_total key bridgeFields.SECONDARY_BUS m3 eq_refl)
        as (sec & m4 & Hs).
      unfold bind. rewrite Hs. discriminate.
    + intros H. injection H as <- _.
      destruct (get_outcome _ _ _ _ Hget) as (_ & _ & [[Hr _]|[Hr _]]);
        congruence.
  - discriminate.
  - intros H. injection H as <- _. apply (IH parentDev eq_refl _ _ _ Hloc).
Qed.

Lemma attachAcpi_step (node : AcpiNode) (devicesMap : Registry) m
    (buses : gmap Z AcpiNode) r devicesMap' m' buses' :
  attachAcpi node (devicesMap, (m, buses)) = (r, (devicesMap', (m', buses'))) ->
  sameKeys handleSet devicesMap devicesMap' /\ quiet m m' /\
  (r = Ok tt \/ r = Throw InvalidAddress).
Proof.
  rewrite attachAcpi_eq.
  destruct (locateAcpiDevice node m) as [[[loc|]|e] m1] eqn:Hloc;
    pose proof (locate_quiet _ _ _ _ Hloc) as Hq.
  - destruct (pciManager.findDevice loc devicesMap) as [dev|] eqn:Hf.
    + destruct (onDevice_found (addressHash loc)
                  (Device.attachAcpiDevice (Some node)) devicesMap dev Hf)
        as (reg' & Hon & _ & _ & Hk).
      rewrite Hon. rewrite attachAcpiDevice_eq in Hk |- *. cbn [fst snd] in Hk |- *.
      assert (Hkeys : sameKeys handleSet devicesMap reg').
      { eapply Forall2_impl; [exact Hk|]. intros x y [Hxy [->|[-> ->]]].
        - split; [exact Hxy|apply handleSet_refl].
        - split; [exact Hxy|]. destruct (acpiDevice dev) eqn:Ha.
          + apply handleSet_refl.
          + right. eauto. }
      destruct (isBridge dev) eqn:Hb.
      * assert (Hsec : exists busId m2,
                   Device.getSecondaryBus dev m1 = (Ok busId, m2)).
        { unfold Device.getSecondaryBus. rewrite Hb. cbn [negb].
          apply read_total. reflexivity. }
        destruct Hsec as (busId & m2 & Hs). rewrite Hs.
        pose proof (getSecondaryBus_quiet _ _ _ _ Hs) as Hq2.
        intros H. injection H as <- <- <- _.
        split; [exact Hkeys|]. split; [apply (quiet_trans _ _ _ Hq Hq2)|auto].
      * intros H. injection H as <- <- <- _. auto.
    + intros H. injection H as <- <- <- _.
      split; [apply sameKeys_refl, handleSet_refl|auto].
  - intros H. injection H as <- <- <- _.
    split; [apply sameKeys_refl, handleSet_refl|auto].
  - intros H. injection H as <- <- <- _.
    split; [apply sameKeys_refl, handleSet_refl|]. split; [exact Hq|].
    right. rewrite (locate_throws _ _ _ _ Hloc). reflexivity.
Qed.

Lemma attachPass_run (acpiDevices : list AcpiNode) :
  forall (devicesMap : Registry) m (buses : gmap Z AcpiNode) r devicesMap' m' buses',
    attachPass acpiDevices (devicesMap, (m, buses)) =
      (r, (devicesMap', (m', buses'))) ->
    sameKeys handleSet devicesMap devicesMap' /\ quiet m m' /\
    (r = Ok tt \/ r = Throw InvalidAddress).
Proof.
  unfold attachPass.
  induction acpiDevices as [|node rest IH];
    intros devicesMap m buses r devicesMap' m' buses'.
  - cbn [forEach]. unfold ret. intros H. injection H as <- <- <- _.
    split; [apply sameKeys_refl, handleSet_refl|]. split; [apply quiet_refl|auto].
  - cbn [forEach]. unfold bind.
    destruct (attachAcpi node (devicesMap, (m, buses)))
      as [[[]|e] [reg1 [m1 buses1]]] eqn:Hstep;
      destruct (attachAcpi_step _ _ _ _ _ _ _ _ Hstep) as (Hk & Hq & Hr).
    + intros Hrest. destruct (IH _ _ _ _ _ _ _ Hrest) as (Hk' & Hq' & Hr').
      split; [apply (sameKeys_trans handleSet _ _ _ handleSet_trans Hk Hk')|].
      split; [apply (quiet_trans _ _ _ Hq Hq')|exact Hr'].
    + intros H. injection H as <- <- <- _. auto.
Qed.

(** X19. The attach pass, whether it returns or throws, never writes to
    the configuration space and keeps the registry's keys and their order;
    in a device it changes nothing but the ACPI handle, and that only from
    null to a node: the first node attached to a device stays, whatever
    nodes resolve to the same function later.  The only error the pass
    throws is the accessor constructor's, for an address out of range. *)
Theorem attachPass_keeps (acpiDevices : list AcpiNode) (devicesMap : Registry) m
    (buses : gmap Z AcpiNode) :
  let run := attachPass acpiDevices (devicesMap, (m, buses)) in
  sameKeys handleSet devicesMap run.2.1 /\ quiet m run.2.2.1 /\
  (run.1 = Ok tt \/ run.1 = Throw InvalidAddress).
Proof.
  cbv zeta.
  destruct (attachPass acpiDevices (devicesMap, (m, buses)))
    as [r [devicesMap' [m' buses']]] eqn:E. cbn [fst snd].
  apply (attachPass_run acpiDevices devicesMap m buses r devicesMap' m' buses' E).
Qed.

(** X20. A node that resolves to the address of a registered device
    without a handle is attached to it: afterwards [findDevice] returns the
    device with the node as its handle, and the devices under every other
    key are as before.  For a device that is no bridge the callback
    returns without touching the machine any further; for a bridge it reads
    the secondary bus number and records the node as the handle of that
    bus. *)
Theorem attachAcpi_resolved (node : AcpiNode) (devicesMap : Registry) m
    (buses : gmap Z AcpiNode) loc m1 dev :
  locateAcpiDevice node m = (Ok (Some loc), m1) ->
  pciManager.findDevice loc devicesMap = Some dev ->
  acpiDevice dev = None ->
  exists devicesMap',
    pciManager.findDevice loc devicesMap' = Some (withHandle dev node) /\
    (forall other, addressHash other <> addressHash loc ->
       pciManager.findDevice other devicesMap' =
       pciManager.findDevice other devicesMap) /\
    (isBridge dev = false ->
     attachAcpi node (devicesMap, (m, buses)) =
       (Ok tt, (devicesMap', (m1, busesAfter node buses)))) /\
    (isBridge dev = true ->
     exists busId m2,
       Device.getSecondaryBus dev m1 = (Ok busId, m2) /\
       attachAcpi node (devicesMap, (m, buses)) =
         (Ok tt, (devicesMap',
                  (m2, <[busId := node]> (busesAfter node buses))))).
Proof.
  intros Hloc Hf Ha.
  destruct (onDevice_found (addressHash loc)
              (Device.attachAcpiDevice (Some node)) devicesMap dev Hf)
    as (reg' & Hon & Hl & Hother & _).
  rewrite attachAcpiDevice_eq, Ha in Hon, Hl. cbn [fst snd] in Hon, Hl.
  exists reg'. split; [exact Hl|]. split.
  { intros other Hne. apply Hother. exact Hne. }
  split.
  - intros Hb. rewrite attachAcpi_eq, Hloc, Hf, Hon, Hb. reflexivity.
  - intros Hb.
    assert (Hsec : exists busId m2, Device.getSecondaryBus dev m1 = (Ok busId, m2)).
    { unfold Device.getSecondaryBus. rewrite Hb. cbn [negb].
      apply read_total. reflexivity. }
    destruct Hsec as (busId & m2 & Hsec). exists busId, m2.
    split; [exact Hsec|].
    rewrite attachAcpi_eq, Hloc, Hf, Hon, Hb, Hsec. reflexivity.
Qed.

(** The node of the bridge at slot 1 hangs from the root bridge of bus 0,
    so it resolves without any access to the machine. *)
Lemma attachAcpi_resolved_witness :
  exists devicesMap',
    pciManager.findDevice (mkAddr 0 1 0) devicesMap' =
      Some (withHandle Sim.bridge Sim.p2p) /\
    (forall other, addressHash other <> (0, 1, 0) ->
       pciManager.findDevice other devicesMap' =
       pciManager.findDevice other Sim.registry) /\
    (isBridge Sim.bridge = false ->
     attachAcpi Sim.p2p (Sim.registry, (Sim.machine, ∅)) =
       (Ok tt, (devicesMap', (Sim.machine, busesAfter Sim.p2p ∅)))) /\
    (isBridge Sim.bridge = true ->
     exists busId m2,
       Device.getSecondaryBus Sim.bridge Sim.machine = (Ok busId, m2) /\
       attachAcpi Sim.p2p (Sim.registry, (Sim.machine, ∅)) =
         (Ok tt, (devicesMap', (m2, <[busId := Sim.p2p]> (busesAfter Sim.p2p ∅))))).
Proof.
  apply (attachAcpi_resolved Sim.p2p Sim.registry Sim.machine ∅
           (mkAddr 0 1 0) Sim.machine Sim.bridge); reflexivity.
Defined.

End Passes.

(** ** The enumeration of the configuration space *)

Section Walker.

Implicit Types (c : gmap Z Reg) (m : Machine) (a : Key) (f : Field).

Lemma inMachine_run {T A} (op : M Machine A) (t : T) m :
  inMachine op (t, m) = ((op m).1, (t, (op m).2)).
Proof. unfold inMachine, zoom. cbn [fst snd]. destruct (op m); reflexivity. Qed.

Lemma fieldAddr_valid bus slot func f :
  validTriple bus slot func ->
  fieldAddr (bus, slot, func) f = portAddr bus slot func (offset f).
Proof.
  intros (Hb & Hs & Hf).
  unfold fieldAddr, PciAccessor.abus, PciAccessor.aslot, PciAccessor.afunc.
  cbn [fst snd]. rewrite !ushr0_small by lia. reflexivity.
Qed.

Lemma rawAt_afterRead32 addr addr' p :
  rawAt addr (afterRead32 addr' p) = rawAt addr p.
Proof. unfold rawAt, afterRead32. cbn [cfg]. reflexivity. Qed.

(** On a space with coherent caches a read returns what the space holds,
    from the cache or from the ports, and leaves the caches coherent. *)
Lemma read_onSpace c a f m :
  JS.rem (offset f) sizeof.UINT32 = 0 -> onSpace c m ->
  exists m', PciAccessor.read a f m = (Ok (fieldAt c a f), m') /\ onSpace c m'.
Proof.
  intros Ha [Hc Hcoh].
  destruct (PciAccessor.offsetCache a m !! offset f) as [raw|] eqn:E.
  - exists m. rewrite (read_hit _ _ _ _ E). split; [|split; assumption].
    rewrite (Hcoh a f raw E). unfold fieldAt, rawAt. rewrite Hc. reflexivity.
  - eexists. rewrite (read_miss _ _ _ E Ha). split.
    { unfold fieldAt, rawAt. rewrite Hc. reflexivity. }
    split.
    { rewrite ports_withCache. unfold afterRead32. cbn [cfg]. exact Hc. }
    intros a0 f0 v. rewrite ports_withCache, rawAt_afterRead32.
    destruct (decide (a0 = a)) as [->|Hne].
    + rewrite offsetCache_withCache.
      destruct (decide (offset f0 = offset f)) as [Eo|Hno].
      * rewrite Eo, lookup_insert_eq. intros H. injection H as <-.
        unfold fieldAddr, rawAt. rewrite Eo, ?Hc. reflexivity.
      * rewrite lookup_insert_ne by congruence. apply Hcoh.
    + unfold PciAccessor.offsetCache, withCache. cbn [accessorCache].
      rewrite lookup_insert_ne by congruence. apply (Hcoh a0 f0 v).
Qed.

Lemma get_onSpace c (address : PciAddress) m :
  validAddress address -> onSpace c m ->
  exists m', pciAccessorFactory.get address m = (Ok (addressHash address), m') /\
             onSpace c m'.
Proof.
  intros Hv [Hc Hcoh]. destruct (get_valid address m Hv) as (m2 & Hg & Hp).
  exists m2. split; [exact Hg|].
  destruct (get_outcome _ _ _ _ Hg) as (_ & Hoc & _).
  split; [rewrite Hp; exact Hc|].
  intros a f v. rewrite Hoc, Hp. apply Hcoh.
Qed.

Lemma exists_onSpace c bus slot func m :
  validTriple bus slot func -> onSpace c m ->
  exists m', pciAccessorFactory.exists_ bus slot func m =
               (Ok (presentAt c (mkAddr bus slot func)), m') /\
             onSpace c m'.
Proof.
  intros Hv [Hc Hcoh]. unfold pciAccessorFactory.exists_, bind, onPorts, zoom.
  change (offset fields.VENDOR_ID) with 0.
  rewrite readRaw32_aligned by reflexivity. unfold ret. eexists. split.
  { unfold presentAt, fieldAt.
    change (addressHash (mkAddr bus slot func)) with (bus, slot, func).
    rewrite fieldAddr_valid by exact Hv.
    change (offset fields.VENDOR_ID) with 0. unfold rawAt. rewrite Hc.
    reflexivity. }
  split.
  { cbn [ports]. unfold afterRead32. cbn [cfg]. exact Hc. }
  intros a f v. cbn [ports]. rewrite rawAt_afterRead32. apply (Hcoh a f v).
Qed.

(** The constructor of a device on a space. *)
Lemma new_onSpace c (address : PciAddress) m :
  onSpace c m ->
  exists m', Device.new address (addressHash address) m =
               (Ok (deviceAt c address), m') /\
             onSpace c m'.
Proof.
  intros H0. unfold Device.new.
  destruct (read_onSpace c (addressHash address) fields.VENDOR_ID m eq_refl H0)
    as (m1 & R1 & H1).
  destruct (read_onSpace c (addressHash address) fields.DEVICE_ID m1 eq_refl H1)
    as (m2 & R2 & H2).
  destruct (read_onSpace c (addressHash address) fields.HEADER_TYPE m2 eq_refl H2)
    as (m3 & R3 & H3).
  unfold bind. rewrite R1, R2, R3. unfold ret. exists m3.
  split; [reflexivity|exact H3].
Qed.

Lemma addDevice_onSpace c (address : PciAddress) (devicesMap : Registry) m :
  onSpace c m ->
  pciManager.lookup (addressHash address) devicesMap = None ->
  exists m',
    pciManager.addDevice address (addressHash address) (devicesMap, m) =
      (Ok tt, (devicesMap ++ [(addressHash address, deviceAt c address)], m')) /\
    onSpace c m'.
Proof.
  intros H0 Hl. unfold pciManager.addDevice. unfold bind at 1, gets. cbn [fst].
  rewrite Hl. destruct (new_onSpace c address m H0) as (m' & Hnew & H1).
  unfold bind, zoom, modify. cbn [fst snd]. rewrite Hnew. exists m'.
  split; [reflexivity|exact H1].
Qed.

Lemma addDevice_dup (address : PciAddress) (devicesMap : Registry) m d :
  pciManager.lookup (addressHash address) devicesMap = Some d ->
  pciManager.addDevice address (addressHash address) (devicesMap, m) =
    (Throw DuplicateDevice, (devicesMap, m)).
Proof.
  intros Hl. unfold pciManager.addDevice. unfold bind at 1, gets. cbn [fst].
  rewrite Hl. reflexivity.
Qed.

(** A loop whose steps each handle a segment of a list, in order. *)
Lemma forEach_collect {S A B} (step : A -> M S unit) (g : A -> list B)
    (I : list B -> S -> Prop) (X : Err -> S -> Prop) (total : list B) (l : list A) :
  forall pre suf,
    total = pre ++ (l ≫= g) ++ suf ->
    (forall x pre' suf' s,
       x ∈ l -> total = pre' ++ g x ++ suf' -> I pre' s ->
       exists r s', step x s = (r, s') /\ outcome (I (pre' ++ g x)) X r s') ->
    forall s, I pre s ->
    exists r s', forEach step l s = (r, s') /\
                 outcome (I (pre ++ (l ≫= g))) X r s'.
Proof.
  induction l as [|x l IH]; intros pre suf Ht Hstep s Hi.
  - cbn [forEach]. exists (Ok tt), s. split; [reflexivity|].
    cbn [outcome]. change ([] ≫= g) with (@nil B). rewrite app_nil_r. exact Hi.
  - rewrite bind_cons in Ht |- *. cbn [forEach]. unfold bind.
    destruct (Hstep x pre ((l ≫= g) ++ suf) s) as (r & s1 & Hx & Ho).
    { left. }
    { rewrite Ht, <- !app_assoc. reflexivity. }
    { exact Hi. }
    rewrite Hx. destruct r as [[]|e].
    + cbn [outcome] in Ho.
      destruct (IH (pre ++ g x) suf) with (s := s1) as (r2 & s2 & H2 & Ho2).
      * rewrite Ht, <- !app_assoc. reflexivity.
      * intros y p q s0 Hy. apply Hstep. right. exact Hy.
      * exact Ho.
      * exists r2, s2. split; [exact H2|]. rewrite app_assoc. exact Ho2.
    + exists (Throw e), s1. split; [reflexivity|exact Ho].
Qed.

End Walker.

Section Fold.

Context {T : Type} (fn : PciAddress -> Key -> M (T * Machine) unit)
  (c : gmap Z Reg) (J : list PciAddress -> T -> Prop) (E : Err -> T -> Prop).

(** The callback runs on a function of the space after the functions
    before it were handled, and the machine it leaves still sits on the
    space. *)
Hypothesis Hfn :
  forall pre addr suf t m,
    found c = pre ++ addr :: suf -> J pre t -> onSpace c m ->
    exists r t' m',
      fn addr (addressHash addr) (t, m) = (r, (t', m')) /\
      outcome (fun s => J (pre ++ [addr]) s.1 /\ onSpace c s.2)
              (fun e s => E e s.1 /\ onSpace c s.2) r (t', m').

Lemma checkDevice_fold bus slot func :
  validTriple bus slot func ->
  forall pre suf s,
    found c = pre ++ (if presentAt c (mkAddr bus slot func)
                      then [mkAddr bus slot func] else []) ++ suf ->
    J pre s.1 /\ onSpace c s.2 ->
    exists r s',
      pciSpace.checkDevice bus slot func fn s = (r, s') /\
      outcome (fun s => J (pre ++ (if presentAt c (mkAddr bus slot func)
                                   then [mkAddr bus slot func] else [])) s.1 /\
                        onSpace c s.2)
              (fun e s => E e s.1 /\ onSpace c s.2) r s'.
Proof.
  intros Hv pre suf [t m] Ht [Hj H0]. cbn [fst snd] in Hj, H0.
  unfold pciSpace.checkDevice. cbv zeta.
  destruct (get_onSpace c (mkAddr bus slot func) m Hv H0) as (m1 & Hget & H1).
  destruct (read_onSpace c (addressHash (mkAddr bus slot func)) fields.VENDOR_ID
              m1 eq_refl H1) as (m2 & Hread & H2).
  unfold bind at 1. rewrite inMachine_run, Hget. cbn [fst snd].
  unfold bind. rewrite inMachine_run, Hread. cbn [fst snd].
  revert Ht. unfold presentAt.
  destruct (0xffff =? fieldAt c (addressHash (mkAddr bus slot func)) fields.VENDOR_ID);
    cbn [negb]; intros Ht.
  - exists (Ok tt), (t, m2). split; [reflexivity|]. cbn [outcome fst snd].
    rewrite app_nil_r. split; assumption.
  - destruct (Hfn pre (mkAddr bus slot func) suf t m2 Ht Hj H2)
      as (r & t' & m' & Hcall & Ho).
    exists r, (t', m'). split; [exact Hcall|exact Ho].
Qed.

Lemma checkDeviceFunctions_fold bus slot :
  0 <= bus <= 255 -> 0 <= slot <= 31 ->
  forall pre suf s,
    found c = pre ++ (func ← functionsOf c bus slot;
                      if presentAt c (mkAddr bus slot func)
                      then [mkAddr bus slot func] else []) ++ suf ->
    J pre s.1 /\ onSpace c s.2 ->
    exists r s',
      pciSpace.checkDeviceFunctions bus slot fn s = (r, s') /\
      outcome (fun s => J (pre ++ (func ← functionsOf c bus slot;
                                   if presentAt c (mkAddr bus slot func)
                                   then [mkAddr bus slot func] else [])) s.1 /\
                        onSpace c s.2)
              (fun e s => E e s.1 /\ onSpace c s.2) r s'.
Proof.
  intros Hb Hs pre suf [t m] Ht [Hj H0]. cbn [fst snd] in Hj, H0.
  unfold pciSpace.checkDeviceFunctions. cbv zeta.
  assert (Hv : validAddress (mkAddr bus slot 0)).
  { unfold validAddress.
    change (0 <= bus <= 255 /\ 0 <= slot <= 31 /\ 0 <= 0 <= 7). lia. }
  destruct (get_onSpace c (mkAddr bus slot 0) m Hv H0) as (m1 & Hget & H1).
  destruct (read_onSpace c (addressHash (mkAddr bus slot 0)) fields.HEADER_TYPE
              m1 eq_refl H1) as (m2 & Hread & H2).
  unfold bind at 1. rewrite inMachine_run, Hget. cbn [fst snd].
  unfold bind at 1. rewrite inMachine_run, Hread. cbn [fst snd].
  assert (Hfuncs : functionsOf c bus slot =
            seqZ 0 (if JS.ushr (JS.and (fieldAt c (addressHash (mkAddr bus slot 0))
                                          fields.HEADER_TYPE) 0x80) 0 =? 0
                    then 1 else 8)).
  { unfold functionsOf.
    change (addressHash (mkAddr bus slot 0)) with (bus, slot, 0).
    destruct (_ =? 0); reflexivity. }
  rewrite Hfuncs in Ht |- *.
  apply (forEach_collect
           (fun func => pciSpace.checkDevice bus slot func fn)
           (fun func => if presentAt c (mkAddr bus slot func)
                        then [mkAddr bus slot func] else [])
           (fun pre s => J pre s.1 /\ onSpace c s.2)
           (fun e s => E e s.1 /\ onSpace c s.2)
           (found c) _ pre suf Ht).
  - intros func pre' suf' s Hin Ht' Hi.
    apply (checkDevice_fold bus slot func) with (suf := suf'); [|exact Ht'|exact Hi].
    apply elem_of_seqZ in Hin. unfold validTriple.
    destruct (_ =? 0) in Hin; lia.
  - split; assumption.
Qed.

Lemma slot_fold bus slot :
  0 <= bus <= 255 -> 0 <= slot <= 31 ->
  forall pre suf s,
    found c = pre ++ foundIn c bus slot ++ suf ->
    J pre s.1 /\ onSpace c s.2 ->
    exists r s',
      (do present <- inMachine (pciAccessorFactory.exists_ bus slot 0);
       if negb present then ret tt
       else pciSpace.checkDeviceFunctions bus slot fn) s = (r, s') /\
      outcome (fun s => J (pre ++ foundIn c bus slot) s.1 /\ onSpace c s.2)
              (fun e s => E e s.1 /\ onSpace c s.2) r s'.
Proof.
  intros Hb Hs pre suf [t m] Ht [Hj H0]. cbn [fst snd] in Hj, H0.
  assert (Hv : validTriple bus slot 0) by (unfold validTriple; lia).
  destruct (exists_onSpace c bus slot 0 m Hv H0) as (m1 & Hex & H1).
  unfold bind. rewrite inMachine_run, Hex. cbn [fst snd].
  revert Ht. unfold foundIn.
  destruct (presentAt c (mkAddr bus slot 0)); cbn [negb]; intros Ht.
  - apply (checkDeviceFunctions_fold bus slot Hb Hs pre suf (t, m1) Ht).
    split; assumption.
  - exists (Ok tt), (t, m1). split; [reflexivity|]. cbn [outcome fst snd].
    rewrite app_nil_r. split; assumption.
Qed.

(** The walk over the buses 0 to 254 calls the callback on the functions
    found in the space, in order, each with the accessor key of its
    address, and stops at the first call that throws. *)
Lemma eachDevice_fold t m :
  J [] t -> onSpace c m ->
  exists r t' m',
    pciSpace.eachDevice fn (t, m) = (r, (t', m')) /\
    onSpace c m' /\ outcome (J (found c)) E r t'.
Proof.
  intros Hj H0. unfold pciSpace.eachDevice. cbv zeta.
  destruct (forEach_collect
              (fun bus =>
                 forEach (fun slot =>
                   do present <- inMachine (pciAccessorFactory.exists_ bus slot 0);
                   if negb present then ret tt
                   else pciSpace.checkDeviceFunctions bus slot fn) (seqZ 0 32))
              (fun bus => slot ← seqZ 0 32; foundIn c bus slot)
              (fun pre s => J pre s.1 /\ onSpace c s.2)
              (fun e s => E e s.1 /\ onSpace c s.2)
              (found c) (seqZ 0 255) [] [])
    with (s := (t, m)) as (r & [t' m'] & Hrun & Ho).
  - rewrite app_nil_r. reflexivity.
  - intros bus pre suf s Hbus Ht Hi. apply elem_of_seqZ in Hbus.
    apply (forEach_collect
             (fun slot =>
                do present <- inMachine (pciAccessorFactory.exists_ bus slot 0);
                if negb present then ret tt
                else pciSpace.checkDeviceFunctions bus slot fn)
             (fun slot => foundIn c bus slot)
             (fun pre s => J pre s.1 /\ onSpace c s.2)
             (fun e s => E e s.1 /\ onSpace c s.2)
             (found c) (seqZ 0 32) pre suf Ht); [|exact Hi].
    intros slot pre' suf' s0 Hslot Ht' Hi'. apply elem_of_seqZ in Hslot.
    apply (slot_fold bus slot) with (suf := suf'); [lia|lia|exact Ht'|exact Hi'].
  - split; assumption.
  - exists r, t', m'. split; [exact Hrun|].
    change ([] ++ (seqZ 0 255 ≫= (fun bus => slot ← seqZ 0 32; foundIn c bus slot)))
      with (found c) in Ho.
    destruct r as [[]|e]; cbn [outcome fst snd] in Ho |- *; tauto.
Qed.

End Fold.

Section Enumerate.

Implicit Types (c : gmap Z Reg) (m : Machine) (devicesMap : Registry).

Lemma foundIn_elem c bus slot y :
  y ∈ foundIn c bus slot -> exists func, y = mkAddr bus slot func.
Proof.
  unfold foundIn. destruct (presentAt c (mkAddr bus slot 0));
    [|intros H; inversion H].
  intros H. apply list_elem_of_bind in H as (func & Hy & _).
  destruct (presentAt c (mkAddr bus slot func)); [|inversion Hy].
  apply list_elem_of_singleton in Hy. eauto.
Qed.

(** No function is found twice. *)
Lemma found_NoDup c : NoDup (found c).
Proof.
  unfold found. apply NoDup_bind; [| |apply NoDup_seqZ].
  - intros b1 b2 y _ _ H1 H2.
    apply list_elem_of_bind in H1 as (s1 & H1 & _).
    apply list_elem_of_bind in H2 as (s2 & H2 & _).
    apply foundIn_elem in H1 as (f1 & ->). apply foundIn_elem in H2 as (f2 & E).
    congruence.
  - intros b _. apply NoDup_bind; [| |apply NoDup_seqZ].
    + intros s1 s2 y _ _ H1 H2.
      apply foundIn_elem in H1 as (f1 & ->). apply foundIn_elem in H2 as (f2 & E).
      congruence.
    + intros s _. unfold foundIn.
      destruct (presentAt c (mkAddr b s 0)); [|constructor].
      apply NoDup_bind.
      * intros f1 f2 y _ _ H1 H2.
        destruct (presentAt c (mkAddr b s f1)); [|inversion H1].
        destruct (presentAt c (mkAddr b s f2)); [|inversion H2].
        apply list_elem_of_singleton in H1, H2. congruence.
      * intros f _. destruct (presentAt c (mkAddr b s f));
          [apply NoDup_singleton|constructor].
      * unfold functionsOf. destruct (_ =? 0); apply NoDup_seqZ.
Qed.

Lemma addressHash_inj (x y : PciAddress) : addressHash x = addressHash y -> x = y.
Proof. destruct x, y. unfold addressHash. cbn. congruence. Qed.

Lemma lookup_fresh c (address : PciAddress) (pre : list PciAddress) :
  address ∉ pre ->
  pciManager.lookup (addressHash address)
    (map (fun a => (addressHash a, deviceAt c a)) pre) = None.
Proof.
  induction pre as [|x pre IH]; intros Hn; cbn [map pciManager.lookup].
  - reflexivity.
  - destruct (decide (addressHash x = addressHash address)) as [E|_].
    + destruct Hn. apply addressHash_inj in E as ->. left.
    + apply IH. intros Hin. apply Hn. right. exact Hin.
Qed.

Lemma found_next c (pre suf : list PciAddress) address :
  found c = pre ++ address :: suf -> address ∉ pre.
Proof.
  intros Hf Hin. pose proof (found_NoDup c) as Hnd. rewrite Hf in Hnd.
  apply NoDup_app in Hnd as (_ & Hdis & _). apply (Hdis address Hin). left.
Qed.

Lemma coherent_fresh m : accessorCache m = ∅ -> coherent m.
Proof.
  intros He a f v. unfold PciAccessor.offsetCache. rewrite He, lookup_empty.
  cbn [default]. rewrite lookup_empty. discriminate.
Qed.

Lemma lookup_listed c (address : PciAddress) (l : list PciAddress) :
  address ∈ l ->
  pciManager.lookup (addressHash address)
    (map (fun a => (addressHash a, deviceAt c a)) l) = Some (deviceAt c address).
Proof.
  induction l as [|x l IH]; intros Hin; [inversion Hin|].
  cbn [map pciManager.lookup].
  destruct (decide (addressHash x = addressHash address)) as [E|Hne].
  - apply addressHash_inj in E as ->. reflexivity.
  - apply IH. apply elem_of_cons in Hin as [->|Hin]; [congruence|exact Hin].
Qed.

(** The enumeration on a registry that holds none of the functions found. *)
Lemma enumerate_append c devicesMap m :
  onSpace c m ->
  (forall address, address ∈ found c ->
     pciManager.findDevice address devicesMap = None) ->
  exists m',
    enumerate (devicesMap, m) = (Ok tt, (devicesMap ++ inventory c, m')) /\
    onSpace c m'.
Proof.
  intros H0 Hfresh. unfold enumerate.
  destruct (eachDevice_fold
              (fun address pciAccessor => pciManager.addDevice address pciAccessor)
              c
              (fun pre r => r = devicesMap ++
                              map (fun a => (addressHash a, deviceAt c a)) pre)
              (fun _ _ => False)) with (t := devicesMap) (m := m)
    as (r & t' & m' & Hrun & H1 & Ho).
  - intros pre addr suf t m0 Hf -> Hm0.
    destruct (addDevice_onSpace c addr
                (devicesMap ++ map (fun a => (addressHash a, deviceAt c a)) pre)
                m0 Hm0) as (m1 & Hadd & Hm1).
    { rewrite lookup_app_None.
      - apply lookup_fresh. apply (found_next c pre suf addr Hf).
      - apply Hfresh. rewrite Hf. apply elem_of_app. right. left. }
    eexists (Ok tt), _, m1. split; [exact Hadd|]. cbn [outcome fst snd].
    split; [|exact Hm1]. rewrite map_app, app_assoc. reflexivity.
  - cbn [map]. rewrite app_nil_r. reflexivity.
  - exact H0.
  - destruct r as [[]|e]; cbn [outcome] in Ho; [|destruct Ho].
    exists m'. rewrite Hrun, Ho. split; [reflexivity|exact H1].
Qed.

(** X21. The enumeration.  On a configuration space with coherent
    accessor caches, and a registry that holds none of the functions found
    in the space, the enumeration returns normally and appends to the
    registry one device per function found, in ascending order of bus
    (0 to 254), slot and function, each built from the vendor id, device id
    and header type the space holds and with neither ACPI handle nor IRQ
    vector.  A slot is probed when its function 0 answers with a vendor id
    other than 0xffff, all eight functions of it when the header type of
    function 0 has the multifunction bit and function 0 alone otherwise.
    Afterwards [findDevice] returns that device for every function found
    and answers as before for every other address; the space is as it was
    and the caches are still coherent. *)
Theorem enumerate_finds c devicesMap m :
  onSpace c m ->
  (forall address, address ∈ found c ->
     pciManager.findDevice address devicesMap = None) ->
  exists m',
    enumerate (devicesMap, m) = (Ok tt, (devicesMap ++ inventory c, m')) /\
    onSpace c m' /\
    (forall address, address ∈ found c ->
       pciManager.findDevice address (devicesMap ++ inventory c) =
       Some (deviceAt c address)) /\
    (forall address, address ∉ found c ->
       pciManager.findDevice address (devicesMap ++ inventory c) =
       pciManager.findDevice address devicesMap).
Proof.
  intros H0 Hfresh.
  destruct (enumerate_append c devicesMap m H0 Hfresh) as (m' & Hrun & H1).
  exists m'. split; [exact Hrun|]. split; [exact H1|].
  unfold pciManager.findDevice, inventory. split.
  - intros address Hin. rewrite lookup_app_None by apply (Hfresh address Hin).
    apply lookup_listed, Hin.
  - intros address Hout.
    destruct (pciManager.lookup (addressHash address) devicesMap) as [d|] eqn:E.
    + apply lookup_app_Some, E.
    + rewrite lookup_app_None by exact E. apply lookup_fresh, Hout.
Qed.

Lemma enumerate_finds_witness :
  exists m',
    enumerate ([], Sim.machine) = (Ok tt, ([] ++ inventory Sim.space, m')) /\
    onSpace Sim.space m' /\
    (forall address, address ∈ found Sim.space ->
       pciManager.findDevice address ([] ++ inventory Sim.space) =
       Some (deviceAt Sim.space address)) /\
    (forall address, address ∉ found Sim.space ->
       pciManager.findDevice address ([] ++ inventory Sim.space) =
       pciManager.findDevice address []).
Proof.
  apply (enumerate_finds Sim.space [] Sim.machine).
  - split; [reflexivity|]. apply coherent_fresh. reflexivity.
  - intros address _. reflexivity.
Defined.

(** X22. A function that is registered already stops the enumeration.
    When the registry holds a device for a function found in the space and
    none for the functions found before it, the enumeration appends the
    devices of those earlier functions and then throws 'device on the same
    address already exists'; the functions after it are not visited.  So an enumeration
    cannot be run twice on a space in which a function is found. *)
Theorem enumerate_duplicate c devicesMap m (pre suf : list PciAddress) address d :
  onSpace c m ->
  found c = pre ++ address :: suf ->
  (forall a, a ∈ pre -> pciManager.findDevice a devicesMap = None) ->
  pciManager.findDevice address devicesMap = Some d ->
  exists m',
    enumerate (devicesMap, m) =
      (Throw DuplicateDevice,
       (devicesMap ++ map (fun a => (addressHash a, deviceAt c a)) pre, m')) /\
    onSpace c m'.
Proof.
  intros H0 Hfound Hfresh Hdup. unfold enumerate.
  destruct (eachDevice_fold
              (fun address pciAccessor => pciManager.addDevice address pciAccessor)
              c
              (fun p r => (exists q, pre = p ++ q) /\
                          r = devicesMap ++
                              map (fun a => (addressHash a, deviceAt c a)) p)
              (fun e r => e = DuplicateDevice /\
                          r = devicesMap ++
                              map (fun a => (addressHash a, deviceAt c a)) pre))
    with (t := devicesMap) (m := m) as (r & t' & m' & Hrun & H1 & Ho).
  - intros p a s t m0 Hf [[q Hq] ->] Hm0.
    assert (Hnext : a :: s = q ++ address :: suf).
    { apply (app_inv_head p). rewrite <- Hf, Hfound, Hq, <- app_assoc.
      reflexivity. }
    destruct q as [|a' q].
    + injection Hnext as -> _. rewrite app_nil_r in Hq. subst p.
      eexists (Throw DuplicateDevice), _, m0. split.
      * apply (addDevice_dup address _ m0 d). apply lookup_app_Some. exact Hdup.
      * cbn [outcome fst snd]. auto.
    + injection Hnext as <- _.
      destruct (addDevice_onSpace c a
                  (devicesMap ++ map (fun a => (addressHash a, deviceAt c a)) p)
                  m0 Hm0) as (m1 & Hadd & Hm1).
      { rewrite lookup_app_None.
        - apply lookup_fresh. apply (found_next c p s a Hf).
        - apply Hfresh. rewrite Hq. apply elem_of_app. right. left. }
      eexists (Ok tt), _, m1. split; [exact Hadd|]. cbn [outcome fst snd].
      split; [|exact Hm1]. split.
      * exists q. rewrite Hq, <- app_assoc. reflexivity.
      * rewrite map_app, app_assoc. reflexivity.
  - split; [exists pre; reflexivity|]. cbn [map]. rewrite app_nil_r. reflexivity.
  - exact H0.
  - destruct r as [[]|e]; cbn [outcome] in Ho.
    + destruct Ho as [[q Hq] _]. apply (f_equal length) in Hq.
      rewrite Hfound, !length_app in Hq. cbn [length] in Hq. lia.
    + destruct Ho as [-> ->]. exists m'. split; [exact Hrun|exact H1].
Qed.

(** The simulated machine with its two functions registered: the first
    function found is the bridge at slot 1. *)
Lemma enumerate_duplicate_witness :
  exists m',
    enumerate (Sim.registry, Sim.machine) =
      (Throw DuplicateDevice,
       (Sim.registry ++
          map (fun a => (addressHash a, deviceAt Sim.space a)) [], m')) /\
    onSpace Sim.space m'.
Proof.
  apply (enumerate_duplicate Sim.space Sim.registry Sim.machine []
           [mkAddr 0 5 0] (mkAddr 0 1 0) Sim.bridge).
  - split; [reflexivity|]. apply coherent_fresh. reflexivity.
  - vm_compute. reflexivity.
  - intros a Ha. inversion Ha.
  - reflexivity.
Defined.

End Enumerate.

(** ** The inventory leaves the configuration space as it was *)

Section Restore.

Implicit Types (a : Key) (f : Field) (d : PciDevice) (m : Machine).

Lemma sameReads_refl m : sameReads m m.
Proof. intros x. reflexivity. Qed.

Lemma sameReads_trans m1 m2 m3 :
  sameReads m1 m2 -> sameReads m2 m3 -> sameReads m1 m3.
Proof. intros H1 H2 x. rewrite H2. apply H1. Qed.

Lemma sameReads_cfg m m' : cfg (ports m') = cfg (ports m) -> sameReads m m'.
Proof. intros H x. unfold rawAt. rewrite H. reflexivity. Qed.

(** A read of a dword-aligned field keeps coherent caches coherent. *)
Lemma read_keeps a f m r m' :
  JS.rem (offset f) sizeof.UINT32 = 0 -> coherent m ->
  PciAccessor.read a f m = (r, m') ->
  sameReads m m' /\ coherent m'.
Proof.
  intros Ha Hcoh H.
  destruct (read_onSpace (cfg (ports m)) a f m Ha (conj eq_refl Hcoh))
    as (m1 & Hread & Hc & Hcoh1).
  rewrite Hread in H. injection H as _ <-.
  split; [apply sameReads_cfg, Hc|exact Hcoh1].
Qed.

(** The probe of a BAR whose original value is the dword of the space. *)
Lemma probe_keeps a barField m :
  coherent m ->
  sameReads m (afterProbe a barField (rawAt (fieldAddr a barField) (ports m)) m) /\
  coherent (afterProbe a barField (rawAt (fieldAddr a barField) (ports m)) m).
Proof.
  intros Hcoh.
  assert (Hsame : sameReads m (afterProbe a barField
                                 (rawAt (fieldAddr a barField) (ports m)) m)).
  { intros x. unfold afterProbe. rewrite ports_withCache.
    unfold afterWrite, afterRead32, rawAt. cbn [cfg].
    unfold dwordAt. rewrite alter_alter_eq, lookup_alter.
    destruct (decide (fieldAddr a barField = x)) as [<-|Hne]; [|reflexivity].
    destruct (cfg (ports m) !! fieldAddr a barField) as [r|];
      cbn [fmap option_fmap option_map]; [|reflexivity].
    unfold compose. apply store_restore. }
  split; [exact Hsame|].
  intros a0 f0 v. rewrite (Hsame (fieldAddr a0 f0)).
  unfold afterProbe.
  destruct (decide (a0 = a)) as [->|Hne].
  - rewrite offsetCache_withCache.
    destruct (decide (offset f0 = offset barField)) as [Eo|Hno].
    + rewrite Eo, lookup_delete_eq. discriminate.
    + rewrite lookup_delete_ne, lookup_insert_ne, lookup_delete_ne by congruence.
      apply Hcoh.
  - unfold PciAccessor.offsetCache at 1, withCache. cbn [accessorCache].
    rewrite lookup_insert_ne by congruence. apply (Hcoh a0 f0 v).
Qed.

(** [getBAR], whatever its outcome, leaves every dword of the space as it
    was when the caches are coherent, and leaves them coherent. *)
Lemma getBAR_keeps d index m r m' :
  coherent m -> Device.getBAR d index m = (r, m') ->
  sameReads m m' /\ coherent m'.
Proof.
  intros Hcoh. rewrite getBAR_wraps.
  pose proof (ushr0_range index) as Hrange.
  destruct (isBridge d) eqn:Hb.
  { unfold Device.getBAR. rewrite Hb. unfold throw. intros H.
    injection H as _ <-. split; [apply sameReads_refl|exact Hcoh]. }
  destruct (Z.ltb_spec 5 (JS.ushr (JS.ushr index 0) 0)) as [Hgt|Hle].
  { unfold Device.getBAR. rewrite Hb.
    destruct (Z.ltb_spec 5 (JS.ushr (JS.ushr index 0) 0)) as [_|?]; [|lia].
    unfold throw. intros H. injection H as _ <-.
    split; [apply sameReads_refl|exact Hcoh]. }
  rewrite ushr0_idem in Hle.
  assert (Hi : 0 <= JS.ushr index 0 <= 5) by lia.
  destruct (BAR_lookup _ Hi) as [barField Hf].
  destruct (BAR_field _ _ Hf) as (Hmask & Hshift & Halign).
  destruct (read_onSpace (cfg (ports m)) (pciAccessor d) barField m Halign
              (conj eq_refl Hcoh)) as (m1 & Hread & Hc & Hcoh1).
  assert (Hval : fieldAt (cfg (ports m)) (pciAccessor d) barField =
                 rawAt (fieldAddr (pciAccessor d) barField) (ports m1)).
  { unfold fieldAt, rawAt. rewrite Hc.
    apply dwToFieldValue_dword; auto.
    apply (rawAt_range _ (ports m)). }
  rewrite Hval in Hread.
  destruct (Z.eq_dec (rawAt (fieldAddr (pciAccessor d) barField) (ports m1)) 0)
    as [Hz|Hnz].
  - rewrite Hz in Hread.
    rewrite (getBAR_absent _ _ _ _ _ Hb Hi Hf Hread).
    intros H. injection H as _ <-.
    split; [apply sameReads_cfg, Hc|exact Hcoh1].
  - destruct (getBAR_decode _ _ _ _ _ _ Hb Hi Hf Hread Hnz)
      as (barSize & m2 & Hprobe & Hget).
    rewrite (probeResponse_spec _ _ _ m1 Hmask Halign) in Hprobe
      by apply rawAt_range.
    injection Hprobe as _ <-. rewrite Hget. intros H. injection H as _ <-.
    destruct (probe_keeps (pciAccessor d) barField m1 Hcoh1) as [Hs2 Hc2].
    split; [|exact Hc2].
    apply (sameReads_trans _ m1); [apply sameReads_cfg, Hc|exact Hs2].
Qed.

Lemma probeBars_keeps d indices : forall m probes m',
  coherent m -> probeBars d indices m = (Ok probes, m') ->
  sameReads m m' /\ coherent m'.
Proof.
  induction indices as [|i indices IH]; intros m probes m' Hcoh.
  - cbn [probeBars]. unfold ret. intros H. injection H as _ <-.
    split; [apply sameReads_refl|exact Hcoh].
  - cbn [probeBars]. unfold bind at 1.
    destruct (Device.getBAR d i m) as [[bar|e] m1] eqn:Hbar; [|discriminate].
    destruct (getBAR_keeps _ _ _ _ _ Hcoh Hbar) as [Hs1 Hc1].
    unfold bind.
    destruct (probeBars d indices m1) as [[tl|e] m2] eqn:Hrest; [|discriminate].
    destruct (IH _ _ _ Hc1 Hrest) as [Hs2 Hc2].
    unfold ret. intros H. injection H as _ <-.
    split; [apply (sameReads_trans _ _ _ Hs1 Hs2)|exact Hc2].
Qed.

Lemma classData_keeps d m r m' :
  coherent m -> Device.classData d m = (r, m') -> sameReads m m' /\ coherent m'.
Proof.
  intros Hcoh. unfold Device.classData. unfold bind at 1.
  destruct (PciAccessor.read (pciAccessor d) fields.CLASS_CODE m)
    as [[classCode|e] m1] eqn:H1;
    destruct (read_keeps _ fields.CLASS_CODE _ _ _ eq_refl Hcoh H1) as [Hs1 Hc1].
  - unfold bind.
    destruct (PciAccessor.read (pciAccessor d) fields.SUBCLASS m1)
      as [[subclass|e] m2] eqn:H2;
      destruct (read_keeps _ fields.SUBCLASS _ _ _ eq_refl Hc1 H2) as [Hs2 Hc2];
      unfold ret; intros H; injection H as _ <-;
      (split; [apply (sameReads_trans _ _ _ Hs1 Hs2)|exact Hc2]).
  - intros H. injection H as _ <-. split; assumption.
Qed.

Lemma subsystemData_keeps d m r m' :
  coherent m -> Device.subsystemData d m = (r, m') ->
  sameReads m m' /\ coherent m'.
Proof.
  intros Hcoh. unfold Device.subsystemData. destruct (isBridge d).
  { unfold throw. intros H. injection H as _ <-.
    split; [apply sameReads_refl|exact Hcoh]. }
  unfold bind at 1.
  destruct (PciAccessor.read (pciAccessor d) generalFields.SUBSYS_ID m)
    as [[subsystemId|e] m1] eqn:H1;
    destruct (read_keeps _ generalFields.SUBSYS_ID _ _ _ eq_refl Hcoh H1) as [Hs1 Hc1].
  - unfold bind.
    destruct (PciAccessor.read (pciAccessor d) generalFields.SUBSYS_VENDOR m1)
      as [[subsystemVendor|e] m2] eqn:H2;
      destruct (read_keeps _ generalFields.SUBSYS_VENDOR _ _ _ eq_refl Hc1 H2) as [Hs2 Hc2];
      unfold ret; intros H; injection H as _ <-;
      (split; [apply (sameReads_trans _ _ _ Hs1 Hs2)|exact Hc2]).
  - intros H. injection H as _ <-. split; assumption.
Qed.

Lemma interruptPin_keeps d m r m' :
  coherent m -> Device.interruptPin d m = (r, m') ->
  sameReads m m' /\ coherent m'.
Proof.
  intros Hcoh. unfold Device.interruptPin. destruct (isBridge d).
  - unfold throw. intros H. injection H as _ <-.
    split; [apply sameReads_refl|exact Hcoh].
  - apply read_keeps; [reflexivity|exact Hcoh].
Qed.

Lemma Listed_keeps (devicesMap : Registry) m results m' :
  Listed devicesMap m results m' -> coherent m ->
  sameReads m m' /\ coherent m'.
Proof.
  induction 1 as [| key d tl m results m' Hb _ IH
                  | key d tl m cd m1 sd m2 pin m3 probes m4 results m'
                      Hb Hcd Hsd Hpin Hbars _ IH]; intros Hcoh.
  - split; [apply sameReads_refl|exact Hcoh].
  - apply IH, Hcoh.
  - destruct (classData_keeps _ _ _ _ Hcoh Hcd) as [Hs1 Hc1].
    destruct (subsystemData_keeps _ _ _ _ Hc1 Hsd) as [Hs2 Hc2].
    destruct (interruptPin_keeps _ _ _ _ Hc2 Hpin) as [Hs3 Hc3].
    destruct (probeBars_keeps _ _ _ _ _ Hc3 Hbars) as [Hs4 Hc4].
    destruct (IH Hc4) as [Hs5 Hc5]. split; [|exact Hc5].
    apply (sameReads_trans _ _ _ Hs1). apply (sameReads_trans _ _ _ Hs2).
    apply (sameReads_trans _ _ _ Hs3). apply (sameReads_trans _ _ _ Hs4 Hs5).
Qed.

(** X23. The inventory is non-destructive.  When every dword an accessor
    has cached is the dword of the configuration space, [listPciDevices]
    returns normally with the registry as it was, and after all the probes
    of all the BARs every dword of the space reads as before the call; the
    accessor caches still agree with the space. *)
Theorem listPciDevices_restores (devicesMap : Registry) m :
  coherent m ->
  exists results m',
    listPciDevices (devicesMap, m) = (Ok results, (devicesMap, m')) /\
    sameReads m m' /\ coherent m'.
Proof.
  intros Hcoh.
  destruct (each_summarize devicesMap m []) as (listed & m' & Hrun & Hl).
  exists listed, m'. unfold listPciDevices, pciManager.each. cbn [fst snd].
  rewrite Hrun. cbn [app]. split; [reflexivity|].
  apply (Listed_keeps _ _ _ _ Hl Hcoh).
Qed.

Lemma listPciDevices_restores_witness :
  exists results m',
    listPciDevices (Sim.registry, Sim.machine) = (Ok results, (Sim.registry, m')) /\
    sameReads Sim.machine m' /\ coherent m'.
Proof.
  apply (listPciDevices_restores Sim.registry Sim.machine).
  apply coherent_fresh. reflexivity.
Defined.

End Restore.

(** ** The module's top-level code *)

Section Scan.

Implicit Types (c : gmap Z Reg) (m : Machine) (devicesMap : Registry).

Lemma quiet_cfg m m' : quiet m m' -> cfg (ports m') = cfg (ports m).
Proof. intros [H _]. exact H. Qed.

Lemma inventory_fresh c :
  Forall (fun x => acpiDevice x.2 = None /\ irqVector x.2 = None) (inventory c).
Proof.
  unfold inventory. induction (found c) as [|x l IH]; constructor; [|exact IH].
  split; reflexivity.
Qed.

Lemma handleSet_vector d d' : handleSet d d' -> irqVector d' = irqVector d.
Proof. intros [->|(_ & node & ->)]; reflexivity. Qed.

Lemma sameKeys_fresh devicesMap devicesMap' :
  sameKeys handleSet devicesMap devicesMap' ->
  Forall (fun x => irqVector x.2 = None) devicesMap ->
  Forall (fun x => irqVector x.2 = None) devicesMap'.
Proof.
  induction 1 as [|x y l l' [_ Hh] _ IH]; intros Hall; [constructor|].
  inversion Hall as [|? ? Hx Hl]; subst. constructor; [|apply IH, Hl].
  rewrite (handleSet_vector _ _ Hh). exact Hx.
Qed.

Lemma sameKeys_configured devicesMap mid devicesMap' :
  sameKeys handleSet devicesMap mid -> sameKeys vectorSet mid devicesMap' ->
  sameKeys configured devicesMap devicesMap'.
Proof.
  intros H1. revert devicesMap'.
  induction H1 as [|x y l l' [Hk Hh] _ IH]; intros devicesMap' H2;
    inversion H2 as [|? z ? l'' [Hk' Hv] Hrest]; subst; constructor.
  - split; [congruence|]. exists y.2. split; assumption.
  - apply IH, Hrest.
Qed.

(** X24. The module's top-level code on a machine with an empty registry
    and coherent accessor caches.  The configuration space is afterwards
    what it was.  The code returns, having started no driver, unless the
    attach pass throws the accessor constructor's error for an address out
    of range, which is then the error of the whole; the enumeration and the
    IRQ pass never throw.  In both cases the registry holds exactly the functions found in
    the space, in the order of the enumeration, each device as the
    enumeration built it but for the ACPI handle and the IRQ vector that the
    passes have set. *)
Theorem scan_outcome c (acpiDevices : list AcpiNode) m :
  onSpace c m ->
  let run := scan acpiDevices ([], m) in
  (run.1 = Ok [] \/ run.1 = Throw InvalidAddress) /\
  sameKeys configured (inventory c) run.2.1 /\
  cfg (ports run.2.2) = c.
Proof.
  intros H0. cbv zeta.
  destruct (scan acpiDevices ([], m)) as [res [reg m']] eqn:Hrun.
  cbn [fst snd]. revert Hrun. unfold scan.
  destruct (enumerate_append c [] m H0) as (m1 & Henum & Hc1 & _).
  { intros address _. reflexivity. }
  cbn [app] in Henum. unfold bind at 1.
  destruct (enumerate _) as [r1 s1] eqn:E.
  injection Henum as -> ->. clear E.
  unfold bind at 1. unfold collectBuses at 1. cbn [fst snd].
  destruct (attachPass acpiDevices (inventory c, (m1, ∅)))
    as [r [reg2 [m2 buses]]] eqn:Hattach.
  destruct (attachPass_run _ _ _ _ _ _ _ _ Hattach) as (Hk2 & Hq2 & Hr2).
  pose proof (quiet_cfg _ _ Hq2) as Hc2.
  destruct Hr2 as [-> | ->].
  2:{ intros H. injection H as <- <- <-.
      split; [right; reflexivity|]. split; [|congruence].
      apply (sameKeys_configured _ reg2); [exact Hk2|].
      apply sameKeys_refl. intros d. left. reflexivity. }
  cbv zeta. unfold bind. unfold irqPass, pciManager.each. cbn [fst snd].
  assert (Hfresh : Forall (fun x => irqVector x.2 = None) reg2).
  { apply (sameKeys_fresh _ _ Hk2).
    eapply Forall_impl; [apply inventory_fresh|]. intros x [_ H]. exact H. }
  destruct (eachFrom_setIrq_fresh (extractRouting buses) reg2 Hfresh m2)
    as (reg3 & m3 & Hirq).
  rewrite Hirq.
  assert (Hk3 : sameKeys vectorSet reg2 reg3 /\ quiet m2 m3).
  { apply (eachFrom_keeps (setIrq (extractRouting buses)) vectorSet quiet) in Hirq.
    - exact Hirq.
    - intros d. left. reflexivity.
    - apply quiet_refl.
    - apply quiet_trans.
    - intros d t r0 d' t' H. apply setIrq_step in H. tauto. }
  destruct Hk3 as [Hk3 Hq3].
  unfold startDrivers, driverPass, pciManager.each. cbn [fst snd].
  rewrite (each_skip startDriver startDriver_skip).
  intros H. injection H as <- <- <-.
  split; [left; reflexivity|]. split.
  - apply (sameKeys_configured _ reg2); assumption.
  - rewrite (quiet_cfg _ _ Hq3). congruence.
Qed.

(** The simulated machine with the root bridge, the bridge at slot 1, the
    network controller and a node below it. *)
Lemma scan_outcome_witness :
  ((scan [Sim.root; Sim.p2p; Sim.nicNode; Sim.belowNic] ([], Sim.machine)).1 = Ok [] \/
   (scan [Sim.root; Sim.p2p; Sim.nicNode; Sim.belowNic] ([], Sim.machine)).1 =
     Throw InvalidAddress) /\
  sameKeys configured (inventory Sim.space)
    (scan [Sim.root; Sim.p2p; Sim.nicNode; Sim.belowNic] ([], Sim.machine)).2.1 /\
  cfg (ports (scan [Sim.root; Sim.p2p; Sim.nicNode; Sim.belowNic]
                ([], Sim.machine)).2.2) = Sim.space.
Proof.
  apply (scan_outcome Sim.space [Sim.root; Sim.p2p; Sim.nicNode; Sim.belowNic]
           Sim.machine).
  split; [reflexivity|]. apply coherent_fresh. reflexivity.
Defined.

End Scan.

(** ** The result of the IRQ pass; the helpers for drivers *)

Section Routing.

Implicit Types (c : gmap Z Reg) (m : Machine) (d : PciDevice)
  (busRouting : gmap Z (list Route)).

Lemma setIrq_onSpace c busRouting d m :
  onSpace c m -> irqVector d = None ->
  exists m', setIrq busRouting (d, m) = (Ok tt, (routedOn c busRouting d, m')) /\
             onSpace c m'.
Proof.
  intros H0 Hv. rewrite setIrq_eq. unfold routedOn.
  destruct (isBridge d) eqn:Hb; [eauto|].
  destruct (busRouting !! bus (dev_address d)) as [routing|]; [|eauto].
  destruct (read_onSpace c (pciAccessor d) generalFields.INTERRUPT_PIN m
              eq_refl H0) as (m1 & Hread & H1).
  unfold Device.interruptPin. rewrite Hb, Hread. cbv zeta.
  rewrite (Z.eqb_sym 0).
  destruct (fieldAt c (pciAccessor d) generalFields.INTERRUPT_PIN =? 0); [eauto|].
  rewrite fold_matchRoute.
  destruct (lastMatch (dev_address d) _ routing) as [route|]; [|eauto].
  rewrite Hv. eauto.
Qed.

(** X25. The result of the IRQ pass.  On a configuration space with
    coherent accessor caches and a registry in which no device has a vector
    yet, the pass returns normally and every device is as before except
    that each device that is no bridge, whose bus has a routing table and
    whose interrupt-pin register in the space is not 0, has the irq (as an
    unsigned 32-bit number) of the last entry of the table that matches its
    slot and pin, when there is one.  The space is left as it was. *)
Theorem irqPass_assigns c busRouting (devicesMap : Registry) m :
  onSpace c m ->
  Forall (fun x => irqVector x.2 = None) devicesMap ->
  exists m',
    irqPass busRouting (devicesMap, m) =
      (Ok tt, (map (fun x => (x.1, routedOn c busRouting x.2)) devicesMap, m')) /\
    onSpace c m'.
Proof.
  intros H0 Hall. unfold irqPass, pciManager.each. cbn [fst snd].
  revert m H0. induction Hall as [|[k d] rest Hv _ IH]; intros m H0.
  - exists m. split; [reflexivity|exact H0].
  - cbn [snd] in Hv. cbn [pciManager.eachFrom map fst snd].
    destruct (setIrq_onSpace c busRouting d m H0 Hv) as (m1 & -> & H1).
    destruct (IH m1 H1) as (m2 & -> & H2).
    exists m2. split; [reflexivity|exact H2].
Qed.

Lemma irqPass_assigns_witness :
  exists m',
    irqPass Sim.busRouting (Sim.registry, Sim.machine) =
      (Ok tt, (map (fun x => (x.1, routedOn Sim.space Sim.busRouting x.2))
                   Sim.registry, m')) /\
    onSpace Sim.space m'.
Proof.
  apply (irqPass_assigns Sim.space Sim.busRouting Sim.registry Sim.machine).
  - split; [reflexivity|]. apply coherent_fresh. reflexivity.
  - repeat constructor.
Defined.

End Routing.

Section DriverUtils.

Lemma ushr0_wraps x k : JS.ushr (x + k * 2 ^ 32) 0 = JS.ushr x 0.
Proof. rewrite !ushr0. unfold JS.toUint32. apply Z_mod_plus_full. Qed.

(** X26. The helpers for drivers take their numbers as unsigned 32-bit
    numbers.  A physical address, a byte length, an IRQ number or a port
    number from 0 to 2^32 - 1 goes into the handle as it is; any other
    integer is reduced modulo 2^32, so an address of 4 GiB or more wraps
    around and a negative one counts down from 2^32: two numbers that
    differ by a multiple of 2^32 give the same handle. *)
Theorem driverUtils_wrap (address byteLength number k j : Z) :
  driverUtils.physicalMemory (address + k * 2 ^ 32) (byteLength + j * 2 ^ 32) =
    driverUtils.physicalMemory address byteLength /\
  driverUtils.irq (number + k * 2 ^ 32) = driverUtils.irq number /\
  driverUtils.ioPort (number + k * 2 ^ 32) = driverUtils.ioPort number /\
  driverUtils.physicalMemory address byteLength =
    MemoryBlock (address mod 2 ^ 32) (byteLength mod 2 ^ 32) /\
  driverUtils.irq number = Irq (number mod 2 ^ 32) /\
  driverUtils.ioPort number = IoPort (number mod 2 ^ 32) /\
  (0 <= address < 2 ^ 32 -> 0 <= byteLength < 2 ^ 32 ->
   driverUtils.physicalMemory address byteLength = MemoryBlock address byteLength) /\
  (0 <= number < 2 ^ 32 ->
   driverUtils.irq number = Irq number /\ driverUtils.ioPort number = IoPort number).
Proof.
  unfold driverUtils.physicalMemory, driverUtils.irq, driverUtils.ioPort,
    memrange.block, irqRange.irq.
  rewrite !ushr0_wraps.
  repeat split; try reflexivity.
  - intros Ha Hl. rewrite !ushr0_small by assumption. reflexivity.
  - rewrite ushr0_small by assumption. reflexivity.
  - rewrite ushr0_small by assumption. reflexivity.
Qed.

End DriverUtils.
